(** * node-webcodecs: the codec session, embedded and checked

    A shallow embedding of the session logic of node-webcodecs:

    - [Svc]: the scalability-mode parser of [svc.cpp];
    - [Libav]: the part of libavcodec the native encoder drives (an external
      collaborator: its observable protocol, with every platform-dependent
      outcome left to a [Platform] record);
    - [Native]: the class [VideoEncoderNative] of [encoder.cpp];
    - [Wrapper]: the TypeScript classes [VideoEncoder] and [AudioDecoder];
    - [AsyncQueue]: the job queue and worker of the asynchronous encoder.

    Definitions come first, the theorems about them after. *)

From Stdlib Require Import ZArith Floats Ascii String.
From stdpp Require Import gmap strings list pretty sorting.

Open Scope Z_scope.

(** ** Scalability modes ([svc.h], [svc.cpp]) *)

Module Svc.

Record ScalabilityConfig := {
  spatialLayers : Z;
  temporalLayers : Z;
  isSimulcast : bool;
  ratioH : float;
  hasKey : bool;
  hasShift : bool
}.

(** [{1, 1, false, 2.0f, false, false}] *)
Definition default_config : ScalabilityConfig :=
  {| spatialLayers := 1; temporalLayers := 1; isSimulcast := false;
     ratioH := 2%float; hasKey := false; hasShift := false |}.

(** The class [\d] on a [char]: the digit's value, as [std::stoi] reads the
    one-character capture. *)
Definition digit_value (c : ascii) : option Z :=
  let n := Z.of_N (N_of_ascii c) in
  if (48 <=? n) && (n <=? 57) then Some (n - 48) else None.

(** An optional group [(p)?] in front of [s]: whether it matched, and the
    rest.  The three optional groups of the pattern start with different
    text than what may follow them, so greedy matching never backtracks. *)
Fixpoint strip_prefix (p s : string) : option string :=
  match p, s with
  | EmptyString, _ => Some s
  | String a p', String b s' => if Ascii.eqb a b then strip_prefix p' s' else None
  | String _ _, EmptyString => None
  end.

Definition optional_group (p s : string) : bool * string :=
  match strip_prefix p s with
  | Some rest => (true, rest)
  | None => (false, s)
  end.

(** The captures of a successful [std::regex_match] of the whole string
    against [([LS])(\d)T(\d)(h)?(_KEY)?(_SHIFT)?]. *)
Record Match := {
  m_prefix : ascii;
  m_spatial : Z;
  m_temporal : Z;
  m_h : bool;
  m_key : bool;
  m_shift : bool
}.

Definition regex_match (mode : string) : option Match :=
  match mode with
  | String c1 (String d1 (String t (String d2 rest))) =>
      if (Ascii.eqb c1 "L" || Ascii.eqb c1 "S") && Ascii.eqb t "T" then
        match digit_value d1, digit_value d2 with
        | Some sp, Some tp =>
            let '(h, rest1) := optional_group "h" rest in
            let '(k, rest2) := optional_group "_KEY" rest1 in
            let '(s, rest3) := optional_group "_SHIFT" rest2 in
            match rest3 with
            | EmptyString =>
                Some {| m_prefix := c1; m_spatial := sp; m_temporal := tp;
                        m_h := h; m_key := k; m_shift := s |}
            | _ => None
            end
        | _, _ => None
        end
      else None
  | _ => None
  end.

Definition parseScalabilityMode (mode : string) : ScalabilityConfig :=
  let config := default_config in
  match mode with
  | EmptyString => config
  | _ =>
      match regex_match mode with
      | Some m =>
          {| isSimulcast := Ascii.eqb (m_prefix m) "S";
             spatialLayers := m_spatial m;
             temporalLayers := m_temporal m;
             ratioH := if m_h m then 1.5%float else 2%float;
             hasKey := m_key m;
             hasShift := m_shift m |}
      | None => config
      end
  end.

Definition isScalabilityModeSupported (mode : string) : bool :=
  match mode with
  | EmptyString => true
  | _ =>
      let config := parseScalabilityMode mode in
      if (spatialLayers config >? 1) || isSimulcast config then false
      else if (temporalLayers config <? 1) || (temporalLayers config >? 3) then false
      else true
  end.

End Svc.

(** ** libavcodec as the encoder drives it

    libavcodec, libavutil and [hw_accel] are not part of the session code.
    The session sees them through a handful of calls; their state is kept
    here as [Libav.State] (the live codec contexts, the reference-counted
    buffers and a log of the open calls), and whatever the platform decides
    (which encoders exist, whether a context opens, which packets a frame
    produces) is read from a [Platform] record. *)

Module Libav.

Inductive AVPixelFormat :=
  | AV_PIX_FMT_NONE | AV_PIX_FMT_YUV420P | AV_PIX_FMT_YUVA420P | AV_PIX_FMT_NV12
  | AV_PIX_FMT_RGBA | AV_PIX_FMT_BGRA | AV_PIX_FMT_VAAPI
  | AV_PIX_FMT_other (n : Z).

Inductive AVColorPrimaries :=
  | AVCOL_PRI_UNSPECIFIED | AVCOL_PRI_BT709 | AVCOL_PRI_BT470BG | AVCOL_PRI_SMPTE170M
  | AVCOL_PRI_BT2020 | AVCOL_PRI_SMPTE432 | AVCOL_PRI_SMPTE431.

Inductive AVColorTransferCharacteristic :=
  | AVCOL_TRC_UNSPECIFIED | AVCOL_TRC_BT709 | AVCOL_TRC_SMPTE170M | AVCOL_TRC_IEC61966_2_1
  | AVCOL_TRC_LINEAR | AVCOL_TRC_SMPTE2084 | AVCOL_TRC_ARIB_STD_B67
  | AVCOL_TRC_GAMMA22 | AVCOL_TRC_GAMMA28.

Inductive AVColorSpace :=
  | AVCOL_SPC_UNSPECIFIED | AVCOL_SPC_RGB | AVCOL_SPC_BT709 | AVCOL_SPC_BT470BG
  | AVCOL_SPC_SMPTE170M | AVCOL_SPC_BT2020_NCL | AVCOL_SPC_BT2020_CL
  | AVCOL_SPC_SMPTE240M | AVCOL_SPC_YCGCO.

Inductive AVColorRange := AVCOL_RANGE_MPEG | AVCOL_RANGE_JPEG.

#[global] Instance AVPixelFormat_eq_dec : EqDecision AVPixelFormat.
Proof. solve_decision. Defined.

(** A [const AVCodec*]: an encoder of the library, known by its name. *)
Record AVCodec := { name : string }.

#[global] Instance AVCodec_eq_dec : EqDecision AVCodec.
Proof. solve_decision. Defined.

(** What the session writes into the public fields of an [AVCodecContext]. *)
Inductive Val :=
  | VInt (z : Z)
  | VRational (num den : Z)
  | VPixFmt (f : AVPixelFormat)
  | VPrimaries (p : AVColorPrimaries)
  | VTransfer (t : AVColorTransferCharacteristic)
  | VMatrix (m : AVColorSpace)
  | VRange (r : AVColorRange).

(** A value given to [av_opt_set] (text) or [av_opt_set_int]. *)
Inductive OptVal := OStr (s : string) | OInt (z : Z).

Record AVPacket := {
  data : list Byte.byte;
  key_flag : bool;                     (* flags & AV_PKT_FLAG_KEY *)
  pts : Z;
  duration : Z;
  blockadditional : list Byte.byte          (* AV_PKT_DATA_MATROSKA_BLOCKADDITIONAL, empty when absent *)
}.

(** What one [avcodec_receive_packet] hands out once the encoder has
    something: a packet, or a negative error code. *)
Inductive Received := Packet (p : AVPacket) | Failure (code : Z).

Record AVFrame := {
  format : AVPixelFormat;
  width : Z;
  height : Z;
  frame_pts : Z;
  pict_type_I : bool;                  (* pict_type == AV_PICTURE_TYPE_I *)
  pixels : nat                         (* the picture, opaque to the session *)
}.

Record AVCodecContext := {
  codec : AVCodec;
  fields : gmap string Val;            (* public fields, by name *)
  priv_data : list (string * OptVal);  (* private options, in call order *)
  hw_device_ctx : option nat;
  hw_frames_ctx : option nat;
  extradata : list Byte.byte;
  opened : bool;
  draining : bool;
  ready : list Received                (* output waiting for avcodec_receive_packet *)
}.

(** An [AVBuffer]: its reference count, and for a frames context the device
    buffer it holds a reference to. *)
Record AVBuffer := { refcount : nat; device : option nat }.

Record State := {
  contexts : gmap nat AVCodecContext;
  buffers : gmap nat AVBuffer;
  next_id : nat;
  opens : list (string * bool)         (* avcodec_open2 calls: codec name, result >= 0 *)
}.

Definition init : State :=
  {| contexts := ∅; buffers := ∅; next_id := 0%nat; opens := [] |}.

Definition AVERROR_EAGAIN : Z := -11.
Definition AVERROR_EOF : Z := -541478725.
Definition AVERROR_EINVAL : Z := -22.

(** *** [hw_accel.h]: accelerator types and preferences *)

Inductive HWType := HW_None | HW_Device (id : string).
Inductive Preference := NoPreference | PreferHardware | PreferSoftware.

#[global] Instance HWType_eq_dec : EqDecision HWType.
Proof. solve_decision. Defined.
#[global] Instance Preference_eq_dec : EqDecision Preference.
Proof. solve_decision. Defined.

Record EncoderInfo := {
  info_codec : option AVCodec;
  hwType : HWType;
  inputFormat : AVPixelFormat;
  requiresHWFrames : bool
}.

(** A scaler made by [sws_getContext]: what it converts from and to. *)
Record SwsContext := {
  srcW : Z; srcH : Z; srcFormat : AVPixelFormat;
  dstW : Z; dstH : Z; dstFormat : AVPixelFormat
}.

(** *** What the platform decides *)

Record Platform := {
  (* hw_accel.cpp *)
  parsePreference : string → Preference;
  selectEncoder : string → Preference → Z → Z → EncoderInfo;
  createHWDeviceContext_ok : HWType → bool;
  (* libavcodec, libavutil, libswscale *)
  find_encoder_by_name : string → option AVCodec;
  hwframe_ctx_alloc_ok : bool;
  hwframe_ctx_init_ret : AVPixelFormat → Z → Z → Z;
  open2_ret : AVCodecContext → Z;
  open2_extradata : AVCodecContext → list Byte.byte;
  encode_frame : AVCodecContext → AVFrame → Z * list Received;
  drain_frames : AVCodecContext → list Received;
  encoder_flush_cap : AVCodec → bool;      (* AV_CODEC_CAP_ENCODER_FLUSH *)
  frame_get_buffer_ret : AVPixelFormat → Z → Z → Z;
  sws_getContext_ok : SwsContext → bool;
  sws_scale : SwsContext → nat → nat;
  strerror : Z → string
}.

(** *** Buffers *)

Definition new_buffer (dev : option nat) (s : State) : nat * State :=
  let id := next_id s in
  (id, {| contexts := contexts s;
          buffers := <[id := {| refcount := 1; device := dev |}]> (buffers s);
          next_id := S id; opens := opens s |}).

Definition with_buffers (f : gmap nat AVBuffer → gmap nat AVBuffer) (s : State) : State :=
  {| contexts := contexts s; buffers := f (buffers s);
     next_id := next_id s; opens := opens s |}.

Definition with_contexts (f : gmap nat AVCodecContext → gmap nat AVCodecContext)
    (s : State) : State :=
  {| contexts := f (contexts s); buffers := buffers s;
     next_id := next_id s; opens := opens s |}.

(** [av_buffer_ref]: one more reference to the same buffer. *)
Definition av_buffer_ref (id : nat) (s : State) : State :=
  with_buffers (alter (λ b, {| refcount := S (refcount b); device := device b |}) id) s.

(** Dropping one reference; the buffer goes with its last reference. *)
Definition drop_ref (id : nat) (bs : gmap nat AVBuffer) : gmap nat AVBuffer :=
  match bs !! id with
  | Some {| refcount := S (S n); device := d |} =>
      <[id := {| refcount := S n; device := d |}]> bs
  | Some _ => delete id bs
  | None => bs
  end.

(** [av_buffer_unref]: a frames context that goes releases its device. *)
Definition av_buffer_unref (id : nat) (s : State) : State :=
  match buffers s !! id with
  | Some {| refcount := S (S _) |} => with_buffers (drop_ref id) s
  | Some {| device := Some d |} => with_buffers (λ bs, drop_ref d (drop_ref id bs)) s
  | _ => with_buffers (drop_ref id) s
  end.

Definition unref_opt (r : option nat) (s : State) : State :=
  match r with Some id => av_buffer_unref id s | None => s end.

(** [HWAccel::createHWDeviceContext]: a new device buffer, or null. *)
Definition createHWDeviceContext (P : Platform) (t : HWType) (s : State)
    : option nat * State :=
  if createHWDeviceContext_ok P t
  then let '(id, s') := new_buffer None s in (Some id, s')
  else (None, s).

(** [av_hwframe_ctx_alloc]: a frames buffer holding a reference to its device. *)
Definition av_hwframe_ctx_alloc (P : Platform) (dev : nat) (s : State)
    : option nat * State :=
  if hwframe_ctx_alloc_ok P
  then let '(id, s') := new_buffer (Some dev) (av_buffer_ref dev s) in (Some id, s')
  else (None, s).

(** *** Codec contexts *)

Definition fresh_context (c : AVCodec) : AVCodecContext :=
  {| codec := c; fields := ∅; priv_data := []; hw_device_ctx := None;
     hw_frames_ctx := None; extradata := []; opened := false;
     draining := false; ready := [] |}.

(** [avcodec_alloc_context3].  Allocation does not fail in this model. *)
Definition avcodec_alloc_context3 (c : AVCodec) (s : State) : nat * State :=
  let id := next_id s in
  (id, {| contexts := <[id := fresh_context c]> (contexts s); buffers := buffers s;
          next_id := S id; opens := opens s |}).

(** [avcodec_free_context]: the context goes, with the buffer references it holds. *)
Definition avcodec_free_context (id : nat) (s : State) : State :=
  match contexts s !! id with
  | Some c =>
      unref_opt (hw_frames_ctx c) (unref_opt (hw_device_ctx c)
        (with_contexts (delete id) s))
  | None => s
  end.

Definition set_field (k : string) (v : Val) (c : AVCodecContext) : AVCodecContext :=
  {| codec := codec c; fields := <[k := v]> (fields c); priv_data := priv_data c;
     hw_device_ctx := hw_device_ctx c; hw_frames_ctx := hw_frames_ctx c;
     extradata := extradata c; opened := opened c; draining := draining c;
     ready := ready c |}.

(** [av_opt_set] and [av_opt_set_int] on [priv_data]. *)
Definition set_opt (k : string) (v : OptVal) (c : AVCodecContext) : AVCodecContext :=
  {| codec := codec c; fields := fields c; priv_data := priv_data c ++ [(k, v)];
     hw_device_ctx := hw_device_ctx c; hw_frames_ctx := hw_frames_ctx c;
     extradata := extradata c; opened := opened c; draining := draining c;
     ready := ready c |}.

Definition set_hw_device_ctx (r : option nat) (c : AVCodecContext) : AVCodecContext :=
  {| codec := codec c; fields := fields c; priv_data := priv_data c;
     hw_device_ctx := r; hw_frames_ctx := hw_frames_ctx c;
     extradata := extradata c; opened := opened c; draining := draining c;
     ready := ready c |}.

Definition set_hw_frames_ctx (r : option nat) (c : AVCodecContext) : AVCodecContext :=
  {| codec := codec c; fields := fields c; priv_data := priv_data c;
     hw_device_ctx := hw_device_ctx c; hw_frames_ctx := r;
     extradata := extradata c; opened := opened c; draining := draining c;
     ready := ready c |}.

(** The engine's side of a context: open flag, extradata, draining, output. *)
Definition set_engine (o : bool) (x : list Byte.byte) (d : bool) (r : list Received)
    (c : AVCodecContext) : AVCodecContext :=
  {| codec := codec c; fields := fields c; priv_data := priv_data c;
     hw_device_ctx := hw_device_ctx c; hw_frames_ctx := hw_frames_ctx c;
     extradata := x; opened := o; draining := d; ready := r |}.

(** The last option of that name in [priv_data]. *)
Definition get_opt (k : string) (c : AVCodecContext) : option OptVal :=
  snd <$> last (filter (λ kv, fst kv = k) (priv_data c)).

Definition get_int (k : string) (c : AVCodecContext) : option Z :=
  match fields c !! k with Some (VInt z) => Some z | _ => None end.

(** [codecCtx_->pix_fmt]; a fresh context has [AV_PIX_FMT_NONE]. *)
Definition pix_fmt (c : AVCodecContext) : AVPixelFormat :=
  match fields c !! "pix_fmt" with Some (VPixFmt f) => f | _ => AV_PIX_FMT_NONE end.

(** [avcodec_open2]: the platform decides; the call is logged. *)
Definition avcodec_open2 (P : Platform) (id : nat) (s : State) : Z * State :=
  match contexts s !! id with
  | Some c =>
      let ret := open2_ret P c in
      let c' := if ret <? 0 then c
                else set_engine true (open2_extradata P c) (draining c) (ready c) c in
      (ret, {| contexts := <[id := c']> (contexts s); buffers := buffers s;
               next_id := next_id s;
               opens := opens s ++ [(name (codec c), negb (ret <? 0))] |})
  | None => (AVERROR_EINVAL, s)
  end.

(** [avcodec_send_frame].  A null frame starts draining; once draining, the
    encoder takes no more input and answers [AVERROR_EOF]. *)
Definition avcodec_send_frame (P : Platform) (id : nat) (f : option AVFrame)
    (s : State) : Z * State :=
  match contexts s !! id with
  | Some c =>
      if draining c then (AVERROR_EOF, s)
      else match f with
           | None =>
               let c' := set_engine (opened c) (extradata c) true
                           (ready c ++ drain_frames P c) c in
               (0, with_contexts <[id := c']> s)
           | Some fr =>
               let '(ret, out) := encode_frame P c fr in
               if ret <? 0 then (ret, s)
               else (ret, with_contexts
                            <[id := set_engine (opened c) (extradata c) false
                                      (ready c ++ out) c]> s)
           end
  | None => (AVERROR_EINVAL, s)
  end.

(** [avcodec_receive_packet]: the next piece of output; with none left,
    [AVERROR_EOF] when draining and [AVERROR(EAGAIN)] otherwise. *)
Definition avcodec_receive_packet (id : nat) (s : State) : Z * option AVPacket * State :=
  match contexts s !! id with
  | Some c =>
      match ready c with
      | Packet p :: rest =>
          (0, Some p,
           with_contexts <[id := set_engine (opened c) (extradata c) (draining c) rest c]> s)
      | Failure code :: rest =>
          (code, None,
           with_contexts <[id := set_engine (opened c) (extradata c) (draining c) rest c]> s)
      | [] => (if draining c then AVERROR_EOF else AVERROR_EAGAIN, None, s)
      end
  | None => (AVERROR_EINVAL, None, s)
  end.

(** [avcodec_flush_buffers]: an encoder without [AV_CODEC_CAP_ENCODER_FLUSH]
    ignores it; one with it drops its output and leaves draining. *)
Definition avcodec_flush_buffers (P : Platform) (id : nat) (s : State) : State :=
  match contexts s !! id with
  | Some c =>
      if encoder_flush_cap P (codec c)
      then with_contexts <[id := set_engine (opened c) (extradata c) false [] c]> s
      else s
  | None => s
  end.

End Libav.

(** ** The native encoder ([encoder.cpp], class [VideoEncoderNative]) *)

Module Native.

(** *** What JavaScript passes in and gets back *)

Record ColorSpaceInit := {
  primaries : option string;
  transfer : option string;
  matrix : option string;
  fullRange : option bool
}.

(** The configuration object as [Configure] reads it: a field is [None]
    when [config.Has] is false (or, for [alpha] and [scalabilityMode], when
    the value is not a string; for [colorSpace], not an object). *)
Record Config := {
  codec : string;
  width : Z;                       (* Int32Value *)
  height : Z;
  hardwareAcceleration : option string;
  bitrate : option Z;              (* Int64Value *)
  bitrateMode : option string;
  framerate : option Z;
  alpha : option string;
  colorSpace : option ColorSpaceInit;
  profile : option Z;
  avcFormat : option string;
  latencyMode : option string;
  scalabilityMode : option string
}.

Inductive Exception :=
  | TypeError (message : string)
  | Error (message : string)
  | DOMException (message name : string).

(** The calls the encoder makes on the functions JavaScript gave it. *)
Inductive Callback :=
  | OnOutput (buffer : list Byte.byte) (isKeyframe : bool) (pts duration : Z)
             (extradata alphaSideData : option (list Byte.byte))
  | OnError (message : string)
  | OnFlush.                       (* the flush callback, called with null *)

(** *** The object *)

Record Encoder := {
  codecCtx_ : option nat;
  codec_ : option Libav.AVCodec;
  swsCtx_ : option Libav.SwsContext;
  hwType_ : Libav.HWType;
  hwDeviceCtx_ : option nat;
  hwFramesCtx_ : option nat;
  hwInputFormat_ : Libav.AVPixelFormat;
  configured_ : bool;
  avcAnnexB_ : bool;
  width_ : Z;
  height_ : Z;
  bitrateMode_ : string;
  codecName_ : string;
  bitrate_ : Z;
  alpha_ : bool;
  scalabilityMode_ : string;
  temporalLayers_ : Z
}.

(** Assignments to the members, one setter a member. *)
Definition set_codecCtx_ (v : option nat) (e : Encoder) : Encoder :=
  {| codecCtx_ := v; codec_ := codec_ e; swsCtx_ := swsCtx_ e; hwType_ := hwType_ e;
     hwDeviceCtx_ := hwDeviceCtx_ e; hwFramesCtx_ := hwFramesCtx_ e;
     hwInputFormat_ := hwInputFormat_ e; configured_ := configured_ e;
     avcAnnexB_ := avcAnnexB_ e; width_ := width_ e; height_ := height_ e;
     bitrateMode_ := bitrateMode_ e; codecName_ := codecName_ e;
     bitrate_ := bitrate_ e; alpha_ := alpha_ e;
     scalabilityMode_ := scalabilityMode_ e;
     temporalLayers_ := temporalLayers_ e |}.
Definition set_codec_ (v : option Libav.AVCodec) (e : Encoder) : Encoder :=
  {| codecCtx_ := codecCtx_ e; codec_ := v; swsCtx_ := swsCtx_ e; hwType_ := hwType_ e;
     hwDeviceCtx_ := hwDeviceCtx_ e; hwFramesCtx_ := hwFramesCtx_ e;
     hwInputFormat_ := hwInputFormat_ e; configured_ := configured_ e;
     avcAnnexB_ := avcAnnexB_ e; width_ := width_ e; height_ := height_ e;
     bitrateMode_ := bitrateMode_ e; codecName_ := codecName_ e;
     bitrate_ := bitrate_ e; alpha_ := alpha_ e;
     scalabilityMode_ := scalabilityMode_ e;
     temporalLayers_ := temporalLayers_ e |}.
Definition set_swsCtx_ (v : option Libav.SwsContext) (e : Encoder) : Encoder :=
  {| codecCtx_ := codecCtx_ e; codec_ := codec_ e; swsCtx_ := v; hwType_ := hwType_ e;
     hwDeviceCtx_ := hwDeviceCtx_ e; hwFramesCtx_ := hwFramesCtx_ e;
     hwInputFormat_ := hwInputFormat_ e; configured_ := configured_ e;
     avcAnnexB_ := avcAnnexB_ e; width_ := width_ e; height_ := height_ e;
     bitrateMode_ := bitrateMode_ e; codecName_ := codecName_ e;
     bitrate_ := bitrate_ e; alpha_ := alpha_ e;
     scalabilityMode_ := scalabilityMode_ e;
     temporalLayers_ := temporalLayers_ e |}.
Definition set_hwType_ (v : Libav.HWType) (e : Encoder) : Encoder :=
  {| codecCtx_ := codecCtx_ e; codec_ := codec_ e; swsCtx_ := swsCtx_ e; hwType_ := v;
     hwDeviceCtx_ := hwDeviceCtx_ e; hwFramesCtx_ := hwFramesCtx_ e;
     hwInputFormat_ := hwInputFormat_ e; configured_ := configured_ e;
     avcAnnexB_ := avcAnnexB_ e; width_ := width_ e; height_ := height_ e;
     bitrateMode_ := bitrateMode_ e; codecName_ := codecName_ e;
     bitrate_ := bitrate_ e; alpha_ := alpha_ e;
     scalabilityMode_ := scalabilityMode_ e;
     temporalLayers_ := temporalLayers_ e |}.
Definition set_hwDeviceCtx_ (v : option nat) (e : Encoder) : Encoder :=
  {| codecCtx_ := codecCtx_ e; codec_ := codec_ e; swsCtx_ := swsCtx_ e;
     hwType_ := hwType_ e; hwDeviceCtx_ := v; hwFramesCtx_ := hwFramesCtx_ e;
     hwInputFormat_ := hwInputFormat_ e; configured_ := configured_ e;
     avcAnnexB_ := avcAnnexB_ e; width_ := width_ e; height_ := height_ e;
     bitrateMode_ := bitrateMode_ e; codecName_ := codecName_ e;
     bitrate_ := bitrate_ e; alpha_ := alpha_ e;
     scalabilityMode_ := scalabilityMode_ e;
     temporalLayers_ := temporalLayers_ e |}.
Definition set_hwFramesCtx_ (v : option nat) (e : Encoder) : Encoder :=
  {| codecCtx_ := codecCtx_ e; codec_ := codec_ e; swsCtx_ := swsCtx_ e;
     hwType_ := hwType_ e; hwDeviceCtx_ := hwDeviceCtx_ e; hwFramesCtx_ := v;
     hwInputFormat_ := hwInputFormat_ e; configured_ := configured_ e;
     avcAnnexB_ := avcAnnexB_ e; width_ := width_ e; height_ := height_ e;
     bitrateMode_ := bitrateMode_ e; codecName_ := codecName_ e;
     bitrate_ := bitrate_ e; alpha_ := alpha_ e;
     scalabilityMode_ := scalabilityMode_ e;
     temporalLayers_ := temporalLayers_ e |}.
Definition set_hwInputFormat_ (v : Libav.AVPixelFormat) (e : Encoder) : Encoder :=
  {| codecCtx_ := codecCtx_ e; codec_ := codec_ e; swsCtx_ := swsCtx_ e;
     hwType_ := hwType_ e; hwDeviceCtx_ := hwDeviceCtx_ e;
     hwFramesCtx_ := hwFramesCtx_ e; hwInputFormat_ := v;
     configured_ := configured_ e; avcAnnexB_ := avcAnnexB_ e; width_ := width_ e;
     height_ := height_ e; bitrateMode_ := bitrateMode_ e;
     codecName_ := codecName_ e; bitrate_ := bitrate_ e; alpha_ := alpha_ e;
     scalabilityMode_ := scalabilityMode_ e;
     temporalLayers_ := temporalLayers_ e |}.
Definition set_configured_ (v : bool) (e : Encoder) : Encoder :=
  {| codecCtx_ := codecCtx_ e; codec_ := codec_ e; swsCtx_ := swsCtx_ e;
     hwType_ := hwType_ e; hwDeviceCtx_ := hwDeviceCtx_ e;
     hwFramesCtx_ := hwFramesCtx_ e; hwInputFormat_ := hwInputFormat_ e;
     configured_ := v; avcAnnexB_ := avcAnnexB_ e; width_ := width_ e;
     height_ := height_ e; bitrateMode_ := bitrateMode_ e;
     codecName_ := codecName_ e; bitrate_ := bitrate_ e; alpha_ := alpha_ e;
     scalabilityMode_ := scalabilityMode_ e;
     temporalLayers_ := temporalLayers_ e |}.
Definition set_avcAnnexB_ (v : bool) (e : Encoder) : Encoder :=
  {| codecCtx_ := codecCtx_ e; codec_ := codec_ e; swsCtx_ := swsCtx_ e;
     hwType_ := hwType_ e; hwDeviceCtx_ := hwDeviceCtx_ e;
     hwFramesCtx_ := hwFramesCtx_ e; hwInputFormat_ := hwInputFormat_ e;
     configured_ := configured_ e; avcAnnexB_ := v; width_ := width_ e;
     height_ := height_ e; bitrateMode_ := bitrateMode_ e;
     codecName_ := codecName_ e; bitrate_ := bitrate_ e; alpha_ := alpha_ e;
     scalabilityMode_ := scalabilityMode_ e;
     temporalLayers_ := temporalLayers_ e |}.
Definition set_width_ (v : Z) (e : Encoder) : Encoder :=
  {| codecCtx_ := codecCtx_ e; codec_ := codec_ e; swsCtx_ := swsCtx_ e;
     hwType_ := hwType_ e; hwDeviceCtx_ := hwDeviceCtx_ e;
     hwFramesCtx_ := hwFramesCtx_ e; hwInputFormat_ := hwInputFormat_ e;
     configured_ := configured_ e; avcAnnexB_ := avcAnnexB_ e; width_ := v;
     height_ := height_ e; bitrateMode_ := bitrateMode_ e;
     codecName_ := codecName_ e; bitrate_ := bitrate_ e; alpha_ := alpha_ e;
     scalabilityMode_ := scalabilityMode_ e;
     temporalLayers_ := temporalLayers_ e |}.
Definition set_height_ (v : Z) (e : Encoder) : Encoder :=
  {| codecCtx_ := codecCtx_ e; codec_ := codec_ e; swsCtx_ := swsCtx_ e;
     hwType_ := hwType_ e; hwDeviceCtx_ := hwDeviceCtx_ e;
     hwFramesCtx_ := hwFramesCtx_ e; hwInputFormat_ := hwInputFormat_ e;
     configured_ := configured_ e; avcAnnexB_ := avcAnnexB_ e; width_ := width_ e;
     height_ := v; bitrateMode_ := bitrateMode_ e; codecName_ := codecName_ e;
     bitrate_ := bitrate_ e; alpha_ := alpha_ e;
     scalabilityMode_ := scalabilityMode_ e;
     temporalLayers_ := temporalLayers_ e |}.
Definition set_bitrateMode_ (v : string) (e : Encoder) : Encoder :=
  {| codecCtx_ := codecCtx_ e; codec_ := codec_ e; swsCtx_ := swsCtx_ e;
     hwType_ := hwType_ e; hwDeviceCtx_ := hwDeviceCtx_ e;
     hwFramesCtx_ := hwFramesCtx_ e; hwInputFormat_ := hwInputFormat_ e;
     configured_ := configured_ e; avcAnnexB_ := avcAnnexB_ e; width_ := width_ e;
     height_ := height_ e; bitrateMode_ := v; codecName_ := codecName_ e;
     bitrate_ := bitrate_ e; alpha_ := alpha_ e;
     scalabilityMode_ := scalabilityMode_ e;
     temporalLayers_ := temporalLayers_ e |}.
Definition set_codecName_ (v : string) (e : Encoder) : Encoder :=
  {| codecCtx_ := codecCtx_ e; codec_ := codec_ e; swsCtx_ := swsCtx_ e;
     hwType_ := hwType_ e; hwDeviceCtx_ := hwDeviceCtx_ e;
     hwFramesCtx_ := hwFramesCtx_ e; hwInputFormat_ := hwInputFormat_ e;
     configured_ := configured_ e; avcAnnexB_ := avcAnnexB_ e; width_ := width_ e;
     height_ := height_ e; bitrateMode_ := bitrateMode_ e; codecName_ := v;
     bitrate_ := bitrate_ e; alpha_ := alpha_ e;
     scalabilityMode_ := scalabilityMode_ e;
     temporalLayers_ := temporalLayers_ e |}.
Definition set_bitrate_ (v : Z) (e : Encoder) : Encoder :=
  {| codecCtx_ := codecCtx_ e; codec_ := codec_ e; swsCtx_ := swsCtx_ e;
     hwType_ := hwType_ e; hwDeviceCtx_ := hwDeviceCtx_ e;
     hwFramesCtx_ := hwFramesCtx_ e; hwInputFormat_ := hwInputFormat_ e;
     configured_ := configured_ e; avcAnnexB_ := avcAnnexB_ e; width_ := width_ e;
     height_ := height_ e; bitrateMode_ := bitrateMode_ e;
     codecName_ := codecName_ e; bitrate_ := v; alpha_ := alpha_ e;
     scalabilityMode_ := scalabilityMode_ e;
     temporalLayers_ := temporalLayers_ e |}.
Definition set_alpha_ (v : bool) (e : Encoder) : Encoder :=
  {| codecCtx_ := codecCtx_ e; codec_ := codec_ e; swsCtx_ := swsCtx_ e;
     hwType_ := hwType_ e; hwDeviceCtx_ := hwDeviceCtx_ e;
     hwFramesCtx_ := hwFramesCtx_ e; hwInputFormat_ := hwInputFormat_ e;
     configured_ := configured_ e; avcAnnexB_ := avcAnnexB_ e; width_ := width_ e;
     height_ := height_ e; bitrateMode_ := bitrateMode_ e;
     codecName_ := codecName_ e; bitrate_ := bitrate_ e; alpha_ := v;
     scalabilityMode_ := scalabilityMode_ e;
     temporalLayers_ := temporalLayers_ e |}.
Definition set_scalabilityMode_ (v : string) (e : Encoder) : Encoder :=
  {| codecCtx_ := codecCtx_ e; codec_ := codec_ e; swsCtx_ := swsCtx_ e;
     hwType_ := hwType_ e; hwDeviceCtx_ := hwDeviceCtx_ e;
     hwFramesCtx_ := hwFramesCtx_ e; hwInputFormat_ := hwInputFormat_ e;
     configured_ := configured_ e; avcAnnexB_ := avcAnnexB_ e; width_ := width_ e;
     height_ := height_ e; bitrateMode_ := bitrateMode_ e;
     codecName_ := codecName_ e; bitrate_ := bitrate_ e; alpha_ := alpha_ e;
     scalabilityMode_ := v; temporalLayers_ := temporalLayers_ e |}.
Definition set_temporalLayers_ (v : Z) (e : Encoder) : Encoder :=
  {| codecCtx_ := codecCtx_ e; codec_ := codec_ e; swsCtx_ := swsCtx_ e;
     hwType_ := hwType_ e; hwDeviceCtx_ := hwDeviceCtx_ e;
     hwFramesCtx_ := hwFramesCtx_ e; hwInputFormat_ := hwInputFormat_ e;
     configured_ := configured_ e; avcAnnexB_ := avcAnnexB_ e; width_ := width_ e;
     height_ := height_ e; bitrateMode_ := bitrateMode_ e;
     codecName_ := codecName_ e; bitrate_ := bitrate_ e; alpha_ := alpha_ e;
     scalabilityMode_ := scalabilityMode_ e; temporalLayers_ := v |}.

(** The constructor's member initialisers. *)
Definition new : Encoder :=
  {| codecCtx_ := None; codec_ := None; swsCtx_ := None; hwType_ := Libav.HW_None;
     hwDeviceCtx_ := None; hwFramesCtx_ := None;
     hwInputFormat_ := Libav.AV_PIX_FMT_NONE; configured_ := false;
     avcAnnexB_ := true; width_ := 0; height_ := 0; bitrateMode_ := "variable";
     codecName_ := ""; bitrate_ := 2000000; alpha_ := false;
     scalabilityMode_ := ""; temporalLayers_ := 1 |}.

(** The encoder, the library it drives and the callbacks made so far. *)
Record World := {
  self : Encoder;
  av : Libav.State;
  calls : list Callback
}.

Definition start : World := {| self := new; av := Libav.init; calls := [] |}.

(** *** Methods as state transformers

    A method ends normally, with a pending JavaScript exception
    ([ThrowAsJavaScriptException] followed by [return]), or by
    dereferencing a null [codecCtx_]. *)

Inductive Outcome (A : Type) :=
  | Ok (a : A)
  | Throw (e : Exception)
  | Segfault.
Arguments Ok {A} a.
Arguments Throw {A} e.
Arguments Segfault {A}.

Definition M (A : Type) : Type := World → Outcome A * World.

#[global] Instance M_ret : MRet M := λ A a w, (Ok a, w).
#[global] Instance M_bind : MBind M := λ A B k m w,
  match m w with
  | (Ok a, w') => k a w'
  | (Throw e, w') => (Throw e, w')
  | (Segfault, w') => (Segfault, w')
  end.

Definition throw {A} (e : Exception) : M A := λ w, (Throw e, w).
Definition segfault {A} : M A := λ w, (Segfault, w).
Definition this : M Encoder := λ w, (Ok (self w), w).
Definition assign (f : Encoder → Encoder) : M unit :=
  λ w, (Ok (), {| self := f (self w); av := av w; calls := calls w |}).
Definition lib {A} (f : Libav.State → A * Libav.State) : M A :=
  λ w, let '(a, s) := f (av w) in (Ok a, {| self := self w; av := s; calls := calls w |}).
Definition lib_ (f : Libav.State → Libav.State) : M unit :=
  lib (λ s, ((), f s)).
Definition call (c : Callback) : M unit :=
  λ w, (Ok (), {| self := self w; av := av w; calls := calls w ++ [c] |}).
Definition when (b : bool) (m : M unit) : M unit := if b then m else mret ().

(** [codecCtx_->...]: the context behind the pointer. *)
Definition ctx_id : M nat :=
  e ← this; match codecCtx_ e with Some id => mret id | None => segfault end.
Definition deref (id : nat) : M Libav.AVCodecContext :=
  λ w, match Libav.contexts (av w) !! id with
       | Some c => (Ok c, w)
       | None => (Segfault, w)
       end.
Definition ctx : M Libav.AVCodecContext := id ← ctx_id; deref id.
Definition on_ctx (f : Libav.AVCodecContext → Libav.AVCodecContext) : M unit :=
  id ← ctx_id; lib_ (Libav.with_contexts (alter f id)).
Definition field (k : string) (v : Libav.Val) : M unit := on_ctx (Libav.set_field k v).
Definition av_opt_set (k v : string) : M unit := on_ctx (Libav.set_opt k (Libav.OStr v)).
Definition av_opt_set_int (k : string) (v : Z) : M unit :=
  on_ctx (Libav.set_opt k (Libav.OInt v)).

(** [s.find(t) != std::string::npos] *)
Fixpoint contains (s t : string) : bool :=
  String.prefix t s ||
  match s with
  | EmptyString => false
  | String _ s' => contains s' t
  end.

(** [static_cast<int>] of a 64-bit integer. *)
Definition to_int32 (z : Z) : Z := (z + 2 ^ 31) `mod` 2 ^ 32 - 2 ^ 31.

(** Conversions of the temporal-layer arithmetic: [int64_t] to [double],
    and [static_cast<int>] of a [double] (truncation; the C++ result is
    undefined outside the range of [int], here it is the truncated value). *)
Definition double_of_int64 (z : Z) : float :=
  if z <? 0 then PrimFloat.opp (PrimFloat.of_uint63 (Uint63.of_Z (- z)))
  else PrimFloat.of_uint63 (Uint63.of_Z z).

Definition int_of_double (f : float) : Z :=
  match Prim2SF f with
  | S754_finite s m e =>
      let v := if 0 <=? e then Z.shiftl (Z.pos m) e else Z.shiftr (Z.pos m) (- e) in
      if s then - v else v
  | _ => 0
  end.

(** The literals [0.6], [0.25], [0.5] and [1000] as [double]s. *)
Definition d0_6 : float := 0x1.3333333333333p-1%float.
Definition d0_25 : float := 0.25%float.
Definition d0_5 : float := 0.5%float.
Definition d1000 : float := 1000%float.

(** Where a quotient with remainder [R] over the divisor [D] lies between
    two consecutive integers, as SpecFloat's [new_location] has it for an
    even [D]: the vocabulary of the rounding facts. *)
Definition location_of (R D : Z) : location :=
  if R =? 0 then loc_Exact else loc_Inexact (2 * R ?= D).

(** [static_cast<int>(bitrate_ * f / 1000)] *)
Definition layer_kbps (bitrate : Z) (f : float) : Z :=
  int_of_double (PrimFloat.div (PrimFloat.mul (double_of_int64 bitrate) f) d1000).

(** [static_cast<int>(bitrate_ / 1000)] *)
Definition top_kbps (bitrate : Z) : Z := to_int32 (bitrate `quot` 1000).

(** The [snprintf] of the libvpx [ts-parameters] string.  For a layer
    count other than 2 or 3 the buffer is left as it was (unset). *)
Definition tsParams (layers bitrate : Z) : string :=
  if layers =? 2 then
    "ts_number_layers=2:ts_target_bitrate=" +:+ pretty (layer_kbps bitrate d0_6)
      +:+ "," +:+ pretty (top_kbps bitrate)
      +:+ ":ts_rate_decimator=2,1:ts_periodicity=2:ts_layer_id=0,1"
  else if layers =? 3 then
    "ts_number_layers=3:ts_target_bitrate=" +:+ pretty (layer_kbps bitrate d0_25)
      +:+ "," +:+ pretty (layer_kbps bitrate d0_5)
      +:+ "," +:+ pretty (top_kbps bitrate)
      +:+ ":ts_rate_decimator=4,2,1:ts_periodicity=4:ts_layer_id=0,2,1,2"
  else "".

Section Methods.

Variable P : Libav.Platform.

Definition configureEncoderOptions (encoderName latencyMode : string) : M unit :=
  let isRealtime := String.eqb latencyMode "realtime" in
  when isRealtime (
    field "thread_count" (Libav.VInt 1);;
    field "thread_type" (Libav.VInt 0);;
    field "delay" (Libav.VInt 0);;
    field "max_b_frames" (Libav.VInt 0);;
    field "refs" (Libav.VInt 1));;
  if String.eqb encoderName "libx264" then
    if isRealtime then
      av_opt_set "preset" "ultrafast";;
      av_opt_set "tune" "zerolatency";;
      av_opt_set "rc-lookahead" "0";;
      av_opt_set "sync-lookahead" "0";;
      av_opt_set "intra-refresh" "1"
    else av_opt_set "preset" "medium"
  else if String.eqb encoderName "h264_videotoolbox"
          || String.eqb encoderName "hevc_videotoolbox" then
    av_opt_set "realtime" (if isRealtime then "1" else "0");;
    av_opt_set "allow_sw" "1"
  else if String.eqb encoderName "h264_nvenc" || String.eqb encoderName "hevc_nvenc" then
    (if isRealtime then
       av_opt_set "preset" "p1";;
       av_opt_set "tune" "ll";;
       av_opt_set "zerolatency" "1";;
       av_opt_set "rc-lookahead" "0"
     else av_opt_set "preset" "p4");;
    av_opt_set "rc" "cbr"
  else if String.eqb encoderName "h264_qsv" || String.eqb encoderName "hevc_qsv" then
    when isRealtime (
      av_opt_set "preset" "veryfast";;
      av_opt_set "low_delay_brc" "1";;
      av_opt_set "look_ahead" "0")
  else if String.eqb encoderName "libvpx" || String.eqb encoderName "libvpx-vp9" then
    c ← ctx;
    let bit_rate := default 0 (Libav.get_int "bit_rate" c) in
    when (bit_rate >? 0) (
      av_opt_set_int "crf" 10;;
      av_opt_set_int "b" bit_rate);;
    if isRealtime then
      av_opt_set_int "cpu-used" 8;;
      av_opt_set_int "lag-in-frames" 0;;
      av_opt_set "deadline" "realtime"
    else av_opt_set_int "cpu-used" 4
  else if String.eqb encoderName "libx265" then
    av_opt_set "preset" (if isRealtime then "ultrafast" else "medium");;
    when isRealtime (av_opt_set "tune" "zerolatency")
  else if String.eqb encoderName "libaom-av1" || String.eqb encoderName "libsvtav1" then
    if isRealtime then
      av_opt_set_int "cpu-used" 10;;
      av_opt_set_int "lag-in-frames" 0;;
      av_opt_set "usage" "realtime"
    else av_opt_set_int "cpu-used" 6
  else mret ().

(** [ColorSpace::parsePrimaries], [parseTransfer], [parseMatrix] ([color.cpp]) *)
Definition parsePrimaries (primaries : string) : Libav.AVColorPrimaries :=
  if String.eqb primaries "bt709" then Libav.AVCOL_PRI_BT709
  else if String.eqb primaries "bt470bg" then Libav.AVCOL_PRI_BT470BG
  else if String.eqb primaries "smpte170m" then Libav.AVCOL_PRI_SMPTE170M
  else if String.eqb primaries "bt2020" then Libav.AVCOL_PRI_BT2020
  else if String.eqb primaries "smpte432" then Libav.AVCOL_PRI_SMPTE432
  else if String.eqb primaries "smpte-rp-431" then Libav.AVCOL_PRI_SMPTE431
  else Libav.AVCOL_PRI_UNSPECIFIED.

Definition parseTransfer (transfer : string) : Libav.AVColorTransferCharacteristic :=
  if String.eqb transfer "bt709" then Libav.AVCOL_TRC_BT709
  else if String.eqb transfer "smpte170m" then Libav.AVCOL_TRC_SMPTE170M
  else if String.eqb transfer "iec61966-2-1" then Libav.AVCOL_TRC_IEC61966_2_1
  else if String.eqb transfer "linear" then Libav.AVCOL_TRC_LINEAR
  else if String.eqb transfer "pq" then Libav.AVCOL_TRC_SMPTE2084
  else if String.eqb transfer "hlg" then Libav.AVCOL_TRC_ARIB_STD_B67
  else if String.eqb transfer "smpte2084" then Libav.AVCOL_TRC_SMPTE2084
  else if String.eqb transfer "arib-std-b67" then Libav.AVCOL_TRC_ARIB_STD_B67
  else if String.eqb transfer "gamma22" then Libav.AVCOL_TRC_GAMMA22
  else if String.eqb transfer "gamma28" then Libav.AVCOL_TRC_GAMMA28
  else Libav.AVCOL_TRC_UNSPECIFIED.

Definition parseMatrix (matrix : string) : Libav.AVColorSpace :=
  if String.eqb matrix "rgb" then Libav.AVCOL_SPC_RGB
  else if String.eqb matrix "bt709" then Libav.AVCOL_SPC_BT709
  else if String.eqb matrix "bt470bg" then Libav.AVCOL_SPC_BT470BG
  else if String.eqb matrix "smpte170m" then Libav.AVCOL_SPC_SMPTE170M
  else if String.eqb matrix "bt2020-ncl" then Libav.AVCOL_SPC_BT2020_NCL
  else if String.eqb matrix "bt2020-cl" then Libav.AVCOL_SPC_BT2020_CL
  else if String.eqb matrix "smpte240m" then Libav.AVCOL_SPC_SMPTE240M
  else if String.eqb matrix "ycgco" then Libav.AVCOL_SPC_YCGCO
  else Libav.AVCOL_SPC_UNSPECIFIED.

Definition member {A} (f : Encoder → A) : M A := e ← this; mret (f e).

(** [codec_->name] *)
Definition codec_name : M string :=
  c ← member codec_;
  match c with Some c => mret (Libav.name c) | None => segfault end.

(** [if (p) { av_buffer_unref(&p); p = nullptr; }] for the two buffer members. *)
Definition release_hwDeviceCtx : M unit :=
  r ← member hwDeviceCtx_;
  match r with
  | Some id => lib_ (Libav.av_buffer_unref id);; assign (set_hwDeviceCtx_ None)
  | None => mret ()
  end.

Definition release_hwFramesCtx : M unit :=
  r ← member hwFramesCtx_;
  match r with
  | Some id => lib_ (Libav.av_buffer_unref id);; assign (set_hwFramesCtx_ None)
  | None => mret ()
  end.

(** [avcodec_free_context(&codecCtx_)]: frees, and nulls the pointer. *)
Definition free_codecCtx : M unit :=
  r ← member codecCtx_;
  match r with
  | Some id => lib_ (Libav.avcodec_free_context id);; assign (set_codecCtx_ None)
  | None => mret ()
  end.

(** [codecCtx_ = avcodec_alloc_context3(codec_)] *)
Definition alloc_codecCtx : M unit :=
  c ← member codec_;
  match c with
  | Some c =>
      id ← lib (Libav.avcodec_alloc_context3 c);
      assign (set_codecCtx_ (Some id))
  | None => segfault
  end.

(** [avcodec_open2(codecCtx_, codec_, nullptr)] *)
Definition open_codecCtx : M Z :=
  id ← ctx_id; lib (Libav.avcodec_open2 P id).

(** The temporal-layer part of [Configure], once the mode is accepted. *)
Definition configure_temporal_layers (encoderName : string)
    (svcConfig : Svc.ScalabilityConfig) : M unit :=
  when (Svc.temporalLayers svcConfig >? 1) (
    assign (set_temporalLayers_ (Svc.temporalLayers svcConfig));;
    if contains encoderName "libvpx" then
      av_opt_set "lag-in-frames" "0";;
      av_opt_set "error-resilient" "1";;
      av_opt_set_int "auto-alt-ref" 0;;
      bitrate ← member bitrate_;
      av_opt_set "ts-parameters" (tsParams (Svc.temporalLayers svcConfig) bitrate)
    else if contains encoderName "libaom" || contains encoderName "av1" then
      av_opt_set "lag-in-frames" "0";;
      av_opt_set "usage" "realtime"
    else if contains encoderName "libsvtav1" then
      av_opt_set "hierarchical-levels" (pretty (Svc.temporalLayers svcConfig - 1))
    else mret ()).

(** The software retry of [Configure], after the first open failed with
    message [errBuf]. *)
Definition software_fallback (config : Config) (codecName : string) (fps : Z)
    (latencyMode errBuf : string) : M unit :=
  release_hwDeviceCtx;;
  release_hwFramesCtx;;
  w ← member width_;
  h ← member height_;
  let swInfo := Libav.selectEncoder P codecName Libav.PreferSoftware w h in
  match Libav.info_codec swInfo with
  | Some c =>
      assign (set_codec_ (Some c));;
      assign (set_hwType_ Libav.HW_None);;
      assign (set_hwInputFormat_ (Libav.inputFormat swInfo));;
      alloc_codecCtx;;
      field "width" (Libav.VInt w);;
      field "height" (Libav.VInt h);;
      field "time_base" (Libav.VRational 1 1000000);;
      field "bit_rate" (Libav.VInt (default 2000000 (bitrate config)));;
      field "gop_size" (Libav.VInt fps);;
      field "framerate" (Libav.VRational fps 1);;
      field "max_b_frames" (Libav.VInt 0);;
      field "pix_fmt" (Libav.VPixFmt Libav.AV_PIX_FMT_YUV420P);;
      n ← codec_name;
      configureEncoderOptions n latencyMode;;
      ret ← open_codecCtx;
      if ret <? 0 then
        free_codecCtx;;
        throw (Error ("Failed to open codec: " +:+ Libav.strerror P ret))
      else mret ()
  | None => throw (Error ("Failed to open codec: " +:+ errBuf))
  end.

(** The locals [hwPref], [fps] and [latencyMode] of [Configure]. *)
Definition hwPref_of (config : Config) : Libav.Preference :=
  match hardwareAcceleration config with
  | Some pref => Libav.parsePreference P pref
  | None => Libav.NoPreference
  end.
Definition fps_of (config : Config) : Z := default 30 (framerate config).
Definition latencyMode_of (config : Config) : string :=
  default "quality" (latencyMode config).

(** The end of [Configure], from "Open codec" on: the open, the software
    retry when it fails, and [configured_ = true]. *)
Definition open_or_fall_back (config : Config) : M unit :=
  ret ← open_codecCtx;
  (if ret <? 0 then
     let errBuf := Libav.strerror P ret in
     free_codecCtx;;
     hwType ← member hwType_;
     if bool_decide (hwType ≠ Libav.HW_None)
        && bool_decide (hwPref_of config ≠ Libav.PreferHardware) then
       software_fallback config (codec config) (fps_of config)
         (latencyMode_of config) errBuf
     else throw (Error ("Failed to open codec: " +:+ errBuf))
   else mret ());;
  assign (set_configured_ true).

(** The body of [Configure] down to "Open codec": the encoder is selected,
    the context allocated and filled in.  (The null check after
    [avcodec_alloc_context3] has no counterpart: allocation does not fail
    here.) *)
Definition set_up (config : Config) : M unit :=
  let codecName := codec config in
  assign (set_width_ (width config));;
  assign (set_height_ (height config));;
  let hwPref := hwPref_of config in
  w ← member width_;
  h ← member height_;
  let encInfo := Libav.selectEncoder P codecName hwPref w h in
  match Libav.info_codec encInfo with
  | None =>
      assign (set_codec_ (Libav.find_encoder_by_name P codecName));;
      c ← member codec_;
      match c with
      | None => throw (Error ("No suitable encoder found for: " +:+ codecName))
      | Some _ =>
          assign (set_hwType_ Libav.HW_None);;
          assign (set_hwInputFormat_ Libav.AV_PIX_FMT_YUV420P)
      end
  | Some c =>
      assign (set_codec_ (Some c));;
      assign (set_hwType_ (Libav.hwType encInfo));;
      assign (set_hwInputFormat_ (Libav.inputFormat encInfo))
  end;;
  alloc_codecCtx;;
  field "width" (Libav.VInt w);;
  field "height" (Libav.VInt h);;
  field "time_base" (Libav.VRational 1 1000000);;
  n ← codec_name;
  assign (set_codecName_ n);;
  assign (set_bitrate_ (default 2000000 (bitrate config)));;
  assign (set_bitrateMode_ (default "variable" (bitrateMode config)));;
  bitrateMode ← member bitrateMode_;
  bitrate ← member bitrate_;
  codecName_ ← member codecName_;
  (if String.eqb bitrateMode "constant" then
     field "bit_rate" (Libav.VInt bitrate);;
     field "rc_min_rate" (Libav.VInt bitrate);;
     field "rc_max_rate" (Libav.VInt bitrate);;
     field "rc_buffer_size" (Libav.VInt (to_int32 bitrate));;
     if contains codecName_ "libx264" then av_opt_set "nal-hrd" "cbr"
     else if contains codecName_ "libvpx" then
       av_opt_set_int "minrate" bitrate;;
       av_opt_set_int "maxrate" bitrate
     else mret ()
   else if String.eqb bitrateMode "quantizer" then
     field "bit_rate" (Libav.VInt 0);;
     field "rc_max_rate" (Libav.VInt 0);;
     if contains codecName_ "libx264" || contains codecName_ "libx265" then
       av_opt_set_int "crf" 23
     else if contains codecName_ "libvpx" then
       av_opt_set_int "crf" 30;;
       field "qmin" (Libav.VInt 0);;
       field "qmax" (Libav.VInt 63)
     else if contains codecName_ "av1" then av_opt_set_int "crf" 30
     else mret ()
   else field "bit_rate" (Libav.VInt bitrate));;
  let fps := fps_of config in
  field "gop_size" (Libav.VInt fps);;
  field "framerate" (Libav.VRational fps 1);;
  field "max_b_frames" (Libav.VInt 0);;
  match alpha config with
  | Some alphaMode => assign (set_alpha_ (String.eqb alphaMode "keep"))
  | None => mret ()
  end;;
  hwType ← member hwType_;
  hwInputFormat ← member hwInputFormat_;
  alpha ← member alpha_;
  (if bool_decide (hwType ≠ Libav.HW_None)
      && bool_decide (hwInputFormat ≠ Libav.AV_PIX_FMT_NONE) then
     field "pix_fmt" (Libav.VPixFmt hwInputFormat)
   else if alpha && contains codecName_ "libvpx" then
     field "pix_fmt" (Libav.VPixFmt Libav.AV_PIX_FMT_YUVA420P)
   else field "pix_fmt" (Libav.VPixFmt Libav.AV_PIX_FMT_YUV420P));;
  match colorSpace config with
  | Some cs =>
      match primaries cs with
      | Some x => field "color_primaries" (Libav.VPrimaries (parsePrimaries x))
      | None => mret ()
      end;;
      match transfer cs with
      | Some x => field "color_trc" (Libav.VTransfer (parseTransfer x))
      | None => mret ()
      end;;
      match matrix cs with
      | Some x => field "colorspace" (Libav.VMatrix (parseMatrix x))
      | None => mret ()
      end;;
      match fullRange cs with
      | Some b => field "color_range" (Libav.VRange
                    (if b then Libav.AVCOL_RANGE_JPEG else Libav.AVCOL_RANGE_MPEG))
      | None => mret ()
      end
  | None => mret ()
  end;;
  when (bool_decide (hwType ≠ Libav.HW_None)) (
    dev ← lib (Libav.createHWDeviceContext P hwType);
    assign (set_hwDeviceCtx_ dev);;
    match dev with
    | Some d =>
        lib_ (Libav.av_buffer_ref d);;
        on_ctx (Libav.set_hw_device_ctx (Some d));;
        when (Libav.requiresHWFrames encInfo) (
          fr ← lib (Libav.av_hwframe_ctx_alloc P d);
          assign (set_hwFramesCtx_ fr);;
          match fr with
          | Some f =>
              when (0 <=? Libav.hwframe_ctx_init_ret P hwInputFormat w h) (
                lib_ (Libav.av_buffer_ref f);;
                on_ctx (Libav.set_hw_frames_ctx (Some f)))
          | None => mret ()
          end)
    | None => mret ()
    end);;
  encoderName ← codec_name;
  match profile config with
  | Some profile =>
      when (String.eqb encoderName "libx264") (
        if profile =? 66 then av_opt_set "profile" "baseline"
        else if profile =? 77 then av_opt_set "profile" "main"
        else if profile =? 100 then av_opt_set "profile" "high"
        else av_opt_set "profile" "main")
  | None => mret ()
  end;;
  match avcFormat config with
  | Some format => assign (set_avcAnnexB_ (String.eqb format "annexb"))
  | None => mret ()
  end;;
  let latencyMode := latencyMode_of config in
  configureEncoderOptions encoderName latencyMode;;
  match scalabilityMode config with
  | Some svcMode =>
      if negb (Svc.isScalabilityModeSupported svcMode) then
        throw (Error ("Unsupported scalabilityMode: " +:+ svcMode +:+
                      ". Only L1T1, L1T2, L1T3 are currently supported."))
      else
        configure_temporal_layers encoderName (Svc.parseScalabilityMode svcMode);;
        assign (set_scalabilityMode_ svcMode)
  | None => mret ()
  end;;
  when (alpha && contains codecName_ "libvpx") (av_opt_set_int "auto-alt-ref" 0).

(** [VideoEncoderNative::Configure].  The argument is [None] when [info[0]]
    is not an object. *)
Definition Configure (arg : option Config) : M unit :=
  match arg with
  | None => throw (TypeError "Config must be an object")
  | Some config => set_up config;; open_or_fall_back config
  end.

(** [VideoEncoderNative::EmitChunk] and [EmitError] *)
Definition EmitChunk (packet : Libav.AVPacket) (isKeyframe : bool) : M unit :=
  c ← ctx;
  let extradataValue :=
    if isKeyframe && negb (bool_decide (Libav.extradata c = []))
    then Some (Libav.extradata c) else None in
  alpha ← member alpha_;
  let alphaSideDataValue :=
    if alpha && negb (bool_decide (Libav.blockadditional packet = []))
    then Some (Libav.blockadditional packet) else None in
  call (OnOutput (Libav.data packet) isKeyframe (Libav.pts packet)
          (Libav.duration packet) extradataValue alphaSideDataValue).

Definition EmitError (message : string) : M unit := call (OnError message).

(** The receive loop of [Encode]:
    [while (ret >= 0) { ret = avcodec_receive_packet(...); ... }].
    Every round that goes on has taken a packet out of the encoder's
    output, so [n], the number of outputs waiting at the start, bounds the
    rounds that emit. *)
Fixpoint receive_packets (n : nat) : M unit :=
  id ← ctx_id;
  r ← lib (λ s, let '(ret, pkt, s') := Libav.avcodec_receive_packet id s in
                ((ret, pkt), s'));
  let '(ret, pkt) := r in
  if (ret =? Libav.AVERROR_EAGAIN) || (ret =? Libav.AVERROR_EOF) then mret ()
  else if ret <? 0 then EmitError ("Encode error: " +:+ Libav.strerror P ret)
  else match pkt, n with
       | Some packet, S n' =>
           EmitChunk packet (Libav.key_flag packet);; receive_packets n'
       | _, _ => mret ()
       end.

(** The loop of [Flush]:
    [while ((ret = avcodec_receive_packet(...)) >= 0) { EmitChunk(...); }] *)
Fixpoint flush_packets (n : nat) : M unit :=
  id ← ctx_id;
  r ← lib (λ s, let '(ret, pkt, s') := Libav.avcodec_receive_packet id s in
                ((ret, pkt), s'));
  let '(ret, pkt) := r in
  if ret <? 0 then mret ()
  else match pkt, n with
       | Some packet, S n' =>
           EmitChunk packet (Libav.key_flag packet);; flush_packets n'
       | _, _ => mret ()
       end.

(** The outputs waiting in the encoder. *)
Definition waiting : M nat := c ← ctx; mret (length (Libav.ready c)).

(** [VideoEncoderNative::Encode].  [srcFrame] is what
    [frameWrapper->GetFrame()] returns, [None] for null. *)
Definition Encode (srcFrame : option Libav.AVFrame) (timestamp : Z)
    (forceKeyframe : bool) : M unit :=
  configured ← member configured_;
  if negb configured then throw (Error "Encoder not configured")
  else match srcFrame with
  | None => throw (Error "Invalid frame")
  | Some src =>
  c ← ctx;
  let targetFormat := Libav.pix_fmt c in
  let targetFormat :=
    if bool_decide (targetFormat = Libav.AV_PIX_FMT_VAAPI)
       || bool_decide (targetFormat = Libav.AV_PIX_FMT_NONE)
    then Libav.AV_PIX_FMT_YUV420P else targetFormat in
  let inputHasAlpha :=
    bool_decide (Libav.format src = Libav.AV_PIX_FMT_RGBA)
    || bool_decide (Libav.format src = Libav.AV_PIX_FMT_BGRA)
    || bool_decide (Libav.format src = Libav.AV_PIX_FMT_YUVA420P) in
  alpha ← member alpha_;
  let targetFormat :=
    if alpha && inputHasAlpha && bool_decide (targetFormat = Libav.AV_PIX_FMT_YUV420P)
    then Libav.AV_PIX_FMT_YUVA420P else targetFormat in
  w ← member width_;
  h ← member height_;
  let ret := Libav.frame_get_buffer_ret P targetFormat w h in
  if ret <? 0 then
    throw (Error ("Failed to allocate frame: " +:+ Libav.strerror P ret))
  else
  px ← (if bool_decide (Libav.format src ≠ targetFormat)
           || bool_decide (Libav.width src ≠ w)
           || bool_decide (Libav.height src ≠ h) then
          sws ← member swsCtx_;
          sc ← match sws with
               | Some sc => mret sc
               | None =>
                   let sc := {| Libav.srcW := Libav.width src;
                                Libav.srcH := Libav.height src;
                                Libav.srcFormat := Libav.format src;
                                Libav.dstW := w; Libav.dstH := h;
                                Libav.dstFormat := targetFormat |} in
                   if Libav.sws_getContext_ok P sc
                   then assign (set_swsCtx_ (Some sc));; mret sc
                   else throw (Error "Failed to create scaler context")
               end;
          mret (Libav.sws_scale P sc (Libav.pixels src))
        else mret (Libav.pixels src));
  let frame := {| Libav.format := targetFormat; Libav.width := w; Libav.height := h;
                  Libav.frame_pts := timestamp; Libav.pict_type_I := forceKeyframe;
                  Libav.pixels := px |} in
  id ← ctx_id;
  ret ← lib (Libav.avcodec_send_frame P id (Some frame));
  if ret <? 0 then EmitError ("Encode error: " +:+ Libav.strerror P ret)
  else n ← waiting; receive_packets n
  end.

(** [VideoEncoderNative::Flush]; the argument, a function, is called back
    with null at the end. *)
Definition Flush : M unit :=
  configured ← member configured_;
  cc ← member codecCtx_;
  match cc with
  | Some id =>
      when configured (
        lib (Libav.avcodec_send_frame P id None);;
        n ← waiting; flush_packets n)
  | None => mret ()
  end;;
  call OnFlush.

(** [VideoEncoderNative::Reset] *)
Definition Reset : M unit :=
  cc ← member codecCtx_;
  match cc with
  | Some id => lib_ (Libav.avcodec_flush_buffers P id)
  | None => mret ()
  end.

(** [VideoEncoderNative::Close] *)
Definition Close : M unit :=
  assign (set_swsCtx_ None);;
  release_hwFramesCtx;;
  release_hwDeviceCtx;;
  free_codecCtx;;
  assign (set_configured_ false).

End Methods.

(** *** Vocabulary of the statements about [Configure] *)

(** The world with context [id] replaced by [c]. *)
Definition upd (w : World) (id : nat) (c : Libav.AVCodecContext) : World :=
  {| self := self w; av := Libav.with_contexts <[id := c]> (av w); calls := calls w |}.

(** [c'] is for the same codec as [c] and holds the same buffer references. *)
Definition same_holdings (c c' : Libav.AVCodecContext) : Prop :=
  Libav.codec c' = Libav.codec c
  ∧ Libav.hw_device_ctx c' = Libav.hw_device_ctx c
  ∧ Libav.hw_frames_ctx c' = Libav.hw_frames_ctx c.

(** A computation that only writes into the session's codec context, and
    there neither the codec nor the buffer references. *)
Definition ctx_only (m : M unit) : Prop :=
  ∀ w id c, codecCtx_ (self w) = Some id → Libav.contexts (av w) !! id = Some c →
    ∃ c', same_holdings c c' ∧ m w = (Ok (), upd w id c').

(** The library after [av_buffer_unref] on every reference the session
    holds at "Open codec": the two of the codec context [c], as
    [avcodec_free_context] drops them, then [hwDeviceCtx_] and
    [hwFramesCtx_]. *)
Definition released (w : World) (c : Libav.AVCodecContext) : Libav.State :=
  Libav.unref_opt (hwFramesCtx_ (self w))
    (Libav.unref_opt (hwDeviceCtx_ (self w))
       (Libav.unref_opt (Libav.hw_frames_ctx c)
          (Libav.unref_opt (Libav.hw_device_ctx c) (av w)))).

(** The buffers [hwDeviceCtx_] and [hwFramesCtx_] point to. *)
Definition accelerator_buffers (w : World) : list nat :=
  option_list (hwDeviceCtx_ (self w)) ++ option_list (hwFramesCtx_ (self w)).

(** The references on the accelerator buffers as [Configure] takes them
    before "Open codec".  Without a device buffer there is no reference at
    all.  The device buffer is referenced by [hwDeviceCtx_], by the codec
    context [c] (the [av_buffer_ref] stored in [hw_device_ctx]) and by the
    frames buffer if one was allocated; the frames buffer by
    [hwFramesCtx_] and, when [av_hwframe_ctx_init] succeeded, by the codec
    context ([hw_frames_ctx]). *)
Definition accelerator_refs (w : World) (c : Libav.AVCodecContext) : Prop :=
  match hwDeviceCtx_ (self w) with
  | None =>
      hwFramesCtx_ (self w) = None
      ∧ Libav.hw_device_ctx c = None ∧ Libav.hw_frames_ctx c = None
  | Some d =>
      Libav.hw_device_ctx c = Some d
      ∧ match hwFramesCtx_ (self w) with
        | None =>
            Libav.hw_frames_ctx c = None
            ∧ Libav.buffers (av w) !! d
              = Some {| Libav.refcount := 2; Libav.device := None |}
        | Some f =>
            d ≠ f
            ∧ Libav.buffers (av w) !! d
              = Some {| Libav.refcount := 3; Libav.device := None |}
            ∧ ((Libav.hw_frames_ctx c = Some f
                ∧ Libav.buffers (av w) !! f
                  = Some {| Libav.refcount := 2; Libav.device := Some d |})
               ∨ (Libav.hw_frames_ctx c = None
                  ∧ Libav.buffers (av w) !! f
                    = Some {| Libav.refcount := 1; Libav.device := Some d |}))
        end
  end.

(** A computation that, when it returns, has led from [Pre] to [Post]. *)
Definition leads {A} (Pre : World → Prop) (m : M A) (Post : World → Prop) : Prop :=
  ∀ w a w', Pre w → m w = (Ok a, w') → Post w'.

(** Ids not yet given out name no buffer. *)
Definition fresh_ids (s : Libav.State) : Prop :=
  ∀ k, (Libav.next_id s ≤ k)%nat → Libav.buffers s !! k = None.

(** Three moments of [Configure] on a session that holds no accelerator
    buffer, with the buffers [B] there are: before the codec context is
    allocated; with the context, which holds no reference yet; and at
    "Open codec", with the references taken on the buffers made since. *)
Definition no_buffers (B : gmap nat Libav.AVBuffer) (w : World) : Prop :=
  hwDeviceCtx_ (self w) = None ∧ hwFramesCtx_ (self w) = None
  ∧ fresh_ids (av w) ∧ Libav.buffers (av w) = B.

Definition bare_context (B : gmap nat Libav.AVBuffer) (w : World) : Prop :=
  no_buffers B w
  ∧ ∃ id c, codecCtx_ (self w) = Some id ∧ Libav.contexts (av w) !! id = Some c
      ∧ Libav.hw_device_ctx c = None ∧ Libav.hw_frames_ctx c = None.

Definition references_taken (B : gmap nat Libav.AVBuffer) (w : World) : Prop :=
  (∃ id c, codecCtx_ (self w) = Some id ∧ Libav.contexts (av w) !! id = Some c
     ∧ accelerator_refs w c)
  ∧ ∀ b, if decide (b ∈ accelerator_buffers w) then B !! b = None
         else Libav.buffers (av w) !! b = B !! b.

(** The members these conditions look at, and the steps they stand:
    writes to other members, and to the codec context but for its buffer
    references. *)
Definition same_pointers (e e' : Encoder) : Prop :=
  codecCtx_ e' = codecCtx_ e ∧ hwDeviceCtx_ e' = hwDeviceCtx_ e
  ∧ hwFramesCtx_ e' = hwFramesCtx_ e.

Definition steady (I : World → Prop) : Prop :=
  (∀ w e, I w → same_pointers (self w) e →
     I {| self := e; av := av w; calls := calls w |})
  ∧ (∀ w id c c', I w → codecCtx_ (self w) = Some id →
       Libav.contexts (av w) !! id = Some c → same_holdings c c' → I (upd w id c')).

End Native.

(** ** The TypeScript classes ([VideoEncoder.ts], [AudioDecoder.ts]) *)

Module Wrapper.

Import Native.

Inductive CodecState := unconfigured | configured | closed.

#[global] Instance CodecState_eq_dec : EqDecision CodecState.
Proof. solve_decision. Defined.

(** [VideoEncoderConfig].  Numbers are integral; [avc] is [Some None] for an
    [avc] object without [format]. *)
Record VideoEncoderConfig := {
  codec : string;
  width : Z;
  height : Z;
  bitrate : option Z;
  framerate : option Z;
  hardwareAcceleration : option string;
  alpha : option string;
  scalabilityMode : option string;
  bitrateMode : option string;
  latencyMode : option string;
  colorSpace : option ColorSpaceInit;
  avc : option (option string);
  useWorkerThread : option bool
}.

(** A [VideoFrame] as [encode] uses it: closed or not, the native handle
    (and the [AVFrame] behind it, null once released), the timestamp. *)
Record VideoFrame := {
  vf_closed : bool;
  vf_native : option (option Libav.AVFrame);
  vf_timestamp : Z
}.

Record EncodedVideoChunk := {
  type_key : bool;                   (* type: 'key' or 'delta' *)
  timestamp : Z;
  duration : option Z;
  data : list Byte.byte
}.

Record DecoderConfig := {
  dc_codec : string;
  codedWidth : Z;
  codedHeight : Z;
  description : option (list Byte.byte)
}.

(** What the application observes: its callbacks, the 'dequeue' events and
    the settling of the promises of [flush]. *)
Inductive Event :=
  | Dequeue
  | Output (chunk : EncodedVideoChunk) (metadata : option DecoderConfig)
  | ErrorCallback (e : Exception)
  | FlushResolved
  | FlushRejected (e : Exception).

(** The asynchronous addon class [VideoEncoderAsync]: only its header is in
    the source tree, so its methods are left open. *)
Record AsyncClass := {
  async_state : Type;
  async_new : async_state;
  async_configure : Config → async_state → Outcome unit * async_state;
  async_encode : option Libav.AVFrame → Z → bool → async_state → Outcome unit * async_state;
  async_flush : async_state → Outcome unit * async_state;
  async_reset : async_state → Outcome unit * async_state;
  async_close : async_state → Outcome unit * async_state
}.

(** The addon as [native.ts] exports it: loaded (with or without the
    asynchronous class), or a proxy that throws on every access. *)
Inductive Addon := Loaded (hasAsync : bool) | LoadFailed (message : string).

Record Env := {
  platform : Libav.Platform;
  addon : Addon;
  async : AsyncClass;
  (* codec-registry.ts *)
  isVideoCodecSupported : string → bool;
  getFFmpegVideoCodec : string → string;
  parseAvcCodecString : string → option (Z * Z)
}.

(** JavaScript truthiness of an optional number and of an optional string. *)
Definition truthy_number (x : option Z) : option Z :=
  match x with Some z => if z =? 0 then None else Some z | None => None end.
Definition truthy_string (x : option string) : option string :=
  match x with Some EmptyString => None | _ => x end.

(** [Int32Value] and [Int64Value] of an integral number: the first wraps
    around, the second stops at the ends of [int64_t]. *)
Definition Int32Value (z : Z) : Z := to_int32 z.
Definition Int64Value (z : Z) : Z :=
  if z <? - 2 ^ 63 then - 2 ^ 63
  else if 2 ^ 63 <=? z then 2 ^ 63 - 1
  else z.

Section VideoEncoder.

Variable E : Env.

Inductive NativeObject :=
  | SyncObject (w : World)
  | AsyncObject (a : async_state (async E)).

Record VideoEncoder := {
  _native : option NativeObject;
  _state : CodecState;
  _encodeQueueSize : Z;
  _config : option VideoEncoderConfig;
  _sentDecoderConfig : bool;
  _useAsync : bool;
  _nativeCreated : bool;
  seen : list Event                  (* what the application has observed *)
}.

Definition set_native (x : option NativeObject) (v : VideoEncoder) : VideoEncoder :=
  {| _native := x; _state := _state v; _encodeQueueSize := _encodeQueueSize v;
     _config := _config v; _sentDecoderConfig := _sentDecoderConfig v;
     _useAsync := _useAsync v; _nativeCreated := _nativeCreated v; seen := seen v |}.
Definition set_state (x : CodecState) (v : VideoEncoder) : VideoEncoder :=
  {| _native := _native v; _state := x; _encodeQueueSize := _encodeQueueSize v;
     _config := _config v; _sentDecoderConfig := _sentDecoderConfig v;
     _useAsync := _useAsync v; _nativeCreated := _nativeCreated v; seen := seen v |}.
Definition set_encodeQueueSize (x : Z) (v : VideoEncoder) : VideoEncoder :=
  {| _native := _native v; _state := _state v; _encodeQueueSize := x;
     _config := _config v; _sentDecoderConfig := _sentDecoderConfig v;
     _useAsync := _useAsync v; _nativeCreated := _nativeCreated v; seen := seen v |}.
Definition set_config (x : option VideoEncoderConfig) (v : VideoEncoder) : VideoEncoder :=
  {| _native := _native v; _state := _state v;
     _encodeQueueSize := _encodeQueueSize v; _config := x;
     _sentDecoderConfig := _sentDecoderConfig v; _useAsync := _useAsync v;
     _nativeCreated := _nativeCreated v; seen := seen v |}.
Definition set_sentDecoderConfig (x : bool) (v : VideoEncoder) : VideoEncoder :=
  {| _native := _native v; _state := _state v;
     _encodeQueueSize := _encodeQueueSize v; _config := _config v;
     _sentDecoderConfig := x; _useAsync := _useAsync v;
     _nativeCreated := _nativeCreated v; seen := seen v |}.
Definition set_useAsync (x : bool) (v : VideoEncoder) : VideoEncoder :=
  {| _native := _native v; _state := _state v;
     _encodeQueueSize := _encodeQueueSize v; _config := _config v;
     _sentDecoderConfig := _sentDecoderConfig v; _useAsync := x;
     _nativeCreated := _nativeCreated v; seen := seen v |}.
Definition set_nativeCreated (x : bool) (v : VideoEncoder) : VideoEncoder :=
  {| _native := _native v; _state := _state v;
     _encodeQueueSize := _encodeQueueSize v; _config := _config v;
     _sentDecoderConfig := _sentDecoderConfig v; _useAsync := _useAsync v;
     _nativeCreated := x; seen := seen v |}.
Definition set_seen (x : list Event) (v : VideoEncoder) : VideoEncoder :=
  {| _native := _native v; _state := _state v;
     _encodeQueueSize := _encodeQueueSize v; _config := _config v;
     _sentDecoderConfig := _sentDecoderConfig v; _useAsync := _useAsync v;
     _nativeCreated := _nativeCreated v; seen := x |}.

(** The constructor. *)
Definition new_VideoEncoder : VideoEncoder :=
  {| _native := None; _state := unconfigured; _encodeQueueSize := 0;
     _config := None; _sentDecoderConfig := false; _useAsync := true;
     _nativeCreated := false; seen := [] |}.

Definition notify (e : Event) (v : VideoEncoder) : VideoEncoder :=
  set_seen (seen v ++ [e]) v.

(** [_onChunk] *)
Definition _onChunk (data : list Byte.byte) (isKeyframe : bool)
    (timestamp duration : Z) (extradata : option (list Byte.byte))
    (v : VideoEncoder) : VideoEncoder :=
  let v := set_encodeQueueSize (Z.max 0 (_encodeQueueSize v - 1)) v in
  let v := notify Dequeue v in
  let chunk := {| type_key := isKeyframe; timestamp := timestamp;
                  duration := if duration >? 0 then Some duration else None;
                  data := data |} in
  match _config v with
  | Some config =>
      if isKeyframe && negb (_sentDecoderConfig v) then
        let metadata := {| dc_codec := codec config; codedWidth := width config;
                           codedHeight := height config; description := extradata |} in
        notify (Output chunk (Some metadata)) (set_sentDecoderConfig true v)
      else notify (Output chunk None) v
  | None => notify (Output chunk None) v
  end.

(** [_onError] *)
Definition _onError (message : string) (v : VideoEncoder) : VideoEncoder :=
  notify (ErrorCallback (DOMException message "EncodingError")) v.

(** A call the addon makes back into the class; the function given to
    [flush] resolves the promise. *)
Definition deliver (v : VideoEncoder) (c : Callback) : VideoEncoder :=
  match c with
  | OnOutput buffer isKeyframe pts duration extradata _ =>
      _onChunk buffer isKeyframe pts duration extradata v
  | OnError message => _onError message v
  | OnFlush => notify FlushResolved v
  end.

(** [this._native.method(...)]: the method runs on the addon object; the
    calls it makes back meanwhile reach the class in order. *)
Definition on_native (sync : M unit)
    (asynchronous : async_state (async E) → Outcome unit * async_state (async E))
    (v : VideoEncoder) : Outcome unit * VideoEncoder :=
  match _native v with
  | Some (SyncObject w) =>
      let '(r, w') := sync w in
      (r, foldl deliver (set_native (Some (SyncObject w')) v)
            (drop (length (calls w)) (calls w')))
  | Some (AsyncObject a) =>
      let '(r, a') := asynchronous a in
      (r, set_native (Some (AsyncObject a')) v)
  | None => (Throw (TypeError "Cannot read properties of undefined"), v)
  end.

(** [codecParams], as [Configure] reads it. *)
Definition codecParams (config : VideoEncoderConfig) : Config :=
  let is_avc := String.prefix "avc1." (codec config) in
  {| Native.codec := getFFmpegVideoCodec E (codec config);
     Native.width := Int32Value (width config);
     Native.height := Int32Value (height config);
     Native.hardwareAcceleration := truthy_string (hardwareAcceleration config);
     Native.bitrate := Int64Value <$> truthy_number (bitrate config);
     Native.bitrateMode := truthy_string (bitrateMode config);
     Native.framerate := Int32Value <$> truthy_number (framerate config);
     Native.alpha := truthy_string (alpha config);
     Native.colorSpace := colorSpace config;
     Native.profile :=
       if is_avc then (Int32Value ∘ fst) <$> parseAvcCodecString E (codec config)
       else None;
     Native.avcFormat :=
       if is_avc then Some (default "annexb" (mjoin (avc config))) else None;
     Native.latencyMode := truthy_string (latencyMode config);
     Native.scalabilityMode := truthy_string (scalabilityMode config) |}.

Definition includes (l : list string) (s : string) : bool := bool_decide (s ∈ l).

(** [VideoEncoder.configure] *)
Definition configure (config : VideoEncoderConfig) (v : VideoEncoder)
    : Outcome unit * VideoEncoder :=
  if bool_decide (_state v = closed) then
    (Throw (DOMException "Encoder is closed" "InvalidStateError"), v)
  else if negb (isVideoCodecSupported E (codec config)) then
    (Throw (DOMException ("Unsupported codec: " +:+ codec config) "NotSupportedError"), v)
  else if (width config <=? 0) || (height config <=? 0) then
    (Throw (DOMException "Invalid dimensions" "NotSupportedError"), v)
  else if match truthy_string (latencyMode config) with
          | Some m => negb (includes ["quality"; "realtime"] m)
          | None => false
          end then
    (Throw (DOMException
       ("Invalid latencyMode: " +:+ default "" (latencyMode config)
          +:+ ". Must be 'quality' or 'realtime'.") "TypeError"), v)
  else if match truthy_string (bitrateMode config) with
          | Some m => negb (includes ["constant"; "variable"; "quantizer"] m)
          | None => false
          end then
    (Throw (DOMException
       ("Invalid bitrateMode: " +:+ default "" (bitrateMode config)
          +:+ ". Must be 'constant', 'variable', or 'quantizer'.") "TypeError"), v)
  else
  (* [config.useWorkerThread !== false && !!native.VideoEncoderAsync]: the
     addon is read only when the left operand holds *)
  let wanted := negb (bool_decide (useWorkerThread config = Some false)) in
  match (if wanted then
           match addon E with
           | Loaded hasAsync => inl hasAsync
           | LoadFailed message => inr message
           end
         else inl false) with
  | inr message => (Throw (Error message), v)
  | inl useAsync =>
      let v := set_useAsync useAsync v in
      match (if _nativeCreated v then inl v
             else match addon E with
                  | Loaded _ =>
                      inl (set_nativeCreated true
                             (set_native
                                (Some (if useAsync then AsyncObject (async_new (async E))
                                       else SyncObject start)) v))
                  | LoadFailed message => inr message
                  end) with
      | inr message => (Throw (Error message), v)
      | inl v =>
          let params := codecParams config in
          match on_native (Configure (platform E) (Some params))
                          (async_configure (async E) params) v with
          | (Ok _, v) =>
              (Ok (), set_sentDecoderConfig false
                        (set_state configured (set_config (Some config) v)))
          | (r, v) => (r, v)
          end
      end
  end.

(** [VideoEncoder.encode]; [keyFrame] is [options?.keyFrame ?? false]. *)
Definition encode (frame : VideoFrame) (keyFrame : bool) (v : VideoEncoder)
    : Outcome unit * VideoEncoder :=
  if negb (bool_decide (_state v = configured)) then
    (Throw (DOMException "Encoder is not configured" "InvalidStateError"), v)
  else if vf_closed frame then
    (Throw (DOMException "VideoFrame is closed" "InvalidStateError"), v)
  else match vf_native frame with
  | None => (Throw (DOMException "VideoFrame has no native handle" "InvalidStateError"), v)
  | Some nativeFrame =>
      let v := set_encodeQueueSize (_encodeQueueSize v + 1) v in
      on_native (Encode (platform E) nativeFrame (Int64Value (vf_timestamp frame))
                   keyFrame)
                (async_encode (async E) nativeFrame (vf_timestamp frame) keyFrame) v
  end.

(** [VideoEncoder.flush]: an async function, so a failure rejects the
    promise it returns. *)
Definition flush (v : VideoEncoder) : VideoEncoder :=
  if negb (bool_decide (_state v = configured)) then
    notify (FlushRejected (DOMException "Encoder is not configured" "InvalidStateError")) v
  else match on_native (Flush (platform E)) (async_flush (async E)) v with
       | (Ok _, v) => v
       | (Throw e, v) => notify (FlushRejected e) v
       | (Segfault, v) => v
       end.

(** [VideoEncoder.reset] *)
Definition reset (v : VideoEncoder) : Outcome unit * VideoEncoder :=
  if bool_decide (_state v = closed) then
    (Throw (DOMException "Encoder is closed" "InvalidStateError"), v)
  else
    let after '(r, v) :=
      match r with
      | Ok _ => (Ok (), set_config None (set_sentDecoderConfig false
                          (set_state unconfigured (set_encodeQueueSize 0 v))))
      | _ => (r, v)
      end in
    match _native v with
    | Some _ => after (on_native (Reset (platform E)) (async_reset (async E)) v)
    | None => after (Ok (), v)
    end.

(** [VideoEncoder.close] *)
Definition close (v : VideoEncoder) : Outcome unit * VideoEncoder :=
  if bool_decide (_state v = closed) then (Ok (), v)
  else
    let after '(r, v) :=
      match r with
      | Ok _ => (Ok (), set_config None (set_encodeQueueSize 0 (set_state closed v)))
      | _ => (r, v)
      end in
    match _native v with
    | Some _ => after (on_native (Close) (async_close (async E)) v)
    | None => after (Ok (), v)
    end.

(** The engine handle the session holds ([codecCtx_] of the synchronous
    addon object), and the codec contexts that are open in the engine:
    opened by [avcodec_open2] and not freed since. *)
Definition handle (v : VideoEncoder) : option nat :=
  match _native v with
  | Some (SyncObject w) => codecCtx_ (self w)
  | _ => None
  end.

Definition open_handles (v : VideoEncoder) : gset nat :=
  match _native v with
  | Some (SyncObject w) =>
      dom (filter (λ kc, Libav.opened kc.2 = true) (Libav.contexts (av w)))
  | _ => ∅
  end.

(** The events since [v], in [v']. *)
Definition since (v v' : VideoEncoder) : list Event :=
  drop (length (seen v)) (seen v').

End VideoEncoder.

(** *** [AudioDecoder] *)

Record AudioDecoderConfig := {
  audio_codec : string;
  sampleRate : Z;
  numberOfChannels : Z;
  audio_description : option (list Byte.byte)
}.

Record EncodedAudioChunk := {
  chunk_key : bool;                  (* type === 'key' *)
  chunk_timestamp : Z;
  chunk_duration : option Z;
  chunk_data : list Byte.byte
}.

(** The arguments of [_onData]. *)
Record Samples := {
  buffer : list Byte.byte;
  sample_format : string;
  sample_rate : Z;
  numberOfFrames : Z;
  channels : Z;
  sample_timestamp : Z
}.

(** The calls [AudioDecoderNative] makes back while one of its methods runs:
    the two functions given to the constructor, and the one given to [flush]. *)
Inductive AudioCallback :=
  | OnData (x : Samples)
  | OnAudioError (message : string)
  | OnFlushed (err : option string).

(** [AudioDecoderNative] ([audio.cpp]) is not in the source tree: its methods
    are left open.  Each tells how it ends, the object after it and the
    calls it made back, in order. *)
Record AudioNativeClass := {
  audio_state : Type;
  audio_new : audio_state;
  audio_configure : string → Z → Z → option (list Byte.byte) → audio_state →
                    Outcome unit * audio_state * list AudioCallback;
  audio_decode : list Byte.byte → bool → Z → Z → audio_state →
                 Outcome unit * audio_state * list AudioCallback;
  audio_flush : audio_state → Outcome unit * audio_state * list AudioCallback;
  audio_reset : audio_state → Outcome unit * audio_state * list AudioCallback;
  audio_close : audio_state → Outcome unit * audio_state * list AudioCallback
}.

Record AudioEnv := {
  audioNative : AudioNativeClass;
  (* codec-registry.ts *)
  isAudioCodecSupported : string → bool;
  getFFmpegAudioDecoder : string → string;
  (* whether [new AudioData(...)] accepts the samples *)
  AudioData_ok : Samples → bool
}.

Inductive AudioEvent :=
  | AudioDequeue
  | AudioOutput (x : Samples)
  | AudioError (e : Exception)
  | AudioFlushResolved
  | AudioFlushRejected (e : Exception).

(** A function queued by [setImmediate] in [_onData]; it holds the copy of
    the samples. *)
Inductive Immediate := Deferred (x : Samples).

Section AudioDecoder.

Variable A : AudioEnv.

(** The object, with the event loop's queue of immediates and what the
    application has observed. *)
Record AudioDecoder := {
  _audioNative : audio_state (audioNative A);
  _audioState : CodecState;
  _decodeQueueSize : Z;
  _audioConfig : option AudioDecoderConfig;
  immediates : list Immediate;
  heard : list AudioEvent
}.

Definition set_audioNative (x : audio_state (audioNative A)) (d : AudioDecoder) : AudioDecoder :=
  {| _audioNative := x; _audioState := _audioState d;
     _decodeQueueSize := _decodeQueueSize d; _audioConfig := _audioConfig d;
     immediates := immediates d; heard := heard d |}.
Definition set_audioState (x : CodecState) (d : AudioDecoder) : AudioDecoder :=
  {| _audioNative := _audioNative d; _audioState := x;
     _decodeQueueSize := _decodeQueueSize d; _audioConfig := _audioConfig d;
     immediates := immediates d; heard := heard d |}.
Definition set_decodeQueueSize (x : Z) (d : AudioDecoder) : AudioDecoder :=
  {| _audioNative := _audioNative d; _audioState := _audioState d;
     _decodeQueueSize := x; _audioConfig := _audioConfig d;
     immediates := immediates d; heard := heard d |}.
Definition set_audioConfig (x : option AudioDecoderConfig) (d : AudioDecoder) : AudioDecoder :=
  {| _audioNative := _audioNative d; _audioState := _audioState d;
     _decodeQueueSize := _decodeQueueSize d; _audioConfig := x;
     immediates := immediates d; heard := heard d |}.
Definition set_immediates (x : list Immediate) (d : AudioDecoder) : AudioDecoder :=
  {| _audioNative := _audioNative d; _audioState := _audioState d;
     _decodeQueueSize := _decodeQueueSize d; _audioConfig := _audioConfig d;
     immediates := x; heard := heard d |}.
Definition set_heard (x : list AudioEvent) (d : AudioDecoder) : AudioDecoder :=
  {| _audioNative := _audioNative d; _audioState := _audioState d;
     _decodeQueueSize := _decodeQueueSize d; _audioConfig := _audioConfig d;
     immediates := immediates d; heard := x |}.

Definition new_AudioDecoder : AudioDecoder :=
  {| _audioNative := audio_new (audioNative A); _audioState := unconfigured;
     _decodeQueueSize := 0; _audioConfig := None; immediates := []; heard := [] |}.

Definition hear (e : AudioEvent) (d : AudioDecoder) : AudioDecoder :=
  set_heard (heard d ++ [e]) d.

(** [_onData]: copies the buffer and defers the rest with [setImmediate]. *)
Definition _onData (x : Samples) (d : AudioDecoder) : AudioDecoder :=
  set_immediates (immediates d ++ [Deferred x]) d.

(** The function [_onData] deferred. *)
Definition run_deferred (x : Samples) (d : AudioDecoder) : AudioDecoder :=
  let d := set_decodeQueueSize (Z.max 0 (_decodeQueueSize d - 1)) d in
  let d := hear AudioDequeue d in
  if AudioData_ok A x then hear (AudioOutput x) d else d.

(** [AudioDecoder._onError] *)
Definition _onAudioError (message : string) (d : AudioDecoder) : AudioDecoder :=
  hear (AudioError (DOMException message "EncodingError")) d.

Definition deliver_audio (d : AudioDecoder) (c : AudioCallback) : AudioDecoder :=
  match c with
  | OnData x => _onData x d
  | OnAudioError message => _onAudioError message d
  | OnFlushed None => hear AudioFlushResolved d
  | OnFlushed (Some message) =>
      hear (AudioFlushRejected (DOMException message "EncodingError")) d
  end.

Definition on_audioNative
    (method : audio_state (audioNative A) →
              Outcome unit * audio_state (audioNative A) * list AudioCallback)
    (d : AudioDecoder) : Outcome unit * AudioDecoder :=
  let '(r, n, cbs) := method (_audioNative d) in
  (r, foldl deliver_audio (set_audioNative n d) cbs).

(** One turn of the event loop's check phase: the oldest immediate runs. *)
Definition run_immediate (d : AudioDecoder) : AudioDecoder :=
  match immediates d with
  | Deferred x :: rest => run_deferred x (set_immediates rest d)
  | [] => d
  end.

(** The loop goes on until no immediate is left. *)
Fixpoint run_immediates (n : nat) (d : AudioDecoder) : AudioDecoder :=
  match n with
  | O => d
  | S n' => run_immediates n' (run_immediate d)
  end.

Definition settle (d : AudioDecoder) : AudioDecoder :=
  run_immediates (length (immediates d)) d.

(** [AudioDecoder.configure] *)
Definition audio_configure_ (config : AudioDecoderConfig) (d : AudioDecoder)
    : Outcome unit * AudioDecoder :=
  if bool_decide (_audioState d = closed) then
    (Throw (DOMException "Decoder is closed" "InvalidStateError"), d)
  else if negb (isAudioCodecSupported A (audio_codec config)) then
    (Throw (DOMException ("Unsupported codec: " +:+ audio_codec config)
              "NotSupportedError"), d)
  else
    match on_audioNative
            (audio_configure (audioNative A)
               (getFFmpegAudioDecoder A (audio_codec config))
               (sampleRate config) (numberOfChannels config)
               (audio_description config)) d with
    | (Ok _, d) => (Ok (), set_audioState configured (set_audioConfig (Some config) d))
    | (r, d) => (r, d)
    end.

(** [AudioDecoder.decode] *)
Definition decode (chunk : EncodedAudioChunk) (d : AudioDecoder)
    : Outcome unit * AudioDecoder :=
  if negb (bool_decide (_audioState d = configured)) then
    (Throw (DOMException "Decoder is not configured" "InvalidStateError"), d)
  else
    let d := set_decodeQueueSize (_decodeQueueSize d + 1) d in
    on_audioNative
      (audio_decode (audioNative A) (chunk_data chunk) (chunk_key chunk)
         (chunk_timestamp chunk) (default 0 (chunk_duration chunk))) d.

(** [AudioDecoder.flush] *)
Definition audio_flush_ (d : AudioDecoder) : AudioDecoder :=
  if negb (bool_decide (_audioState d = configured)) then
    hear (AudioFlushRejected
            (DOMException "Decoder is not configured" "InvalidStateError")) d
  else match on_audioNative (audio_flush (audioNative A)) d with
       | (Ok _, d) => d
       | (Throw e, d) => hear (AudioFlushRejected e) d
       | (Segfault, d) => d
       end.

(** [AudioDecoder.reset] *)
Definition audio_reset_ (d : AudioDecoder) : Outcome unit * AudioDecoder :=
  if bool_decide (_audioState d = closed) then
    (Throw (DOMException "Decoder is closed" "InvalidStateError"), d)
  else
    match on_audioNative (audio_reset (audioNative A)) d with
    | (Ok _, d) =>
        (Ok (), set_audioConfig None (set_audioState unconfigured
                  (set_decodeQueueSize 0 d)))
    | (r, d) => (r, d)
    end.

(** [AudioDecoder.close] *)
Definition audio_close_ (d : AudioDecoder) : Outcome unit * AudioDecoder :=
  if bool_decide (_audioState d = closed) then (Ok (), d)
  else
    match on_audioNative (audio_close (audioNative A)) d with
    | (Ok _, d) =>
        (Ok (), set_audioConfig None (set_decodeQueueSize 0 (set_audioState closed d)))
    | (r, d) => (r, d)
    end.

(** What the application and the event loop do to a decoder, one after
    the other. *)
Inductive AudioOp :=
  | DoConfigure (config : AudioDecoderConfig)
  | DoDecode (chunk : EncodedAudioChunk)
  | DoFlush
  | DoReset
  | DoClose
  | Turn.                            (* the event loop runs one immediate *)

Definition audio_step (d : AudioDecoder) (op : AudioOp) : AudioDecoder :=
  match op with
  | DoConfigure config => snd (audio_configure_ config d)
  | DoDecode chunk => snd (decode chunk d)
  | DoFlush => audio_flush_ d
  | DoReset => snd (audio_reset_ d)
  | DoClose => snd (audio_close_ d)
  | Turn => run_immediate d
  end.

Definition audio_run (ops : list AudioOp) : AudioDecoder :=
  foldl audio_step new_AudioDecoder ops.

(** The immediates a list of callbacks queues: one for each [_onData]. *)
Definition deferred_of (cbs : list AudioCallback) : list Immediate :=
  omap (λ c, match c with OnData x => Some (Deferred x) | _ => None end) cbs.

End AudioDecoder.

End Wrapper.

(** ** The job queue and worker of the asynchronous encoder

    [async_encoder.h] declares [EncodeJob], [EncodeResult] and the members
    of [VideoEncoderAsync] ([jobQueue_], a [std::queue<EncodeJob>], with its
    mutex and condition variable); [async_encoder.cpp] is not in the source
    tree. *)

Module AsyncQueue.

(** [struct EncodeJob] *)
Record EncodeJob := {
  frame : option Libav.AVFrame;
  timestamp : Z;
  forceKeyframe : bool;
  isFlush : bool
}.

(** [struct EncodeResult] *)
Record EncodeResult := {
  data : list Byte.byte;
  isKeyframe : bool;
  pts : Z;
  duration : Z;
  extradata : list Byte.byte;
  hasExtradata : bool;
  isError : bool;
  errorMessage : string;
  isFlushComplete : bool
}.

(** The codec engine as the worker drives it: submitting a job's input and
    draining give back outputs (packets or error codes). *)
Record Engine := {
  handle : Type;
  submit : EncodeJob → handle → handle * list Libav.Received;
  drain : handle → handle * list Libav.Received
}.

(** Modelled from the spec: the result the worker builds from one engine
    output ([async_encoder.cpp] is missing): "an encoded chunk (bytes,
    key/delta flag, timestamp, duration, optional out-of-band description
    data) ... or an error", its payload copied. *)
Definition result_of (x : list Byte.byte) (o : Libav.Received) : EncodeResult :=
  match o with
  | Libav.Packet p =>
      {| data := Libav.data p; isKeyframe := Libav.key_flag p; pts := Libav.pts p;
         duration := Libav.duration p; extradata := x;
         hasExtradata := negb (bool_decide (x = [])); isError := false;
         errorMessage := ""; isFlushComplete := false |}
  | Libav.Failure code =>
      {| data := []; isKeyframe := false; pts := 0; duration := 0; extradata := [];
         hasExtradata := false; isError := true;
         errorMessage := "Encode error: " +:+ pretty code; isFlushComplete := false |}
  end.

(** Modelled from the spec: the "single flush-complete result"
    ([async_encoder.cpp] is missing). *)
Definition flush_complete : EncodeResult :=
  {| data := []; isKeyframe := false; pts := 0; duration := 0; extradata := [];
     hasExtradata := false; isError := false; errorMessage := "";
     isFlushComplete := true |}.

Section Session.

Variable E : Engine.

(** The session between the two threads.  Jobs and results carry the
    number of the enqueue they come from: the queue holds jobs with their
    number, and a delivered result keeps the number of the job the worker
    was processing. *)
Record Session := {
  engine : handle E;
  jobQueue_ : list (nat * EncodeJob);
  pending : Z;
  enqueued : nat;
  delivered : list (nat * EncodeResult)
}.

Definition open (h : handle E) : Session :=
  {| engine := h; jobQueue_ := []; pending := 0; enqueued := 0%nat; delivered := [] |}.

(** Modelled from the spec: [encode(job)] and [flush()] on the caller's
    thread ([async_encoder.cpp] is missing): "increments the pending
    counter and hands the job to the Job Queue"; "a flush marker is a job
    like any other". *)
Definition enqueue (j : EncodeJob) (s : Session) : Session :=
  {| engine := engine s;
     jobQueue_ := jobQueue_ s ++ [(enqueued s, j)];
     pending := pending s + 1;
     enqueued := S (enqueued s);
     delivered := delivered s |}.

(** Modelled from the spec: one round of the worker's loop
    ([async_encoder.cpp] is missing): "pop one job, dispatch to the engine
    handle, deliver each engine output through the callback channel,
    decrement the pending counter"; at a flush marker the worker "tells the
    engine to drain, emits all resulting chunks, then emits a single
    flush-complete result".  With an empty queue the worker waits. *)
Definition work (s : Session) : Session :=
  match jobQueue_ s with
  | [] => s
  | (i, j) :: rest =>
      let '(h, outs) := if isFlush j then drain E (engine s) else submit E j (engine s) in
      let results := result_of [] <$> outs in
      let results := if isFlush j then results ++ [flush_complete] else results in
      {| engine := h;
         jobQueue_ := rest;
         pending := pending s - 1;
         enqueued := enqueued s;
         delivered := delivered s ++ ((λ r, (i, r)) <$> results) |}
  end.

(** Modelled from the spec: [reset()] ([async_encoder.cpp] is missing):
    "discards queued jobs without delivering their results, clears the
    pending counter to zero". *)
Definition discard (s : Session) : Session :=
  {| engine := engine s; jobQueue_ := []; pending := 0;
     enqueued := enqueued s; delivered := delivered s |}.

(** What the two threads do, in some interleaving. *)
Inductive Step := Enqueue (j : EncodeJob) | Work | Discard.

Definition step (s : Session) (a : Step) : Session :=
  match a with
  | Enqueue j => enqueue j s
  | Work => work s
  | Discard => discard s
  end.

Definition run (steps : list Step) (s : Session) : Session := foldl step s steps.

Implicit Types (s : Session) (d : list (nat * EncodeResult)).

(** Earlier results come from jobs enqueued no later. *)
Definition in_enqueue_order d : Prop :=
  ∀ i j x y, d !! i = Some x → d !! j = Some y → (i < j)%nat → (x.1 ≤ y.1)%nat.

(** Around a flush-complete result: a result of an earlier job stands
    before it, and what stands after it comes from a later job. *)
Definition flush_complete_last d : Prop :=
  ∀ i j x y, d !! i = Some x → isFlushComplete x.2 = true → d !! j = Some y →
    ((y.1 < x.1)%nat → (j < i)%nat) ∧ ((i < j)%nat → (x.1 < y.1)%nat).

(** How two delivered results stand to each other, the earlier first. *)
Definition before (x y : nat * EncodeResult) : Prop :=
  (x.1 ≤ y.1)%nat ∧ (isFlushComplete x.2 = true → (x.1 < y.1)%nat).

(** What holds of the session at every moment: the queue is in enqueue
    order, and whatever has been delivered comes from jobs older than any
    job still queued. *)
Record invariant s : Prop := {
  queue_sorted : StronglySorted lt (fst <$> jobQueue_ s);
  queue_known : Forall (λ j, (j < enqueued s)%nat) (fst <$> jobQueue_ s);
  delivered_known : Forall (λ x, (x.1 < enqueued s)%nat) (delivered s);
  delivered_first :
    Forall (λ x, Forall (λ j, (x.1 < j)%nat) (fst <$> jobQueue_ s)) (delivered s);
  delivered_sorted : StronglySorted before (delivered s)
}.

(** The jobs the caller enqueues in [steps], oldest first: the job with
    number [k] is the [k]-th of them. *)
Definition enqueues (steps : list Step) : list EncodeJob :=
  omap (λ a, match a with Enqueue j => Some j | _ => None end) steps.

(** A reset came after job [k] was enqueued and before job [i] was. *)
Definition reset_between (k i : nat) (steps : list Step) : Prop :=
  ∃ before after, steps = before ++ Discard :: after
    ∧ (k < length (enqueues before) ≤ i)%nat.

(** Modelled from the spec: everything the engine gives for [jobs], taken
    one after the other from handle [h], as the results the caller is to
    receive ([async_encoder.cpp] is missing): for each job one result per
    engine output, in the engine's order and under the job's number, and
    for a flush marker the drained outputs followed by the flush-complete
    result. *)
Fixpoint worked (h : handle E) (jobs : list (nat * EncodeJob))
    : handle E * list (nat * EncodeResult) :=
  match jobs with
  | [] => (h, [])
  | (i, j) :: jobs =>
      let '(h, outs) := if isFlush j then drain E h else submit E j h in
      let '(h, later) := worked h jobs in
      (h, ((λ o, (i, result_of [] o)) <$> outs)
          ++ (if isFlush j then [(i, flush_complete)] else []) ++ later)
  end.

(** FIFO, in full.  The worker has taken some jobs [taken]; these and the
    jobs still queued are, in this order, jobs of the caller under their
    enqueue numbers, oldest first; every job the caller enqueued is among
    them unless a reset came after it; and what has been delivered is, job
    by job in that order, everything the engine gave for the jobs taken. *)
Definition delivered_in_full (h : handle E) (steps : list Step) s : Prop :=
  ∃ taken : list (nat * EncodeJob),
    worked h taken = (engine s, delivered s)
    ∧ StronglySorted lt (fst <$> (taken ++ jobQueue_ s))
    ∧ (∀ i j, (i, j) ∈ taken ++ jobQueue_ s → enqueues steps !! i = Some j)
    ∧ (∀ k, (k < length (enqueues steps))%nat →
         k ∈ fst <$> (taken ++ jobQueue_ s) ∨ ∃ i, reset_between k i steps).

(** Flush.  Where the flush-complete result of marker [i] stands in what
    has been delivered (at position [p]), everything delivered up to it is
    all of what the engine gave for the jobs [older] and then for the
    marker, the flush-complete result last; [older] are the jobs the
    caller enqueued before the marker, oldest first, all of them but those
    a reset discarded in between; and no job enqueued before the marker is
    still queued. *)
Definition flush_complete_after_all (h : handle E) (steps : list Step) s : Prop :=
  ∀ p i r, delivered s !! p = Some (i, r) → isFlushComplete r = true →
    ∃ older marker,
      enqueues steps !! i = Some marker ∧ isFlush marker = true
      ∧ StronglySorted lt (fst <$> (older ++ [(i, marker)]))
      ∧ (∀ k j, (k, j) ∈ older → enqueues steps !! k = Some j)
      ∧ (∀ k j, (k < i)%nat → enqueues steps !! k = Some j →
           (k, j) ∈ older ∨ reset_between k i steps)
      ∧ take (S p) (delivered s) = (worked h (older ++ [(i, marker)])).2
      ∧ Forall (λ k, (i < k)%nat) (fst <$> jobQueue_ s).

(** Left alone with the queue, the worker empties it in as many rounds as
    it holds jobs, and delivers everything the engine gives for them, in
    the order of the queue. *)
Definition queue_worked_off s : Prop :=
  let s' := run (replicate (length (jobQueue_ s)) Work) s in
  jobQueue_ s' = []
  ∧ (engine s', delivered s')
    = ((worked (engine s) (jobQueue_ s)).1,
       delivered s ++ (worked (engine s) (jobQueue_ s)).2).

(** What holds of a run from the start, with the jobs [taken] by the
    worker.  It accounts for every job enqueued: a job that is neither
    taken nor queued was enqueued before a reset, and that reset came
    before any younger job that is taken or queued. *)
Record account (h : handle E) (steps : list Step) s
    (taken : list (nat * EncodeJob)) : Prop := {
  account_worked : worked h taken = (engine s, delivered s);
  account_sorted : StronglySorted lt (fst <$> (taken ++ jobQueue_ s));
  account_jobs : ∀ i j, (i, j) ∈ taken ++ jobQueue_ s → enqueues steps !! i = Some j;
  account_count : enqueued s = length (enqueues steps);
  account_gone : ∀ k, (k < length (enqueues steps))%nat →
    k ∉ fst <$> (taken ++ jobQueue_ s) →
    ∃ before after, steps = before ++ Discard :: after
      ∧ (k < length (enqueues before))%nat
      ∧ Forall (λ x, (k < x)%nat → (length (enqueues before) ≤ x)%nat)
          (fst <$> (taken ++ jobQueue_ s))
}.

End Session.

End AsyncQueue.

(** ** Platforms and inputs for the concrete runs *)

Module Scenario.

Import Libav.

Definition parse_preference (s : string) : Preference :=
  if String.eqb s "prefer-hardware" then PreferHardware
  else if String.eqb s "prefer-software" then PreferSoftware
  else NoPreference.

(** The packet an encoder makes of a frame: keyed as asked, same timestamp. *)
Definition packet_of (f : AVFrame) : AVPacket :=
  {| data := [Byte.x78]; key_flag := pict_type_I f; pts := frame_pts f;
     duration := 0; blockadditional := [] |}.

Definition software_info : EncoderInfo :=
  {| info_codec := Some {| name := "libvpx" |}; hwType := HW_None;
     inputFormat := AV_PIX_FMT_YUV420P; requiresHWFrames := false |}.

Definition vaapi_info : EncoderInfo :=
  {| info_codec := Some {| name := "vp8_vaapi" |}; hwType := HW_Device "vaapi";
     inputFormat := AV_PIX_FMT_VAAPI; requiresHWFrames := true |}.

Definition no_info : EncoderInfo :=
  {| info_codec := None; hwType := HW_None; inputFormat := AV_PIX_FMT_NONE;
     requiresHWFrames := false |}.

(** A machine with the libvpx software encoder only.  The encoder opens
    unless a dimension is not positive; every frame comes back as one
    packet at once; the encoder has no [AV_CODEC_CAP_ENCODER_FLUSH]. *)
Definition software : Platform :=
  {| parsePreference := parse_preference;
     selectEncoder := λ _ _ _ _, software_info;
     createHWDeviceContext_ok := λ _, false;
     find_encoder_by_name := λ _, None;
     hwframe_ctx_alloc_ok := false;
     hwframe_ctx_init_ret := λ _ _ _, AVERROR_EINVAL;
     open2_ret := λ c,
       if (default 0 (get_int "width" c) <=? 0) || (default 0 (get_int "height" c) <=? 0)
       then AVERROR_EINVAL else 0;
     open2_extradata := λ _, [];
     encode_frame := λ _ f, (0, [Packet (packet_of f)]);
     drain_frames := λ _, [];
     encoder_flush_cap := λ _, false;
     frame_get_buffer_ret := λ _ _ _, 0;
     sws_getContext_ok := λ _, true;
     sws_scale := λ _ px, px;
     strerror := pretty |}.

(** A machine with a VAAPI encoder that is selected unless software is
    asked for, and whose open fails; [sw] is what [selectEncoder] answers
    for "prefer software", and [sw_opens] whether that encoder opens. *)
Definition broken_hardware (sw : EncoderInfo) (sw_opens : bool) : Platform :=
  {| parsePreference := parse_preference;
     selectEncoder := λ _ pref _ _,
       if bool_decide (pref = PreferSoftware) then sw else vaapi_info;
     createHWDeviceContext_ok := λ _, true;
     find_encoder_by_name := λ _, None;
     hwframe_ctx_alloc_ok := true;
     hwframe_ctx_init_ret := λ _ _ _, 0;
     open2_ret := λ c,
       if String.eqb (name (codec c)) "vp8_vaapi" then -5
       else if sw_opens then 0 else -22;
     open2_extradata := λ _, [];
     encode_frame := λ _ f, (0, [Packet (packet_of f)]);
     drain_frames := λ _, [];
     encoder_flush_cap := λ _, false;
     frame_get_buffer_ret := λ _ _ _, 0;
     sws_getContext_ok := λ _, true;
     sws_scale := λ _ px, px;
     strerror := pretty |}.

(** A configuration as [Configure] reads it: VP8 of the given size ([vp8]:
    64 by 64), and the rest as given. *)
Definition vp8_sized (width height : Z)
    (hardwareAcceleration scalabilityMode : option string)
    (bitrate : option Z) : Native.Config :=
  {| Native.codec := "vp8"; Native.width := width; Native.height := height;
     Native.hardwareAcceleration := hardwareAcceleration;
     Native.bitrate := bitrate; Native.bitrateMode := None;
     Native.framerate := None; Native.alpha := None; Native.colorSpace := None;
     Native.profile := None; Native.avcFormat := None;
     Native.latencyMode := None; Native.scalabilityMode := scalabilityMode |}.

Definition vp8 := vp8_sized 64 64.

Definition picture (n : nat) : AVFrame :=
  {| format := AV_PIX_FMT_YUV420P; width := 64; height := 64; frame_pts := 0;
     pict_type_I := false; pixels := n |}.

(** The end of a run: how it ended and the world it left. *)
Definition after {A} (m : Native.M A) (w : Native.World) : Native.World := snd (m w).

(** An asynchronous class that does nothing (never used: the addon of
    [env] has none). *)
Definition no_async : Wrapper.AsyncClass :=
  {| Wrapper.async_state := unit; Wrapper.async_new := ();
     Wrapper.async_configure := λ _ a, (Native.Ok (), a);
     Wrapper.async_encode := λ _ _ _ a, (Native.Ok (), a);
     Wrapper.async_flush := λ a, (Native.Ok (), a);
     Wrapper.async_reset := λ a, (Native.Ok (), a);
     Wrapper.async_close := λ a, (Native.Ok (), a) |}.

(** The wrapper over the synchronous addon on platform [P]. *)
Definition env (P : Platform) : Wrapper.Env :=
  {| Wrapper.platform := P; Wrapper.addon := Wrapper.Loaded false;
     Wrapper.async := no_async;
     Wrapper.isVideoCodecSupported := λ _, true;
     Wrapper.getFFmpegVideoCodec := λ c, c;
     Wrapper.parseAvcCodecString := λ _, None |}.

Definition vp8_config (w h : Z) : Wrapper.VideoEncoderConfig :=
  {| Wrapper.codec := "vp8"; Wrapper.width := w; Wrapper.height := h;
     Wrapper.bitrate := None; Wrapper.framerate := None;
     Wrapper.hardwareAcceleration := None; Wrapper.alpha := None;
     Wrapper.scalabilityMode := None; Wrapper.bitrateMode := None;
     Wrapper.latencyMode := None; Wrapper.colorSpace := None;
     Wrapper.avc := None; Wrapper.useWorkerThread := Some false |}.

Definition video_frame (n : nat) (t : Z) : Wrapper.VideoFrame :=
  {| Wrapper.vf_closed := false; Wrapper.vf_native := Some (Some (picture n));
     Wrapper.vf_timestamp := t |}.

(** An audio addon whose decoder reports every chunk as an error, and one
    that answers every chunk with one block of samples. *)
Definition samples (t : Z) : Wrapper.Samples :=
  {| Wrapper.buffer := []; Wrapper.sample_format := "f32"; Wrapper.sample_rate := 48000;
     Wrapper.numberOfFrames := 960; Wrapper.channels := 2;
     Wrapper.sample_timestamp := t |}.

Definition audio_addon (fails : bool) : Wrapper.AudioNativeClass :=
  {| Wrapper.audio_state := unit; Wrapper.audio_new := ();
     Wrapper.audio_configure := λ _ _ _ _ n, (Native.Ok (), n, []);
     Wrapper.audio_decode := λ _ _ t _ n,
       (Native.Ok (), n,
        [if fails then Wrapper.OnAudioError "Decode error"
         else Wrapper.OnData (samples t)]);
     Wrapper.audio_flush := λ n, (Native.Ok (), n, [Wrapper.OnFlushed None]);
     Wrapper.audio_reset := λ n, (Native.Ok (), n, []);
     Wrapper.audio_close := λ n, (Native.Ok (), n, []) |}.

Definition audio_env (fails : bool) : Wrapper.AudioEnv :=
  {| Wrapper.audioNative := audio_addon fails;
     Wrapper.isAudioCodecSupported := λ _, true;
     Wrapper.getFFmpegAudioDecoder := λ c, c;
     Wrapper.AudioData_ok := λ _, true |}.

Definition opus : Wrapper.AudioDecoderConfig :=
  {| Wrapper.audio_codec := "opus"; Wrapper.sampleRate := 48000;
     Wrapper.numberOfChannels := 2; Wrapper.audio_description := None |}.

Definition audio_chunk (t : Z) : Wrapper.EncodedAudioChunk :=
  {| Wrapper.chunk_key := true; Wrapper.chunk_timestamp := t;
     Wrapper.chunk_duration := None; Wrapper.chunk_data := [] |}.

End Scenario.

(** * Theorems *)

(** ** Runs of the model on small inputs *)

Example svc_L1T2 : Svc.temporalLayers (Svc.parseScalabilityMode "L1T2") = 2.
Proof. reflexivity. Qed.

Example svc_L1T3_suffixes :
  Svc.parseScalabilityMode "L1T3h_KEY_SHIFT" =
  {| Svc.spatialLayers := 1; Svc.temporalLayers := 3; Svc.isSimulcast := false;
     Svc.ratioH := 1.5%float; Svc.hasKey := true; Svc.hasShift := true |}.
Proof. reflexivity. Qed.

Example svc_rejects_spatial : Svc.isScalabilityModeSupported "L2T1" = false.
Proof. reflexivity. Qed.

Example svc_rejects_simulcast : Svc.isScalabilityModeSupported "S1T1" = false.
Proof. reflexivity. Qed.

Example svc_rejects_four_layers : Svc.isScalabilityModeSupported "L1T4" = false.
Proof. reflexivity. Qed.

Example configure_then_encode :
  Native.calls (Scenario.after (Native.Encode Scenario.software
                                  (Some (Scenario.picture 1)) 40 true)
                 (Scenario.after (Native.Configure Scenario.software
                                    (Some (Scenario.vp8 None None None)))
                    Native.start))
  = [Native.OnOutput [Byte.x78] true 40 0 None None].
Proof. vm_compute. reflexivity. Qed.

Example ts_parameters_two_layers :
  Native.tsParams 2 1000000 =
  "ts_number_layers=2:ts_target_bitrate=600,1000:ts_rate_decimator=2,1:ts_periodicity=2:ts_layer_id=0,1".
Proof. vm_compute. reflexivity. Qed.

(** ** Scalability modes *)

Section SvcFacts.

Import Svc.

(** A descriptor the pattern does not match parses to the default
    configuration. *)
Lemma parse_unmatched mode :
  regex_match mode = None → parseScalabilityMode mode = default_config.
Proof.
  intros H. unfold parseScalabilityMode. rewrite H. by destruct mode.
Qed.

(** So the support check lets every such descriptor through. *)
Lemma unmatched_is_supported mode :
  regex_match mode = None → isScalabilityModeSupported mode = true.
Proof.
  intros H. unfold isScalabilityModeSupported.
  rewrite (parse_unmatched _ H). by destruct mode.
Qed.

(** On a descriptor the pattern matches, the check is the documented one:
    one spatial layer at most, no simulcast, one to three temporal layers. *)
Lemma matched_is_supported mode m :
  regex_match mode = Some m →
  isScalabilityModeSupported mode =
    negb (m_spatial m >? 1) && negb (Ascii.eqb (m_prefix m) "S")
    && (1 <=? m_temporal m) && (m_temporal m <=? 3).
Proof.
  intros H. unfold isScalabilityModeSupported, parseScalabilityMode.
  rewrite H. destruct mode as [|a mode]; [done|]. cbn.
  destruct (m_spatial m >? 1), (Ascii.eqb (m_prefix m) "S"); cbn; try done;
    destruct (Z.ltb_spec (m_temporal m) 1), (Z.gtb_spec (m_temporal m) 3),
      (Z.leb_spec 1 (m_temporal m)), (Z.leb_spec (m_temporal m) 3);
    cbn; try done; lia.
Qed.

End SvcFacts.

(** C5.  [Configure] does not reject a scalability descriptor that is no
    mode at all: "garbage" does not match the pattern, passes
    [isScalabilityModeSupported], and the encoder ends up configured with
    one temporal layer and [scalabilityMode_ = "garbage"]. *)
Theorem configure_accepts_unparsable_mode :
  let run := Native.Configure Scenario.software
               (Some (Scenario.vp8 None (Some "garbage") None)) Native.start in
  Svc.regex_match "garbage" = None
  ∧ Svc.isScalabilityModeSupported "garbage" = true
  ∧ run.1 = Native.Ok ()
  ∧ Native.configured_ (Native.self run.2) = true
  ∧ Native.scalabilityMode_ (Native.self run.2) = "garbage"
  ∧ Native.temporalLayers_ (Native.self run.2) = 1.
Proof. do 5 (split; [vm_compute; reflexivity|]). vm_compute. reflexivity. Qed.

(** ** The wrapper's [configure] and the dimensions *)

Section WrapperFacts.

Import Native Wrapper.

(** C8 (amended).  The wrapper's [configure] rejects a request with a zero
    or negative width or height by throwing, before it creates or calls the
    addon object: the whole state, addon and engine included, is as it was. *)
Theorem configure_rejects_bad_dimensions (E : Env) (config : VideoEncoderConfig)
    (v : VideoEncoder E) :
  width config ≤ 0 ∨ height config ≤ 0 →
  ∃ e, configure E config v = (Throw e, v).
Proof.
  intros Hdim. unfold configure.
  destruct (bool_decide (_state E v = closed)); [by eexists|].
  destruct (negb (isVideoCodecSupported E (codec config))); [by eexists|].
  assert ((width config <=? 0) || (height config <=? 0) = true) as ->; [|by eexists].
  apply orb_true_iff. destruct Hdim; [left|right]; by apply Z.leb_le.
Qed.

Lemma configure_rejects_bad_dimensions_witness :
  (width (Scenario.vp8_config 0 64) ≤ 0 ∨ height (Scenario.vp8_config 0 64) ≤ 0) ∧
  ∃ e, configure (Scenario.env Scenario.software) (Scenario.vp8_config 0 64)
         (new_VideoEncoder _) = (Throw e, new_VideoEncoder _).
Proof.
  split; [left; simpl; lia|].
  apply configure_rejects_bad_dimensions. left. simpl. lia.
Defined.

(** C8, the claim as stated, fails on the addon's own [Configure]: with
    width 0 it stores the dimensions, selects the encoder and allocates a
    codec context, and only then does the engine refuse to open.  The
    request is rejected, but the encoder object and the engine have changed. *)
Lemma native_configure_checks_no_dimensions :
  let run := Configure Scenario.software
               (Some (Scenario.vp8_sized 0 64 None None None)) start in
  run.1 = Throw (Error "Failed to open codec: -22")
  ∧ width_ (self run.2) = 0
  ∧ codec_ (self run.2) = Some {| Libav.name := "libvpx" |}
  ∧ Libav.opens (av run.2) = [("libvpx", false)]
  ∧ Libav.next_id (av run.2) = 1%nat
  ∧ run.2 ≠ start.
Proof.
  do 5 (split; [vm_compute; reflexivity|]).
  intros H. apply (f_equal (λ w, Libav.next_id (av w))) in H. vm_compute in H.
  discriminate H.
Qed.

End WrapperFacts.

(** ** The pending counter of [AudioDecoder] *)

Section AudioFacts.

Import Native Wrapper.

Variable A : AudioEnv.

Implicit Types (d : AudioDecoder A) (cbs : list AudioCallback).

(** Callbacks from the addon never touch the counter: [_onData] only
    queues an immediate, [_onError] only reports. *)
Lemma deliver_audio_counter cbs d :
  _decodeQueueSize A (foldl (deliver_audio A) d cbs) = _decodeQueueSize A d.
Proof.
  revert d. induction cbs as [|c cbs IH]; intros d; [done|].
  cbn. rewrite IH. by destruct c as [x|m|[m|]].
Qed.

Lemma deliver_audio_immediates cbs d :
  immediates A (foldl (deliver_audio A) d cbs) = immediates A d ++ deferred_of cbs.
Proof.
  revert d. induction cbs as [|c cbs IH]; intros d; cbn.
  - by rewrite app_nil_r.
  - rewrite IH. destruct c as [x|m|[m|]]; cbn; [|done..].
    by rewrite <- app_assoc.
Qed.

Lemma deliver_audio_state cbs d :
  _audioState A (foldl (deliver_audio A) d cbs) = _audioState A d.
Proof.
  revert d. induction cbs as [|c cbs IH]; intros d; [done|].
  cbn. rewrite IH. by destruct c as [x|m|[m|]].
Qed.

(** Nor do they dispatch 'dequeue'. *)
Lemma deliver_audio_heard cbs d :
  ∃ es, heard A (foldl (deliver_audio A) d cbs) = heard A d ++ es
        ∧ AudioDequeue ∉ es.
Proof.
  revert d. induction cbs as [|c cbs IH]; intros d; cbn.
  - exists []. split; [by rewrite app_nil_r|]. by apply not_elem_of_nil.
  - destruct (IH (deliver_audio A d c)) as (es & -> & Hes).
    destruct c as [x|m|[m|]]; cbn.
    + by exists es.
    + eexists (_ :: es). rewrite <- app_assoc. split; [done|].
      rewrite not_elem_of_cons. by split.
    + eexists (_ :: es). rewrite <- app_assoc. split; [done|].
      rewrite not_elem_of_cons. by split.
    + eexists (_ :: es). rewrite <- app_assoc. split; [done|].
      rewrite not_elem_of_cons. by split.
Qed.

Lemma on_audioNative_counter method d :
  _decodeQueueSize A (on_audioNative A method d).2 = _decodeQueueSize A d.
Proof.
  unfold on_audioNative. destruct (method _) as [[r n] cbs]. cbn.
  by rewrite deliver_audio_counter.
Qed.

(** The deferred function takes one off the counter and stops at zero. *)
Lemma run_deferred_counter x d :
  _decodeQueueSize A (run_deferred A x d) = Z.max 0 (_decodeQueueSize A d - 1).
Proof. unfold run_deferred. by destruct (AudioData_ok A x). Qed.

(** A method that fails leaves the state as the addon call left it, with
    the counter as before; a method that ends well then sets it. *)
Ltac through_native :=
  repeat case_match; cbn; try done;
  match goal with
  | H : on_audioNative A ?m ?d0 = (_, ?d1) |- _ =>
      let Hc := fresh in
      pose proof (on_audioNative_counter m d0) as Hc; rewrite H in Hc; cbn in Hc;
      by rewrite ?Hc
  end.

(** The counter is never negative, whatever is done to the decoder. *)
Lemma audio_step_nonneg d op :
  0 ≤ _decodeQueueSize A d → 0 ≤ _decodeQueueSize A (audio_step A d op).
Proof.
  intros Hd. destruct op as [config|chunk| | | |]; cbn.
  - unfold audio_configure_. through_native.
  - unfold decode. case_match; [done|].
    rewrite on_audioNative_counter. cbn. lia.
  - unfold audio_flush_. through_native.
  - unfold audio_reset_. through_native.
  - unfold audio_close_. through_native.
  - unfold run_immediate. destruct (immediates A d) as [|[x] rest]; [done|].
    rewrite run_deferred_counter. lia.
Qed.

Lemma audio_run_nonneg ops : 0 ≤ _decodeQueueSize A (audio_run A ops).
Proof.
  unfold audio_run. induction ops as [|op ops IH] using rev_ind; [done|].
  rewrite foldl_app. cbn. by apply audio_step_nonneg.
Qed.

(** C10.  On a configured decoder, whatever was done before and whatever
    the addon calls back during the call: [decode] returns with the counter
    one higher than before, so above zero; every output of the call has
    become an immediate at the end of the event loop's queue, and no
    'dequeue' event was dispatched.  The deferred function, when its turn
    comes, takes one off the counter and never goes below zero. *)
Theorem decode_defers_the_decrement (ops : list AudioOp) (chunk : EncodedAudioChunk) :
  let d := audio_run A ops in
  _audioState A d = configured →
  let '(_, _, cbs) :=
    audio_decode (audioNative A) (chunk_data chunk) (chunk_key chunk)
      (chunk_timestamp chunk) (default 0 (chunk_duration chunk)) (_audioNative A d) in
  let d' := (decode A chunk d).2 in
  _decodeQueueSize A d' = _decodeQueueSize A d + 1
  ∧ 0 < _decodeQueueSize A d'
  ∧ immediates A d' = immediates A d ++ deferred_of cbs
  ∧ (∃ es, heard A d' = heard A d ++ es ∧ AudioDequeue ∉ es)
  ∧ ∀ x d0, 0 ≤ _decodeQueueSize A d0 →
      _decodeQueueSize A (run_deferred A x d0) = Z.max 0 (_decodeQueueSize A d0 - 1)
      ∧ 0 ≤ _decodeQueueSize A (run_deferred A x d0)
      ∧ AudioDequeue ∈ heard A (run_deferred A x d0).
Proof.
  intros d Hconf.
  pose proof (audio_run_nonneg ops) as Hpos. fold d in Hpos.
  destruct (audio_decode _ _ _ _ _ _) as [[r n] cbs] eqn:Hcall.
  unfold decode. rewrite Hconf, bool_decide_true by done. cbn.
  unfold on_audioNative. cbn. rewrite Hcall. cbn.
  rewrite deliver_audio_counter, deliver_audio_immediates. cbn.
  split; [done|]. split; [lia|]. split; [done|]. split.
  - apply (deliver_audio_heard cbs
             (set_audioNative A n (set_decodeQueueSize A (_decodeQueueSize A d + 1) d))).
  - intros x d0 Hd0. rewrite run_deferred_counter. split; [done|]. split; [lia|].
    unfold run_deferred, hear. destruct (AudioData_ok A x); cbn;
      rewrite ?elem_of_app, ?list_elem_of_singleton; auto.
Qed.

End AudioFacts.

Lemma decode_defers_the_decrement_witness :
  let A := Scenario.audio_env false in
  let d := Wrapper.audio_run A [Wrapper.DoConfigure Scenario.opus] in
  Wrapper._audioState A d = Wrapper.configured ∧
  Wrapper._decodeQueueSize A (Wrapper.decode A (Scenario.audio_chunk 0) d).2 = 1 ∧
  Wrapper.immediates A (Wrapper.decode A (Scenario.audio_chunk 0) d).2
    = [Wrapper.Deferred (Scenario.samples 0)].
Proof.
  pose proof (decode_defers_the_decrement (Scenario.audio_env false)
                [Wrapper.DoConfigure Scenario.opus] (Scenario.audio_chunk 0)
                eq_refl) as H.
  cbn in H. destruct H as (H1 & _ & H3 & _).
  split; [reflexivity|]. split; [exact H1|exact H3].
Defined.

(** C6.  A chunk whose decoding ends in an error keeps its count for good:
    [_onError] does not touch the counter, so with the error reported and
    no immediate left to run the counter still says one job is pending. *)
Theorem decode_error_leaves_counter_up :
  let A := Scenario.audio_env true in
  let d := Wrapper.audio_run A
             [Wrapper.DoConfigure Scenario.opus;
              Wrapper.DoDecode (Scenario.audio_chunk 0)] in
  Wrapper.heard A d
    = [Wrapper.AudioError (Native.DOMException "Decode error" "EncodingError")]
  ∧ Wrapper.immediates A d = []
  ∧ Wrapper._decodeQueueSize A d = 1
  ∧ ∀ n, Wrapper._decodeQueueSize A (Wrapper.run_immediates A n d) = 1.
Proof.
  cbn. repeat split.
  intros n. induction n as [|n IH]; [reflexivity|exact IH].
Qed.

(** ** The synchronous encoder behind the wrapper *)

(** Closed statements about concrete runs are settled by evaluation. *)
Ltac evaluate := vm_compute; reflexivity.

Section SessionRuns.

Import Native Wrapper.

Let E := Scenario.env Scenario.software.
Let configured_once : VideoEncoder E :=
  (configure E (Scenario.vp8_config 64 64) (new_VideoEncoder E)).2.
Let configured_twice := configure E (Scenario.vp8_config 64 64) configured_once.

(** C9.  A second [configure] on a configured encoder allocates and opens
    a new codec context and overwrites [codecCtx_] without freeing the
    one it held: the session is configured with handle 1 while contexts 0
    and 1 are both open in the engine. *)
Theorem reconfigure_leaks_the_open_context :
  _state E configured_once = configured
  ∧ handle E configured_once = Some 0%nat
  ∧ open_handles E configured_once = {[ 0%nat ]}
  ∧ configured_twice.1 = Ok ()
  ∧ _state E configured_twice.2 = configured
  ∧ handle E configured_twice.2 = Some 1%nat
  ∧ open_handles E configured_twice.2 = {[ 0%nat; 1%nat ]}.
Proof. do 6 (split; [evaluate|]). evaluate. Qed.

Let encoded_and_flushed : VideoEncoder E :=
  flush E (encode E (Scenario.video_frame 1 0) true configured_once).2.
Let encoded_again := encode E (Scenario.video_frame 2 33333) true encoded_and_flushed.

(** C1.  After a frame has been encoded and [flush] has resolved, the
    session is still configured and [encode] is accepted, but it produces
    no output: [Flush] sent the null frame that puts the encoder in
    draining mode and nothing takes it out again, so
    [avcodec_send_frame] answers [AVERROR_EOF].  The application gets the
    error callback instead of a chunk, and the counter stays at one.  A
    second [flush] still resolves. *)
Theorem encode_after_flush_gives_no_output :
  since E configured_once encoded_and_flushed
    = [Dequeue;
       Output {| type_key := true; timestamp := 0; duration := None; data := [Byte.x78] |}
         (Some {| dc_codec := "vp8"; codedWidth := 64; codedHeight := 64;
                  description := None |});
       FlushResolved]
  ∧ _state E encoded_and_flushed = configured
  ∧ encoded_again.1 = Ok ()
  ∧ since E encoded_and_flushed encoded_again.2
      = [ErrorCallback (DOMException "Encode error: -541478725" "EncodingError")]
  ∧ _encodeQueueSize E encoded_again.2 = 1
  ∧ since E encoded_again.2 (flush E encoded_again.2) = [FlushResolved].
Proof. do 5 (split; [evaluate|]). evaluate. Qed.

(** C4, the claim as stated, fails: [reset] does not release the engine
    handle.  After it the wrapper is unconfigured with a counter of zero,
    but the addon still holds [codecCtx_] and the context is still open in
    the engine. *)
Lemma reset_does_not_release_the_handle :
  (reset E configured_once).1 = Ok ()
  ∧ _state E (reset E configured_once).2 = unconfigured
  ∧ _encodeQueueSize E (reset E configured_once).2 = 0
  ∧ handle E (reset E configured_once).2 = Some 0%nat
  ∧ open_handles E (reset E configured_once).2 = {[ 0%nat ]}
  ∧ handle E (reset E configured_once).2 ≠ None.
Proof. do 5 (split; [evaluate|]). vm_compute. discriminate. Qed.

End SessionRuns.

(** ** [reset] *)

Section ResetFacts.

Import Native Wrapper.

(** [avcodec_flush_buffers] frees nothing and opens nothing. *)
Lemma flush_buffers_opened P id s j :
  Libav.opened <$> (Libav.contexts (Libav.avcodec_flush_buffers P id s) !! j)
  = Libav.opened <$> (Libav.contexts s !! j).
Proof.
  unfold Libav.avcodec_flush_buffers.
  destruct (Libav.contexts s !! id) as [c|] eqn:Hc; [|done].
  destruct (Libav.encoder_flush_cap P (Libav.codec c)); [|done]. cbn.
  destruct (decide (id = j)) as [->|Hne].
  - by rewrite lookup_insert_eq, Hc.
  - by rewrite lookup_insert_ne.
Qed.

Lemma open_contexts_ext (m1 m2 : gmap nat Libav.AVCodecContext) :
  (∀ j, Libav.opened <$> (m1 !! j) = Libav.opened <$> (m2 !! j)) →
  dom (filter (λ kc, Libav.opened kc.2 = true) m1)
  = dom (filter (λ kc, Libav.opened kc.2 = true) m2).
Proof.
  intros H. apply set_eq. intros j.
  rewrite !elem_of_dom. unfold is_Some.
  setoid_rewrite map_lookup_filter_Some. cbn.
  specialize (H j). split; intros (c & Hc & Ho).
  - rewrite Hc in H. cbn in H. destruct (m2 !! j) as [c'|]; [|done].
    injection H as H. exists c'. split; [done|]. congruence.
  - rewrite Hc in H. cbn in H. destruct (m1 !! j) as [c'|]; [|done].
    injection H as H. exists c'. split; [done|]. congruence.
Qed.

(** [Reset] ends normally, calls nothing back and leaves the encoder
    object as it is; in the engine the same contexts are open. *)
Lemma Reset_spec P w :
  ∃ s, Reset P w = (Ok (), {| self := self w; av := s; calls := calls w |})
     ∧ ∀ j, Libav.opened <$> (Libav.contexts s !! j)
            = Libav.opened <$> (Libav.contexts (av w) !! j).
Proof.
  unfold Reset, member, this. cbn. unfold mbind, M_bind. cbn.
  destruct (codecCtx_ (self w)) as [id|]; cbn.
  - eexists. split; [done|]. intros j. apply flush_buffers_opened.
  - exists (av w). split; [|done]. by destruct w.
Qed.

(** C4 (amended).  On a session that is not closed and runs on the
    synchronous addon (or has no addon object yet), [reset] ends normally,
    sets the counter to zero, the state to unconfigured and forgets the
    configuration, with nothing delivered to the application; the engine
    handle is kept: the addon holds the same [codecCtx_] and the same
    contexts are open in the engine. *)
Theorem reset_keeps_the_handle (E : Env) (v : VideoEncoder E) :
  _state E v ≠ closed →
  (∀ a, _native E v ≠ Some (AsyncObject E a)) →
  ∃ v', reset E v = (Ok (), v')
      ∧ _state E v' = unconfigured
      ∧ _encodeQueueSize E v' = 0
      ∧ _config E v' = None
      ∧ seen E v' = seen E v
      ∧ handle E v' = handle E v
      ∧ open_handles E v' = open_handles E v.
Proof.
  intros Hstate Hsync. unfold reset.
  rewrite bool_decide_false by done.
  destruct (_native E v) as [[w|a]|] eqn:Hn; [| |by eexists].
  - unfold on_native. rewrite Hn.
    destruct (Reset_spec (platform E) w) as (s & -> & Hs). cbn.
    rewrite drop_all. cbn. eexists. split; [done|].
    repeat split; try done.
    + unfold handle. by rewrite Hn.
    + unfold open_handles. rewrite Hn. cbn. by apply open_contexts_ext.
  - by destruct (Hsync a).
Qed.

Lemma reset_keeps_the_handle_witness :
  let E := Scenario.env Scenario.software in
  let v := (configure E (Scenario.vp8_config 64 64) (new_VideoEncoder E)).2 in
  _state E v ≠ closed ∧
  ∃ v', reset E v = (Ok (), v') ∧ _state E v' = unconfigured
      ∧ handle E v' = handle E v.
Proof.
  intros E v.
  assert (_state E v ≠ closed) as Hstate.
  { intros H. vm_compute in H. discriminate H. }
  split; [exact Hstate|].
  assert (∃ w, _native E v = Some (SyncObject E w)) as [w Hw].
  { eexists. vm_compute. reflexivity. }
  destruct (reset_keeps_the_handle E v Hstate) as (v' & H1 & H2 & _ & _ & _ & H6 & _).
  - intros a. rewrite Hw. discriminate.
  - exists v'. auto.
Defined.

End ResetFacts.

(** ** The job queue: order of delivery *)

Section QueueFacts.

Import AsyncQueue.

Variable E : Engine.

Implicit Types (s : Session E) (d : list (nat * EncodeResult)).

Lemma invariant_open h : invariant E (open E h).
Proof. split; cbn; constructor. Qed.

Lemma results_not_flush_complete outs :
  Forall (λ r, isFlushComplete r = false) (result_of [] <$> outs).
Proof.
  apply Forall_fmap, Forall_forall. intros o _. by destruct o.
Qed.

(** The results of one job, in the order the worker delivers them. *)
Lemma one_job_sorted i (rs : list EncodeResult) (last : list EncodeResult) :
  Forall (λ r, isFlushComplete r = false) rs → (length last ≤ 1)%nat →
  StronglySorted (before) ((λ r, (i, r)) <$> (rs ++ last)).
Proof.
  intros Hrs Hlast. rewrite fmap_app. apply StronglySorted_app. split_and!.
  - intros x y (r & -> & Hr)%list_elem_of_fmap (r' & -> & _)%list_elem_of_fmap.
    split; [done|]. cbn. rewrite Forall_forall in Hrs. by rewrite (Hrs r Hr).
  - induction Hrs as [|r rs Hr _ IH]; cbn; constructor; [done|].
    apply Forall_fmap, Forall_forall. intros r' _. split; [done|]. cbn. by rewrite Hr.
  - destruct last as [|r [|]]; cbn in *; [constructor| |lia].
    repeat constructor.
Qed.

Lemma invariant_step s a : invariant E s → invariant E (step E s a).
Proof.
  intros [Hq Hk Hdk Hdf Hds]. destruct a as [j| |]; cbn.
  - (* enqueue *)
    unfold enqueue. split; cbn.
    + rewrite fmap_app. apply StronglySorted_app. split_and!; [|done|repeat constructor].
      intros x y Hx ->%list_elem_of_singleton.
      rewrite Forall_forall in Hk. by apply Hk.
    + rewrite fmap_app, Forall_app. split.
      * eapply Forall_impl; [exact Hk|]. cbn. intros; lia.
      * repeat constructor.
    + eapply Forall_impl; [exact Hdk|]. cbn. intros; lia.
    + rewrite Forall_forall in Hdf, Hdk |- *. intros x Hx.
      rewrite fmap_app, Forall_app. split; [by apply Hdf|].
      repeat constructor. cbn. by apply Hdk.
    + done.
  - (* work *)
    unfold work. destruct (jobQueue_ E s) as [|[i j] rest] eqn:Hqueue.
    { split; rewrite ?Hqueue; done. }
    cbn in Hq, Hk, Hdf.
    apply StronglySorted_cons in Hq as [Hi Hq]. apply Forall_cons in Hk as [Hik Hk].
    destruct (if isFlush j then _ else _) as [h outs]. 
    set (results := if isFlush j then _ else _).
    assert (StronglySorted (before) ((λ r, (i, r)) <$> results)) as Hnew.
    { subst results. destruct (isFlush j).
      - apply one_job_sorted; [apply results_not_flush_complete|done].
      - rewrite <- (app_nil_r (_ <$> outs)).
        apply one_job_sorted; [apply results_not_flush_complete|cbn; lia]. }
    split; cbn.
    + done.
    + done.
    + rewrite Forall_app. split; [done|].
      apply Forall_fmap, Forall_forall. by intros r _.
    + rewrite Forall_app. split.
      * eapply Forall_impl; [exact Hdf|]. cbn. intros x Hx.
        by apply Forall_cons in Hx as [_ Hx].
      * apply Forall_fmap, Forall_forall. by intros r _.
    + apply StronglySorted_app. split_and!; [|done..].
      intros x y Hx (r & -> & Hr)%list_elem_of_fmap.
      rewrite Forall_forall in Hdf. specialize (Hdf x Hx).
      apply Forall_cons in Hdf as [Hxi _]. split; cbn; lia.
  - (* discard *)
    split; cbn; try done; try constructor.
    eapply Forall_impl; [exact Hdf|]. cbn. intros. constructor.
Qed.

Lemma invariant_run steps s : invariant E s → invariant E (run E steps s).
Proof.
  revert s. induction steps as [|a steps IH]; intros s Hs; [done|].
  cbn. apply IH. by apply invariant_step.
Qed.

Lemma sorted_lookup {A} (R : relation A) (l : list A) i j x y :
  StronglySorted R l → l !! i = Some x → l !! j = Some y → (i < j)%nat → R x y.
Proof.
  intros Hl Hi Hj Hij. rewrite <- (take_drop j l) in Hl.
  eapply StronglySorted_app_1_elem_of; [done| |].
  - apply list_elem_of_lookup. exists i. by rewrite lookup_take_lt.
  - apply list_elem_of_lookup. exists 0%nat. by rewrite lookup_drop, Nat.add_0_r.
Qed.

Lemma worked_app h a b :
  worked E h (a ++ b)
  = ((worked E (worked E h a).1 b).1, (worked E h a).2 ++ (worked E (worked E h a).1 b).2).
Proof.
  revert h. induction a as [|[i j] a IH]; intros h; cbn.
  - by destruct (worked E h b).
  - destruct (if isFlush j then _ else _) as [h1 outs].
    rewrite IH. destruct (worked E h1 a) as [h2 d2]. cbn.
    by rewrite <- !app_assoc.
Qed.

Lemma work_worked s i j rest :
  jobQueue_ E s = (i, j) :: rest →
  jobQueue_ E (work E s) = rest
  ∧ enqueued E (work E s) = enqueued E s
  ∧ (engine E (work E s), delivered E (work E s))
    = ((worked E (engine E s) [(i, j)]).1,
       delivered E s ++ (worked E (engine E s) [(i, j)]).2).
Proof.
  intros Hq. unfold work. rewrite Hq. cbn.
  destruct (if isFlush j then _ else _) as [h1 outs]. cbn.
  split; [done|]. split; [done|]. f_equal. f_equal.
  rewrite app_nil_r. destruct (isFlush j).
  - by rewrite fmap_app, <- list_fmap_compose.
  - by rewrite app_nil_r, <- list_fmap_compose.
Qed.

Lemma enqueues_app a b : enqueues (a ++ b) = enqueues a ++ enqueues b.
Proof. apply omap_app. Qed.

Lemma run_snoc steps a s : run E (steps ++ [a]) s = step E (run E steps s) a.
Proof. unfold run. by rewrite foldl_app. Qed.

Lemma run_app steps more s : run E (steps ++ more) s = run E more (run E steps s).
Proof. unfold run. by rewrite foldl_app. Qed.

Lemma account_run h steps :
  ∃ taken, account E h steps (run E steps (open E h)) taken.
Proof.
  induction steps as [|a steps IH] using rev_ind.
  { exists []. split; cbn; try done; try constructor.
    - intros i j Hi. by apply elem_of_nil in Hi.
    - intros k Hk. lia. }
  destruct IH as [taken [Hw Hs Hj Hc Hg]]. rewrite run_snoc.
  set (s := run E steps (open E h)) in *.
  assert (∀ x, x ∈ fst <$> (taken ++ jobQueue_ E s) → (x < length (enqueues steps))%nat)
    as Hknown.
  { intros x ([i j] & -> & Hx)%list_elem_of_fmap. cbn.
    eapply lookup_lt_Some, Hj, Hx. }
  destruct a as [j| |]; cbn [step].
  - (* enqueue *)
    assert (enqueues (steps ++ [Enqueue j]) = enqueues steps ++ [j]) as He
      by (by rewrite enqueues_app).
    exists taken. unfold enqueue.
    split; rewrite ?He; cbn [engine delivered jobQueue_ enqueued].
    + done.
    + rewrite app_assoc, fmap_app. apply StronglySorted_app. split_and!; [|done|repeat constructor].
      intros x y Hx ->%list_elem_of_singleton. cbn. rewrite Hc. by apply Hknown.
    + intros i j'. rewrite app_assoc. intros [Hi|Hi%list_elem_of_singleton]%elem_of_app.
      * rewrite lookup_app_l; [by apply Hj|]. eapply lookup_lt_Some, Hj, Hi.
      * simplify_eq. rewrite Hc. rewrite lookup_app_r by lia.
        by rewrite Nat.sub_diag.
    + rewrite length_app. cbn. lia.
    + intros k Hk Hnot. rewrite app_assoc, fmap_app in Hnot.
      apply not_elem_of_app in Hnot as [Hnot Hne].
      cbn in Hne. apply not_elem_of_cons in Hne as [Hne _].
      rewrite length_app in Hk. cbn in Hk.
      destruct (Hg k) as (before & after & -> & Hkb & Hall); [lia|done|].
      exists before, (after ++ [Enqueue j]). split; [by rewrite <- app_assoc|].
      split; [done|]. rewrite app_assoc, fmap_app, Forall_app. split; [done|].
      repeat constructor. cbn. intros _. rewrite Hc.
      rewrite enqueues_app, length_app. lia.
  - (* work *)
    assert (enqueues (steps ++ [Work]) = enqueues steps) as He
      by (by rewrite enqueues_app, app_nil_r).
    destruct (jobQueue_ E s) as [|[i j] rest] eqn:Hq.
    + exists taken. unfold work. rewrite Hq.
      split; rewrite ?He, ?Hq; try done.
      intros k Hk Hnot. destruct (Hg k Hk Hnot) as (before & after & -> & Hkb & Hall).
      exists before, (after ++ [Work]). by rewrite <- app_assoc.
    + destruct (work_worked s i j rest Hq) as (Hq' & Hn' & Hd').
      exists (taken ++ [(i, j)]).
      split; rewrite ?He, ?Hq', ?Hn', <- ?app_assoc; cbn [app]; try done.
      * rewrite worked_app, Hw. cbn [fst snd]. by rewrite Hd'.
      * intros k Hk Hnot. destruct (Hg k Hk Hnot) as (before & after & -> & Hkb & Hall).
        exists before, (after ++ [Work]). by rewrite <- app_assoc.
  - (* discard *)
    assert (enqueues (steps ++ [Discard]) = enqueues steps) as He
      by (by rewrite enqueues_app, app_nil_r).
    exists taken. unfold discard.
    split; rewrite ?He; cbn [engine delivered jobQueue_ enqueued]; rewrite ?app_nil_r.
    + done.
    + rewrite fmap_app in Hs. by apply StronglySorted_app in Hs as (_ & Hs & _).
    + intros i j Hi. apply Hj, elem_of_app. by left.
    + done.
    + intros k Hk Hnot.
      destruct (decide (k ∈ fst <$> (taken ++ jobQueue_ E s))) as [Hin|Hout].
      * exists steps, []. split; [done|]. split; [done|].
        apply Forall_forall. intros x Hx Hlt. exfalso.
        rewrite fmap_app in Hin, Hs. apply elem_of_app in Hin as [Hin|Hin]; [done|].
        apply StronglySorted_app in Hs as (Hs & _ & _).
        specialize (Hs x k Hx Hin). lia.
      * destruct (Hg k Hk Hout) as (before & after & -> & Hkb & Hall).
        exists before, (after ++ [Discard]). split; [by rewrite <- app_assoc|].
        split; [done|]. rewrite fmap_app, Forall_app in Hall. by destruct Hall.
Qed.

(** A flush-complete result among what the worker delivers for [jobs]
    closes the results of its marker, and everything before it is all of
    what the older jobs and the marker gave. *)
Lemma worked_flush_complete jobs h p i r :
  (worked E h jobs).2 !! p = Some (i, r) → isFlushComplete r = true →
  ∃ older marker later,
    jobs = older ++ (i, marker) :: later ∧ isFlush marker = true
    ∧ take (S p) (worked E h jobs).2 = (worked E h (older ++ [(i, marker)])).2.
Proof.
  revert h p. induction jobs as [|[i0 j0] jobs IH]; intros h p; cbn; [done|].
  destruct (if isFlush j0 then _ else _) as [h1 outs] eqn:Hengine.
  destruct (worked E h1 jobs) as [h2 later] eqn:Hrest. cbn [snd].
  intros Hp Hfl.
  destruct (decide (p < length ((λ o, (i0, result_of [] o)) <$> outs))%nat) as [Hlt|Hge].
  { rewrite lookup_app_l in Hp by done.
    apply list_lookup_fmap_Some in Hp as (o & [= -> ->] & Ho).
    by destruct o. }
  rewrite lookup_app_r in Hp by lia.
  set (n := length ((λ o, (i0, result_of [] o)) <$> outs)) in *.
  destruct (isFlush j0) eqn:Hj0; cbn [app] in Hp |- *.
  - destruct (p - n)%nat as [|q] eqn:Hq; cbn in Hp.
    + simplify_eq. exists [], j0, jobs. split; [done|]. split; [done|].
      cbn. rewrite Hj0, Hengine. cbn.
      replace (S p) with (n + 1)%nat by lia.
      rewrite take_app_add'; [|done]. cbn. by rewrite ?app_nil_r.
    + specialize (IH h1 q). rewrite Hrest in IH.
      destruct (IH Hp Hfl) as (older & marker & after & -> & Hm & Htake).
      exists ((i0, j0) :: older), marker, after. split; [done|]. split; [done|].
      cbn. rewrite Hj0, Hengine.
      destruct (worked E h1 (older ++ [(i, marker)])) as [h3 d3]. cbn [snd] in *.
      replace (S p) with (n + S (S q))%nat by lia.
      rewrite take_app_add'; [|done]. cbn. by rewrite Htake.
  - specialize (IH h1 (p - n)%nat). rewrite Hrest in IH.
    destruct (IH Hp Hfl) as (older & marker & after & -> & Hm & Htake).
    exists ((i0, j0) :: older), marker, after. split; [done|]. split; [done|].
    cbn. rewrite Hj0, Hengine.
    destruct (worked E h1 (older ++ [(i, marker)])) as [h3 d3]. cbn [snd] in *.
    replace (S p) with (n + S (p - n))%nat by lia.
    rewrite take_app_add'; [|done]. by rewrite Htake.
Qed.

Lemma queue_worked_off_run s : queue_worked_off E s.
Proof.
  unfold queue_worked_off.
  remember (length (jobQueue_ E s)) as n eqn:Hn. revert s Hn.
  induction n as [|n IH]; intros s Hn; cbn.
  - destruct (jobQueue_ E s); [|done]. cbn. by rewrite app_nil_r.
  - destruct (jobQueue_ E s) as [|[i j] rest] eqn:Hq; [done|].
    destruct (work_worked s i j rest Hq) as (Hq' & _ & Hd').
    specialize (IH (work E s)). rewrite Hq' in IH.
    destruct IH as [IH1 IH2]; [cbn in Hn; lia|]. unfold run in IH1, IH2.
    split; [done|]. rewrite IH2.
    change ((i, j) :: rest) with ([(i, j)] ++ rest). rewrite worked_app.
    injection Hd' as -> ->. cbn [fst snd]. by rewrite app_assoc.
Qed.

Lemma delivered_grows more s : delivered E s `prefix_of` delivered E (run E more s).
Proof.
  revert s. induction more as [|a more IH]; intros s; [done|]. cbn.
  etrans; [|apply IH]. destruct a as [j| |]; cbn; [done| |done].
  unfold work. destruct (jobQueue_ E s) as [|[i j] rest]; [done|].
  destruct (if isFlush j then _ else _) as [h1 outs]. cbn. by apply prefix_app_r.
Qed.

(** C2.  Whatever the engine and however the caller's enqueues and resets
    interleave with the worker's rounds: results are delivered in the
    order their jobs were enqueued, and around a flush-complete result
    every result of a job enqueued before the marker stands before it,
    while everything delivered after it comes from jobs enqueued later.
    What is delivered is, job by job in enqueue order, everything the
    engine gave for the jobs the worker has taken, and no job is lost but
    by a reset.  When the flush-complete result of a marker is delivered,
    all results of all jobs enqueued before the marker (and not discarded
    by a reset in between) have been delivered before it, and none of
    these jobs is still queued.  The worker, left alone, delivers the
    results of every queued job; and what has been delivered stays in
    place whatever comes next. *)
Theorem results_delivered_in_enqueue_order (h : handle E) (steps : list Step) :
  in_enqueue_order (delivered E (run E steps (open E h)))
  ∧ flush_complete_last (delivered E (run E steps (open E h)))
  ∧ delivered_in_full E h steps (run E steps (open E h))
  ∧ flush_complete_after_all E h steps (run E steps (open E h))
  ∧ queue_worked_off E (run E steps (open E h))
  ∧ ∀ more, delivered E (run E steps (open E h))
            `prefix_of` delivered E (run E (steps ++ more) (open E h)).
Proof.
  pose proof (invariant_run steps _ (invariant_open h)) as [_ _ _ _ Hd].
  destruct (account_run h steps) as [taken [Hw Hs Hj Hc Hg]].
  set (s := run E steps (open E h)) in *.
  split_and!.
  - intros i j x y Hi Hj' Hij. by destruct (sorted_lookup _ _ _ _ _ _ Hd Hi Hj' Hij).
  - intros i j x y Hi Hfl Hj'. split.
    + intros Hlt. destruct (decide (j < i)%nat) as [|Hge]; [done|].
      destruct (decide (i = j)) as [->|Hne]; [simplify_eq; lia|].
      destruct (sorted_lookup _ _ _ _ _ _ Hd Hi Hj') as [? ?]; lia.
    + intros Hij. destruct (sorted_lookup _ _ _ _ _ _ Hd Hi Hj' Hij) as [_ H]. auto.
  - exists taken. split_and!; [done..|].
    intros k Hk.
    destruct (decide (k ∈ fst <$> (taken ++ jobQueue_ E s))) as [Hin|Hout]; [by left|].
    right. destruct (Hg k Hk Hout) as (before & after & -> & Hkb & _).
    exists (length (enqueues before)), before, after. split; [done|]. lia.
  - intros p i r Hp Hfl.
    assert ((worked E h taken).2 !! p = Some (i, r)) as Hp' by (by rewrite Hw).
    destruct (worked_flush_complete _ _ _ _ _ Hp' Hfl)
      as (older & marker & later & -> & Hm & Htake).
    rewrite Hw in Htake. cbn [snd] in Htake.
    rewrite <- app_assoc in Hs, Hj, Hg. cbn [app] in Hs, Hj, Hg.
    rewrite fmap_app in Hs. cbn [fmap list_fmap] in Hs.
    apply StronglySorted_app in Hs as (Hcross & Hsold & Hsrest).
    apply StronglySorted_cons in Hsrest as [Hafter Hsrest].
    exists older, marker. split_and!.
    + apply Hj. apply elem_of_app. right. by left.
    + done.
    + rewrite fmap_app. apply StronglySorted_app. split_and!; [|done|repeat constructor].
      intros x y Hx ->%list_elem_of_singleton. apply Hcross; [done|by left].
    + intros k j Hk. apply Hj, elem_of_app. by left.
    + intros k j Hki Hkj.
      assert (k < length (enqueues steps))%nat as Hk by (by eapply lookup_lt_Some).
      destruct (decide (k ∈ fst <$> (older ++ (i, marker) :: later ++ jobQueue_ E s)))
        as [Hin|Hout].
      * left. apply list_elem_of_fmap in Hin as ([k' j'] & -> & Hin). cbn in *.
        pose proof (Hj _ _ Hin) as Hj'. simplify_eq.
        apply elem_of_app in Hin as [Hin|Hin]; [done|]. exfalso.
        apply elem_of_cons in Hin as [Hin|Hin]; [simplify_eq; lia|].
        rewrite Forall_forall in Hafter.
        assert (i < k')%nat; [|lia].
        apply Hafter. apply list_elem_of_fmap. by exists (k', j).
      * right. destruct (Hg k Hk Hout) as (before & after & -> & Hkb & Hall).
        exists before, after. split; [done|]. split; [done|].
        rewrite Forall_forall in Hall. apply Hall; [|done].
        rewrite fmap_app. apply elem_of_app. right. by left.
    + done.
    + rewrite Forall_forall in Hafter |- *. intros k Hk. apply Hafter.
      rewrite fmap_app. apply elem_of_app. by right.
  - apply queue_worked_off_run.
  - intros more. rewrite run_app. apply delivered_grows.
Qed.

End QueueFacts.

(** Two frames, a flush marker and a third frame, with the worker running
    in between: the results come out in that order, the flush-complete
    result after both frames' chunks and before the third's. *)
Example queue_run :
  let E := {| AsyncQueue.handle := unit;
              AsyncQueue.submit := λ j h,
                (h, [Libav.Packet {| Libav.data := []; Libav.key_flag := false;
                                     Libav.pts := AsyncQueue.timestamp j;
                                     Libav.duration := 0;
                                     Libav.blockadditional := [] |}]);
              AsyncQueue.drain := λ h, (h, []) |} in
  let job t fl := {| AsyncQueue.frame := None; AsyncQueue.timestamp := t;
                     AsyncQueue.forceKeyframe := false; AsyncQueue.isFlush := fl |} in
  let s := AsyncQueue.run E
             [AsyncQueue.Enqueue (job 10 false); AsyncQueue.Enqueue (job 20 false);
              AsyncQueue.Work; AsyncQueue.Enqueue (job 0 true);
              AsyncQueue.Enqueue (job 30 false);
              AsyncQueue.Work; AsyncQueue.Work; AsyncQueue.Work]
             (AsyncQueue.open E ()) in
  (λ x, (x.1, AsyncQueue.pts x.2, AsyncQueue.isFlushComplete x.2))
    <$> AsyncQueue.delivered E s
  = [(0%nat, 10, false); (1%nat, 20, false); (2%nat, 0, true); (3%nat, 30, false)]
  ∧ AsyncQueue.pending E s = 0.
Proof. by vm_compute. Qed.

(** ** The open, and the software retry *)

Section NativeFacts.

Import Native.

Variable P : Libav.Platform.

(** *** Steps that only write into the codec context *)

Lemma upd_same w id c : Libav.contexts (av w) !! id = Some c → upd w id c = w.
Proof.
  intros H. destruct w as [e [m b n o] cs]. unfold upd, Libav.with_contexts. cbn in *.
  by rewrite insert_id.
Qed.

Lemma upd_upd w id c c' : upd (upd w id c) id c' = upd w id c'.
Proof.
  unfold upd, Libav.with_contexts. cbn. by rewrite insert_insert_eq.
Qed.

Lemma same_holdings_refl c : same_holdings c c.
Proof. by repeat split. Qed.

Lemma same_holdings_trans c1 c2 c3 :
  same_holdings c1 c2 → same_holdings c2 c3 → same_holdings c1 c3.
Proof.
  intros (H1 & H2 & H3) (H1' & H2' & H3'). repeat split; congruence.
Qed.

Lemma ctx_only_ret : ctx_only (mret ()).
Proof.
  intros w id c _ Hc. exists c. split; [apply same_holdings_refl|].
  by rewrite upd_same.
Qed.

Lemma ctx_only_on_ctx f :
  (∀ c, same_holdings c (f c)) → ctx_only (on_ctx f).
Proof.
  intros Hf w id c Hid Hc. exists (f c). split; [done|].
  unfold on_ctx, ctx_id, this, lib_, lib, mbind, M_bind. cbn. rewrite Hid. cbn.
  unfold upd, Libav.with_contexts. cbn. do 3 f_equal.
  apply map_eq. intros j. rewrite lookup_alter, lookup_insert.
  destruct (decide (id = j)) as [<-|]; [by rewrite Hc|done].
Qed.

Lemma ctx_only_seq m k : ctx_only m → ctx_only k → ctx_only (m ;; k).
Proof.
  intros Hm Hk w id c Hid Hc.
  destruct (Hm w id c Hid Hc) as (c1 & Hc1 & Hrun).
  destruct (Hk (upd w id c1) id c1 Hid) as (c2 & Hc2 & Hrun2).
  { cbn. apply lookup_insert_eq. }
  exists c2. split; [by eapply same_holdings_trans|].
  unfold mbind, M_bind. rewrite Hrun, Hrun2. by rewrite upd_upd.
Qed.

Lemma ctx_only_when b m : ctx_only m → ctx_only (when b m).
Proof. destruct b; [done|]. intros _. apply ctx_only_ret. Qed.

Lemma ctx_only_read (k : Libav.AVCodecContext → M unit) :
  (∀ c, ctx_only (k c)) → ctx_only (ctx ≫= k).
Proof.
  intros Hk w id c Hid Hc.
  destruct (Hk c w id c Hid Hc) as (c' & Hc' & Hrun).
  exists c'. split; [done|].
  unfold ctx, ctx_id, this, deref, mbind, M_bind. cbn. rewrite Hid. cbn.
  by rewrite Hc.
Qed.

Lemma ctx_only_field k v : ctx_only (field k v).
Proof. apply ctx_only_on_ctx. intros c. by repeat split. Qed.
Lemma ctx_only_av_opt_set k v : ctx_only (av_opt_set k v).
Proof. apply ctx_only_on_ctx. intros c. by repeat split. Qed.
Lemma ctx_only_av_opt_set_int k v : ctx_only (av_opt_set_int k v).
Proof. apply ctx_only_on_ctx. intros c. by repeat split. Qed.

Ltac ctx_only :=
  repeat first
    [ apply ctx_only_field | apply ctx_only_av_opt_set | apply ctx_only_av_opt_set_int
    | apply ctx_only_ret | apply ctx_only_seq | apply ctx_only_when
    | apply ctx_only_read; intros ?
    | match goal with |- ctx_only (if ?b then _ else _) => destruct b end ].

Lemma ctx_only_configureEncoderOptions n l :
  ctx_only (configureEncoderOptions n l).
Proof. unfold configureEncoderOptions. ctx_only. Qed.

(** *** What the release and free steps leave alone *)

Lemma unref_opens id s : Libav.opens (Libav.av_buffer_unref id s) = Libav.opens s.
Proof.
  unfold Libav.av_buffer_unref. repeat case_match; done.
Qed.

Lemma unref_opt_opens r s : Libav.opens (Libav.unref_opt r s) = Libav.opens s.
Proof. destruct r; [apply unref_opens|done]. Qed.

Lemma free_context_opens id s :
  Libav.opens (Libav.avcodec_free_context id s) = Libav.opens s.
Proof.
  unfold Libav.avcodec_free_context. case_match; [|done].
  by rewrite !unref_opt_opens.
Qed.

(** [av_buffer_unref] looks at the buffers only, and [avcodec_open2] and
    the allocation of a context leave them alone. *)
Lemma unref_buffers id s s' :
  Libav.buffers s = Libav.buffers s' →
  Libav.buffers (Libav.av_buffer_unref id s)
  = Libav.buffers (Libav.av_buffer_unref id s').
Proof.
  intros H. unfold Libav.av_buffer_unref. rewrite H.
  repeat case_match; cbn; by rewrite H.
Qed.

Lemma unref_opt_buffers r s s' :
  Libav.buffers s = Libav.buffers s' →
  Libav.buffers (Libav.unref_opt r s) = Libav.buffers (Libav.unref_opt r s').
Proof. destruct r; [apply unref_buffers|done]. Qed.

Lemma free_context_buffers id s c :
  Libav.contexts s !! id = Some c →
  Libav.buffers (Libav.avcodec_free_context id s)
  = Libav.buffers (Libav.unref_opt (Libav.hw_frames_ctx c)
                     (Libav.unref_opt (Libav.hw_device_ctx c) s)).
Proof.
  intros H. unfold Libav.avcodec_free_context. rewrite H.
  by apply unref_opt_buffers, unref_opt_buffers.
Qed.

(** The release of a member is [av_buffer_unref] on what it points to. *)
Lemma release_hwDeviceCtx_run w :
  release_hwDeviceCtx w
  = (Ok (), {| self := set_hwDeviceCtx_ None (self w);
               av := Libav.unref_opt (hwDeviceCtx_ (self w)) (av w);
               calls := calls w |}).
Proof.
  unfold release_hwDeviceCtx, member, this, lib_, lib, assign, mbind, M_bind. cbn.
  destruct (hwDeviceCtx_ (self w)) as [id|] eqn:H; cbn; [done|].
  destruct w as [[] ? ?]. cbn in *. by subst.
Qed.

Lemma release_hwFramesCtx_run w :
  release_hwFramesCtx w
  = (Ok (), {| self := set_hwFramesCtx_ None (self w);
               av := Libav.unref_opt (hwFramesCtx_ (self w)) (av w);
               calls := calls w |}).
Proof.
  unfold release_hwFramesCtx, member, this, lib_, lib, assign, mbind, M_bind. cbn.
  destruct (hwFramesCtx_ (self w)) as [id|] eqn:H; cbn; [done|].
  destruct w as [[] ? ?]. cbn in *. by subst.
Qed.

Lemma free_codecCtx_run w id :
  codecCtx_ (self w) = Some id →
  free_codecCtx w
  = (Ok (), {| self := set_codecCtx_ None (self w);
               av := Libav.avcodec_free_context id (av w); calls := calls w |}).
Proof.
  intros H. unfold free_codecCtx, member, this, lib_, lib, assign, mbind, M_bind.
  cbn. by rewrite H.
Qed.

Lemma open_codecCtx_run w id c :
  codecCtx_ (self w) = Some id →
  Libav.contexts (av w) !! id = Some c →
  ∃ s, open_codecCtx P w
       = (Ok (Libav.open2_ret P c), {| self := self w; av := s; calls := calls w |})
     ∧ Libav.opens s
       = Libav.opens (av w)
         ++ [(Libav.name (Libav.codec c), negb (Libav.open2_ret P c <? 0))]
     ∧ Libav.buffers s = Libav.buffers (av w)
     ∧ ∃ c', Libav.contexts s !! id = Some c' ∧ same_holdings c c'.
Proof.
  intros Hid Hc.
  unfold open_codecCtx, ctx_id, this, lib, mbind, M_bind. cbn. rewrite Hid. cbn.
  unfold Libav.avcodec_open2. rewrite Hc. cbn.
  eexists. split; [done|]. cbn. split; [done|]. split; [done|].
  eexists. split; [by rewrite lookup_insert_eq|].
  destruct (Libav.open2_ret P c <? 0); by repeat split.
Qed.

(** Running a context-only step in front of the rest. *)
Lemma ctx_only_then {B} m (k : () → M B) w id c :
  ctx_only m → codecCtx_ (self w) = Some id →
  ∃ c', same_holdings c c' ∧ (m ≫= k) (upd w id c) = k () (upd w id c').
Proof.
  intros Hm Hid. destruct (Hm (upd w id c) id c Hid) as (c' & Hc' & Hrun).
  { cbn. apply lookup_insert_eq. }
  exists c'. split; [done|]. unfold mbind, M_bind. by rewrite Hrun, upd_upd.
Qed.

(** *** Running a computation step by step *)

Lemma run_bind {A B} (m : M A) (k : A → M B) w :
  (m ≫= k) w = match m w with
               | (Ok a, w') => k a w'
               | (Throw e, w') => (Throw e, w')
               | (Segfault, w') => (Segfault, w')
               end.
Proof. reflexivity. Qed.

Lemma run_ok {A B} (m : M A) (k : A → M B) w a w1 :
  m w = (Ok a, w1) → (m ≫= k) w = k a w1.
Proof. intros H. unfold mbind, M_bind. by rewrite H. Qed.

Lemma run_member {A B} (f : Encoder → A) (k : A → M B) w :
  (member f ≫= k) w = k (f (self w)) w.
Proof. reflexivity. Qed.

Lemma run_assign {B} f (k : M B) w :
  (assign f ;; k) w = k {| self := f (self w); av := av w; calls := calls w |}.
Proof. reflexivity. Qed.

Lemma alloc_codecCtx_run w c :
  codec_ (self w) = Some c →
  alloc_codecCtx w
  = (Ok (), {| self := set_codecCtx_ (Some (Libav.next_id (av w))) (self w);
               av := (Libav.avcodec_alloc_context3 c (av w)).2; calls := calls w |}).
Proof.
  intros H. unfold alloc_codecCtx, member, this, lib, assign, mbind, M_bind. cbn.
  by rewrite H.
Qed.

Lemma codec_name_run w c :
  codec_ (self w) = Some c → codec_name w = (Ok (Libav.name c), w).
Proof.
  intros H. unfold codec_name, member, this, mbind, M_bind. cbn. by rewrite H.
Qed.

(** The software retry: both buffer members are released with
    [av_buffer_unref] and end up null; without a software encoder nothing
    is opened; with one, exactly one open is made, of that encoder, and
    its failure is thrown.  Nothing else touches the buffers. *)
Lemma software_fallback_run config codecName fps latencyMode errBuf w r w' :
  software_fallback P config codecName fps latencyMode errBuf w = (r, w') →
  hwDeviceCtx_ (self w') = None ∧ hwFramesCtx_ (self w') = None
  ∧ Libav.buffers (av w')
    = Libav.buffers (Libav.unref_opt (hwFramesCtx_ (self w))
                       (Libav.unref_opt (hwDeviceCtx_ (self w)) (av w)))
  ∧ configured_ (self w') = configured_ (self w)
  ∧ match Libav.info_codec (Libav.selectEncoder P codecName Libav.PreferSoftware
                              (width_ (self w)) (height_ (self w))) with
    | None =>
        r = Throw (Error ("Failed to open codec: " +:+ errBuf))
        ∧ Libav.opens (av w') = Libav.opens (av w)
    | Some sw =>
        hwType_ (self w') = Libav.HW_None
        ∧ ∃ ret, Libav.opens (av w')
                 = Libav.opens (av w) ++ [(Libav.name sw, negb (ret <? 0))]
          ∧ if ret <? 0
            then r = Throw (Error ("Failed to open codec: " +:+ Libav.strerror P ret))
                 ∧ codecCtx_ (self w') = None
            else r = Ok () ∧ is_Some (codecCtx_ (self w'))
    end.
Proof.
  unfold software_fallback.
  rewrite (run_ok _ _ _ _ _ (release_hwDeviceCtx_run w)).
  rewrite (run_ok _ _ _ _ _ (release_hwFramesCtx_run _)).
  cbn [self av calls].
  change (hwFramesCtx_ (set_hwDeviceCtx_ None (self w))) with (hwFramesCtx_ (self w)).
  set (s2 := Libav.unref_opt (hwFramesCtx_ (self w)) _).
  assert (Libav.opens s2 = Libav.opens (av w)) as Ho2
    by (subst s2; by rewrite !unref_opt_opens).
  rewrite !run_member. cbn [self av calls].
  change (width_ (set_hwFramesCtx_ None (set_hwDeviceCtx_ None (self w))))
    with (width_ (self w)).
  change (height_ (set_hwFramesCtx_ None (set_hwDeviceCtx_ None (self w))))
    with (height_ (self w)).
  destruct (Libav.info_codec _) as [sw|].
  2:{ by intros [= <- <-]. }
  rewrite !run_assign. cbn [self av calls].
  erewrite (run_ok alloc_codecCtx); [|by apply alloc_codecCtx_run].
  cbn [self av calls].
  set (id := Libav.next_id s2).
  set (w0 := {| self := _ |}).
  assert (codecCtx_ (self w0) = Some id) as Hid by done.
  assert (codec_ (self w0) = Some sw) as Hsw by done.
  assert (hwDeviceCtx_ (self w0) = None ∧ hwFramesCtx_ (self w0) = None
          ∧ configured_ (self w0) = configured_ (self w)
          ∧ hwType_ (self w0) = Libav.HW_None
          ∧ Libav.opens (av w0) = Libav.opens (av w)
          ∧ Libav.buffers (av w0) = Libav.buffers s2) as Hw0 by done.
  rewrite <- (upd_same w0 id (Libav.fresh_context sw)) by apply lookup_insert_eq.
  pose proof (same_holdings_refl (Libav.fresh_context sw)) as Hcodec.
  revert Hcodec. generalize (Libav.fresh_context sw) at 2 3 as c.
  clearbody w0 s2. intros c Hcodec.
  repeat lazymatch goal with
  | |- (field ?k ?v ≫= ?rest) (upd w0 id ?c) = _ → _ =>
      let c' := fresh "c" in let Hc' := fresh "Hc" in let Hrun := fresh "Hrun" in
      destruct (ctx_only_then (field k v) rest w0 id c (ctx_only_field k v) Hid)
        as (c' & Hc' & Hrun);
      rewrite Hrun; clear Hrun;
      pose proof (same_holdings_trans _ _ _ Hcodec Hc'); clear Hcodec Hc' c;
      rename H into Hcodec
  end.
  erewrite (run_ok codec_name); [|by apply codec_name_run].
  lazymatch goal with
  | |- (?m ≫= ?rest) (upd w0 id c) = _ → _ =>
      destruct (ctx_only_then m rest w0 id c (ctx_only_configureEncoderOptions _ _) Hid)
        as (c' & Hc' & ->)
  end.
  pose proof (same_holdings_trans _ _ _ Hcodec Hc') as Hsame. clear Hcodec Hc' c.
  destruct (open_codecCtx_run (upd w0 id c') id c' Hid)
    as (s & Hrun & Hopens & Hbufs & c'' & Hlive & Hsame').
  { apply lookup_insert_eq. }
  rewrite (run_ok _ _ _ _ _ Hrun). clear Hrun.
  pose proof (same_holdings_trans _ _ _ Hsame Hsame') as (_ & Hdev'' & Hfr'').
  destruct Hsame as (Hc' & _ & _). cbn in Hc', Hdev'', Hfr''.
  cbn in Hopens, Hbufs. rewrite Hc' in Hopens.
  destruct Hw0 as (Hdev & Hfr & Hconf & Hhw & Hop & Hbuf). rewrite Hop in Hopens.
  rewrite Hbuf in Hbufs.
  destruct (Libav.open2_ret P c' <? 0) eqn:Hret.
  - erewrite (run_ok free_codecCtx); [|by apply free_codecCtx_run].
    intros [= <- <-]. cbn. rewrite free_context_opens.
    rewrite (free_context_buffers _ _ _ Hlive), Hdev'', Hfr''. cbn.
    repeat split; try done.
    exists (Libav.open2_ret P c'). by rewrite Hret.
  - intros [= <- <-]. cbn.
    repeat split; try done.
    exists (Libav.open2_ret P c'). rewrite Hret. by rewrite Hid.
Qed.

(** Under the references [Configure] takes, dropping them all frees the
    two accelerator buffers and touches no other buffer. *)
Lemma released_frees w c b :
  accelerator_refs w c →
  Libav.buffers (released w c) !! b
  = if decide (b ∈ accelerator_buffers w) then None else Libav.buffers (av w) !! b.
Proof.
  unfold accelerator_refs, released, accelerator_buffers.
  destruct (hwDeviceCtx_ (self w)) as [d|].
  2:{ intros (-> & -> & ->). cbn. case_decide; [set_solver|done]. }
  intros [-> H].
  destruct (hwFramesCtx_ (self w)) as [f|]; cbn [option_list app Libav.unref_opt].
  - destruct H as (Hdf & Hd & H).
    assert (Libav.buffers (Libav.av_buffer_unref d (av w))
            = <[d := {| Libav.refcount := 2; Libav.device := None |}]>
                (Libav.buffers (av w))) as E1.
    { unfold Libav.av_buffer_unref. rewrite Hd. cbn.
      unfold Libav.drop_ref. by rewrite Hd. }
    set (s1 := Libav.av_buffer_unref d (av w)) in *. clearbody s1.
    assert (Libav.buffers s1 !! d
            = Some {| Libav.refcount := 2; Libav.device := None |}) as Hd1
      by (by rewrite E1, lookup_insert_eq).
    destruct H as [[-> Hf]|[-> Hf]]; cbn [Libav.unref_opt].
    + assert (Libav.buffers s1 !! f
              = Some {| Libav.refcount := 2; Libav.device := Some d |}) as Hf1
        by (by rewrite E1, lookup_insert_ne).
      assert (Libav.buffers (Libav.av_buffer_unref f s1)
              = <[f := {| Libav.refcount := 1; Libav.device := Some d |}]>
                  (Libav.buffers s1)) as E2.
      { unfold Libav.av_buffer_unref. rewrite Hf1. cbn.
        unfold Libav.drop_ref. by rewrite Hf1. }
      set (s2 := Libav.av_buffer_unref f s1) in *. clearbody s2.
      assert (Libav.buffers s2 !! d
              = Some {| Libav.refcount := 2; Libav.device := None |}) as Hd2
        by (by rewrite E2, lookup_insert_ne).
      assert (Libav.buffers (Libav.av_buffer_unref d s2)
              = <[d := {| Libav.refcount := 1; Libav.device := None |}]>
                  (Libav.buffers s2)) as E3.
      { unfold Libav.av_buffer_unref. rewrite Hd2. cbn.
        unfold Libav.drop_ref. by rewrite Hd2. }
      set (s3 := Libav.av_buffer_unref d s2) in *. clearbody s3.
      assert (Libav.buffers s3 !! f
              = Some {| Libav.refcount := 1; Libav.device := Some d |}) as Hf3
        by (by rewrite E3, lookup_insert_ne, E2, lookup_insert_eq).
      assert (Libav.buffers (Libav.av_buffer_unref f s3)
              = delete d (delete f (Libav.buffers s3))) as E4.
      { unfold Libav.av_buffer_unref. rewrite Hf3. cbn.
        unfold Libav.drop_ref at 2. rewrite Hf3.
        unfold Libav.drop_ref.
        by rewrite lookup_delete_ne, E3, lookup_insert_eq. }
      rewrite E4, E3, E2, E1.
      case_decide as Hb.
      * apply elem_of_cons in Hb as [->|Hb%list_elem_of_singleton].
        -- by rewrite lookup_delete_eq.
        -- subst b. by rewrite lookup_delete_ne, lookup_delete_eq.
      * apply not_elem_of_cons in Hb as [Hbd Hb].
        apply not_elem_of_cons in Hb as [Hbf _].
        by rewrite !lookup_delete_ne, lookup_insert_ne, lookup_insert_ne,
          lookup_insert_ne.
    + assert (Libav.buffers s1 !! f
              = Some {| Libav.refcount := 1; Libav.device := Some d |}) as Hf1
        by (by rewrite E1, lookup_insert_ne).
      assert (Libav.buffers (Libav.av_buffer_unref d s1)
              = <[d := {| Libav.refcount := 1; Libav.device := None |}]>
                  (Libav.buffers s1)) as E3.
      { unfold Libav.av_buffer_unref. rewrite Hd1. cbn.
        unfold Libav.drop_ref. by rewrite Hd1. }
      set (s3 := Libav.av_buffer_unref d s1) in *. clearbody s3.
      assert (Libav.buffers s3 !! f
              = Some {| Libav.refcount := 1; Libav.device := Some d |}) as Hf3
        by (by rewrite E3, lookup_insert_ne).
      assert (Libav.buffers (Libav.av_buffer_unref f s3)
              = delete d (delete f (Libav.buffers s3))) as E4.
      { unfold Libav.av_buffer_unref. rewrite Hf3. cbn.
        unfold Libav.drop_ref at 2. rewrite Hf3.
        unfold Libav.drop_ref.
        by rewrite lookup_delete_ne, E3, lookup_insert_eq. }
      rewrite E4, E3, E1.
      case_decide as Hb.
      * apply elem_of_cons in Hb as [->|Hb%list_elem_of_singleton].
        -- by rewrite lookup_delete_eq.
        -- subst b. by rewrite lookup_delete_ne, lookup_delete_eq.
      * apply not_elem_of_cons in Hb as [Hbd Hb].
        apply not_elem_of_cons in Hb as [Hbf _].
        by rewrite !lookup_delete_ne, lookup_insert_ne, lookup_insert_ne.
  - destruct H as [-> Hd]. cbn [Libav.unref_opt].
    assert (Libav.buffers (Libav.av_buffer_unref d (av w))
            = <[d := {| Libav.refcount := 1; Libav.device := None |}]>
                (Libav.buffers (av w))) as E1.
    { unfold Libav.av_buffer_unref. rewrite Hd. cbn.
      unfold Libav.drop_ref. by rewrite Hd. }
    set (s1 := Libav.av_buffer_unref d (av w)) in *. clearbody s1.
    assert (Libav.buffers s1 !! d
            = Some {| Libav.refcount := 1; Libav.device := None |}) as Hd1
      by (by rewrite E1, lookup_insert_eq).
    assert (Libav.buffers (Libav.av_buffer_unref d s1) = delete d (Libav.buffers s1))
      as E2.
    { unfold Libav.av_buffer_unref. rewrite Hd1. cbn.
      unfold Libav.drop_ref. by rewrite Hd1. }
    rewrite E2, E1. rewrite app_nil_r.
    case_decide as Hb.
    + apply list_elem_of_singleton in Hb as ->. by rewrite lookup_delete_eq.
    + apply not_elem_of_cons in Hb as [Hb _].
      by rewrite lookup_delete_ne, lookup_insert_ne.
Qed.

(** *** The references [Configure] takes *)

Lemma steady_no_buffers B : steady (no_buffers B).
Proof.
  split.
  - intros w e (Hd & Hf & Hfresh & HB) (_ & Hd' & Hf').
    split; [cbn; congruence|]. split; [cbn; congruence|done].
  - intros w id c c' (Hd & Hf & Hfresh & HB) _ _ _. by repeat split.
Qed.

Lemma steady_bare_context B : steady (bare_context B).
Proof.
  split.
  - intros w e [Hn (id & c & Hid & Hc & Hdev & Hfr)] Hsame.
    split; [by apply (proj1 (steady_no_buffers B))|].
    exists id, c. destruct Hsame as (Hid' & _). cbn. repeat split; congruence.
  - intros w id c c' [Hn (id0 & c0 & Hid0 & Hc0 & Hdev & Hfr)] Hid Hc Hsame.
    split; [by apply (proj2 (steady_no_buffers B) w id c c')|].
    destruct Hsame as (_ & Hdev' & Hfr'). simplify_eq. exists id0, c'. cbn.
    rewrite lookup_insert_eq. repeat split; congruence.
Qed.

Lemma steady_references_taken B : steady (references_taken B).
Proof.
  split.
  - intros w e [(id & c & Hid & Hc & Hrefs) HB] (Hid' & Hd' & Hf'). split.
    + exists id, c. cbn. split; [congruence|]. split; [done|].
      unfold accelerator_refs in *. cbn. by rewrite Hd', Hf'.
    + unfold accelerator_buffers in *. cbn. by rewrite Hd', Hf'.
  - intros w id c c' [(id0 & c0 & Hid0 & Hc0 & Hrefs) HB] Hid Hc (_ & Hdev' & Hfr').
    split; [|done].
    simplify_eq. exists id0, c'. cbn. rewrite lookup_insert_eq.
    split; [done|]. split; [done|].
    unfold accelerator_refs in *. cbn. by rewrite Hdev', Hfr'.
Qed.

Lemma leads_bind {A B} Pre Mid Post (m : M A) (k : A → M B) :
  leads Pre m Mid → (∀ a, leads Mid (k a) Post) → leads Pre (m ≫= k) Post.
Proof.
  intros Hm Hk w b w' Hw. rewrite run_bind.
  destruct (m w) as [[a| |] w1] eqn:Hrun; [|done..].
  intros Hrun'. eapply Hk; [|done]. by eapply Hm.
Qed.

Lemma leads_ret {A} I (x : A) : leads I (mret x) I.
Proof. by intros w a w' Hw [= _ <-]. Qed.

Lemma leads_throw {A} I Q e : leads I (throw (A:=A) e) Q.
Proof. by intros w a w' Hw. Qed.

Lemma leads_segfault {A} I Q : leads I (segfault (A:=A)) Q.
Proof. by intros w a w' Hw. Qed.

Lemma leads_member {A} I (f : Encoder → A) : leads I (member f) I.
Proof. by intros w a w' Hw [= _ <-]. Qed.

Lemma leads_codec_name I : leads I codec_name I.
Proof.
  intros w a w' Hw. unfold codec_name. rewrite run_member.
  destruct (codec_ (self w)); [|done]. by intros [= _ <-].
Qed.

Lemma leads_assign I f :
  steady I → (∀ e, same_pointers e (f e)) → leads I (assign f) I.
Proof.
  intros [HI _] Hf w a w' Hw [= _ <-]. by apply HI.
Qed.

Lemma leads_ctx_only I m :
  steady I → (∀ w, I w → ∃ id c, codecCtx_ (self w) = Some id
                           ∧ Libav.contexts (av w) !! id = Some c) →
  ctx_only m → leads I m I.
Proof.
  intros [_ HI] Hctx Hm w a w' Hw.
  destruct (Hctx w Hw) as (id & c & Hid & Hc).
  destruct (Hm w id c Hid Hc) as (c' & Hsame & ->). intros [= _ <-].
  by eapply HI.
Qed.

Lemma leads_when I b m : leads I m I → leads I (when b m) I.
Proof. destruct b; [done|]. intros _. apply leads_ret. Qed.

Lemma bare_context_has B w :
  bare_context B w →
  ∃ id c, codecCtx_ (self w) = Some id ∧ Libav.contexts (av w) !! id = Some c.
Proof. intros [_ (id & c & ? & ? & _)]. eauto. Qed.

Lemma references_taken_has B w :
  references_taken B w →
  ∃ id c, codecCtx_ (self w) = Some id ∧ Libav.contexts (av w) !! id = Some c.
Proof. intros [(id & c & ? & ? & _) _]. eauto. Qed.

Lemma leads_alloc_codecCtx B : leads (no_buffers B) alloc_codecCtx (bare_context B).
Proof.
  intros w a w' (Hd & Hf & Hfresh & HB). unfold alloc_codecCtx. rewrite run_member.
  destruct (codec_ (self w)) as [c|]; [|done].
  unfold lib, assign, mbind, M_bind. cbn. intros [= _ <-].
  split.
  - repeat split; [done..| |done]. intros k Hk. cbn in *. apply Hfresh. lia.
  - eexists _, _. cbn. split; [done|]. by rewrite lookup_insert_eq.
Qed.

Ltac quiet HI Hhas :=
  repeat first
    [ apply leads_ret | apply leads_throw | apply leads_segfault
    | apply leads_member | apply leads_codec_name
    | apply (leads_assign _ _ HI); intros ?; by repeat split
    | apply (leads_ctx_only _ _ HI Hhas);
        solve [repeat first [apply ctx_only_configureEncoderOptions | progress ctx_only]]
    | apply leads_when
    | eapply leads_bind; [|intros ?]
    | match goal with |- leads _ (match ?x with _ => _ end) _ => destruct x end ].

(** The accelerator part of [Configure]. *)
Lemma leads_accelerator B (b frames : bool) hwType (init : Z) :
  leads (bare_context B)
    (when b (
       dev ← lib (Libav.createHWDeviceContext P hwType);
       assign (set_hwDeviceCtx_ dev);;
       match dev with
       | Some d =>
           lib_ (Libav.av_buffer_ref d);;
           on_ctx (Libav.set_hw_device_ctx (Some d));;
           when frames (
             fr ← lib (Libav.av_hwframe_ctx_alloc P d);
             assign (set_hwFramesCtx_ fr);;
             match fr with
             | Some f =>
                 when (0 <=? init) (
                   lib_ (Libav.av_buffer_ref f);;
                   on_ctx (Libav.set_hw_frames_ctx (Some f)))
             | None => mret ()
             end)
       | None => mret ()
       end))
    (references_taken B).
Proof.
  intros [e s cs] a w' [(Hd & Hf & Hfresh & HB) (id & c & Hid & Hc & Hdev & Hfr)].
  cbn in Hd, Hf, Hfresh, HB, Hid, Hc. subst B.
  destruct b; cbn [when].
  2:{ intros [= _ <-]. split.
      - exists id, c. split; [done|]. split; [done|].
        unfold accelerator_refs. cbn. by rewrite Hd.
      - intros k. unfold accelerator_buffers. cbn. rewrite Hd, Hf. cbn.
        by rewrite decide_False by set_solver. }
  unfold lib, lib_, assign, on_ctx, ctx_id, this, mbind, M_bind,
    Libav.createHWDeviceContext, Libav.av_hwframe_ctx_alloc.
  cbn. destruct (Libav.createHWDeviceContext_ok P hwType); cbn.
  2:{ intros [= _ <-]. split.
      - exists id, c. cbn. split; [done|]. split; [done|].
        unfold accelerator_refs. by cbn.
      - intros k. unfold accelerator_buffers. cbn. rewrite Hf. cbn.
        by rewrite decide_False by set_solver. }
  rewrite Hid. cbn.
  set (d := Libav.next_id s).
  assert (Libav.buffers s !! d = None) as Hnew by (by apply Hfresh).
  assert (Libav.buffers s !! S d = None) as Hnew' by (apply Hfresh; lia).
  destruct frames; cbn [when].
  2:{ intros [= _ <-]. split.
      - eexists id, _. cbn. split; [done|]. split.
        { rewrite lookup_alter_eq, Hc. reflexivity. }
        unfold accelerator_refs. cbn. rewrite Hf. cbn. do 2 (split; [done|]).
        by rewrite lookup_alter_eq, lookup_insert_eq.
      - intros k. unfold accelerator_buffers. cbn. rewrite Hf. cbn.
        case_decide as Hk.
        + by apply list_elem_of_singleton in Hk as ->.
        + apply not_elem_of_cons in Hk as [Hk _].
          by rewrite lookup_alter_ne, lookup_insert_ne. }
  cbn. destruct (Libav.hwframe_ctx_alloc_ok P); cbn.
  2:{ intros [= _ <-]. split.
      - eexists id, _. cbn. split; [done|]. split.
        { rewrite lookup_alter_eq, Hc. reflexivity. }
        unfold accelerator_refs. cbn. do 2 (split; [done|]).
        by rewrite lookup_alter_eq, lookup_insert_eq.
      - intros k. unfold accelerator_buffers. cbn.
        case_decide as Hk.
        + by apply list_elem_of_singleton in Hk as ->.
        + apply not_elem_of_cons in Hk as [Hk _].
          by rewrite lookup_alter_ne, lookup_insert_ne. }
  assert (∀ k, k ∉ [d; S d] → k ≠ d ∧ k ≠ S d) as Hout.
  { intros k Hk. apply not_elem_of_cons in Hk as [? Hk].
    by apply not_elem_of_cons in Hk as [? _]. }
  assert (∀ k, k ∈ [d; S d] → Libav.buffers s !! k = None) as Hin.
  { intros k [->|Hk%list_elem_of_singleton]%elem_of_cons; [done|by subst]. }
  destruct (0 <=? init); cbn [when].
  - cbn. rewrite Hid. cbn. intros [= _ <-]. split.
    + eexists id, _. cbn. split; [done|]. split.
      { rewrite !lookup_alter_eq, Hc. reflexivity. }
      unfold accelerator_refs. cbn. split; [done|]. split; [lia|]. split.
      { by rewrite lookup_alter_ne, lookup_insert_ne, !lookup_alter_eq,
          lookup_insert_eq by lia. }
      left. split; [done|]. by rewrite lookup_alter_eq, lookup_insert_eq.
    + intros k. unfold accelerator_buffers. cbn. case_decide as Hk; [by apply Hin|].
      destruct (Hout k Hk).
      by rewrite lookup_alter_ne, lookup_insert_ne, !lookup_alter_ne,
        lookup_insert_ne.
  - intros [= _ <-]. split.
    + eexists id, _. cbn. split; [done|]. split.
      { rewrite !lookup_alter_eq, Hc. reflexivity. }
      unfold accelerator_refs. cbn. split; [done|]. split; [lia|]. split.
      { by rewrite lookup_insert_ne, !lookup_alter_eq, lookup_insert_eq by lia. }
      right. split; [done|]. by rewrite lookup_insert_eq.
    + intros k. unfold accelerator_buffers. cbn. case_decide as Hk; [by apply Hin|].
      destruct (Hout k Hk).
      by rewrite lookup_insert_ne, !lookup_alter_ne, lookup_insert_ne.
Qed.

Ltac walk B :=
  lazymatch goal with
  | |- leads (no_buffers B) (alloc_codecCtx ≫= _) _ =>
      apply (leads_bind (no_buffers B) (bare_context B));
        [apply leads_alloc_codecCtx|intros ?]
  | |- leads (bare_context B)
         (when _ (lib (Libav.createHWDeviceContext _ _) ≫= _) ≫= _) _ =>
      apply (leads_bind (bare_context B) (references_taken B));
        [apply leads_accelerator|intros ?]
  | |- leads (no_buffers B) (_ ≫= _) _ =>
      apply (leads_bind (no_buffers B) (no_buffers B));
        [solve [quiet (steady_no_buffers B) (bare_context_has B)]|intros ?]
  | |- leads (bare_context B) (_ ≫= _) _ =>
      apply (leads_bind (bare_context B) (bare_context B));
        [solve [quiet (steady_bare_context B) (bare_context_has B)]|intros ?]
  | |- leads (references_taken B) (_ ≫= _) _ =>
      apply (leads_bind (references_taken B) (references_taken B));
        [solve [quiet (steady_references_taken B) (references_taken_has B)]|intros ?]
  | |- leads (references_taken B) _ (references_taken B) =>
      solve [quiet (steady_references_taken B) (references_taken_has B)]
  end.

(** [Configure], down to "Open codec", on a session that holds no
    accelerator buffer: it ends with the references on the buffers it
    made that [accelerator_refs] describes, and has touched no other
    buffer. *)
Lemma leads_set_up B config :
  leads (no_buffers B) (set_up P config) (references_taken B).
Proof.
  unfold set_up, configure_temporal_layers. cbv zeta.
  repeat walk B.
Qed.

(** C3 (amended).  At "Open codec", with a hardware encoder selected and
    its open failing.  If the preference is "prefer hardware" the failure is
    thrown at once and that open is the only one made.  Otherwise the
    accelerator resources are released: every reference the session holds
    on a buffer is dropped with [av_buffer_unref] and both members are
    nulled, so that, with the references [Configure] takes, the device and
    the frames buffer are freed and no other buffer is touched; where
    [Configure] started on a session that held no accelerator buffer, the
    buffers are back to what they were before it.  Then a
    software encoder is looked for: if there is none the first failure is
    thrown with no second open; if there is one, exactly one more open is
    made, of that encoder without accelerator, and either it succeeds and
    the encoder is configured, or its failure is thrown and nothing more
    is tried. *)
Theorem open_failure_falls_back_once config w id c r w' :
  codecCtx_ (self w) = Some id →
  Libav.contexts (av w) !! id = Some c →
  hwType_ (self w) ≠ Libav.HW_None →
  Libav.open2_ret P c < 0 →
  open_or_fall_back P config w = (r, w') →
  let failure :=
    Throw (Error ("Failed to open codec: " +:+ Libav.strerror P (Libav.open2_ret P c))) in
  let first := (Libav.name (Libav.codec c), false) in
  if decide (hwPref_of P config = Libav.PreferHardware) then
    r = failure ∧ Libav.opens (av w') = Libav.opens (av w) ++ [first]
  else
    hwDeviceCtx_ (self w') = None ∧ hwFramesCtx_ (self w') = None
    ∧ Libav.buffers (av w') = Libav.buffers (released w c)
    ∧ (accelerator_refs w c →
       ∀ b, Libav.buffers (av w') !! b
            = if decide (b ∈ accelerator_buffers w) then None
              else Libav.buffers (av w) !! b)
    ∧ (∀ w0, hwDeviceCtx_ (self w0) = None → hwFramesCtx_ (self w0) = None →
             fresh_ids (av w0) → set_up P config w0 = (Ok (), w) →
             Libav.buffers (av w') = Libav.buffers (av w0))
    ∧ match Libav.info_codec (Libav.selectEncoder P (codec config) Libav.PreferSoftware
                                (width_ (self w)) (height_ (self w))) with
      | None => r = failure ∧ Libav.opens (av w') = Libav.opens (av w) ++ [first]
      | Some sw =>
          hwType_ (self w') = Libav.HW_None
          ∧ ∃ ret, Libav.opens (av w')
                   = Libav.opens (av w) ++ [first; (Libav.name sw, negb (ret <? 0))]
            ∧ if ret <? 0
              then r = Throw (Error ("Failed to open codec: " +:+ Libav.strerror P ret))
                   ∧ codecCtx_ (self w') = None
                   ∧ configured_ (self w') = configured_ (self w)
              else r = Ok () ∧ configured_ (self w') = true
                   ∧ is_Some (codecCtx_ (self w'))
      end.
Proof.
  intros Hid Hc Hhw Hret. unfold open_or_fall_back.
  destruct (open_codecCtx_run w id c Hid Hc)
    as (s & Hrun & Hopens & Hbufs & c1 & Hlive & Hsame).
  rewrite (run_ok _ _ _ _ _ Hrun). clear Hrun.
  apply Z.ltb_lt in Hret. rewrite Hret in Hopens |- *. cbn in Hopens.
  cbn iota.
  assert (Libav.buffers (Libav.avcodec_free_context id s)
          = Libav.buffers (Libav.unref_opt (Libav.hw_frames_ctx c)
                             (Libav.unref_opt (Libav.hw_device_ctx c) (av w))))
    as Hfree.
  { rewrite (free_context_buffers _ _ _ Hlive). destruct Hsame as (_ & -> & ->).
    by apply unref_opt_buffers, unref_opt_buffers. }
  lazymatch goal with
  | |- (?x ≫= ?k) ?w1 = _ → _ => destruct (x w1) as [r0 w2] eqn:Hx; rewrite (run_bind x k w1), Hx
  end.
  revert Hx.
  erewrite (run_ok free_codecCtx); [|by apply free_codecCtx_run].
  rewrite run_member. cbn [self av calls].
  change (hwType_ (set_codecCtx_ None (self w))) with (hwType_ (self w)).
  rewrite (bool_decide_true (hwType_ (self w) ≠ _)) by done. cbn [andb].
  destruct (decide (hwPref_of P config = Libav.PreferHardware)) as [Hpref|Hpref].
  - rewrite bool_decide_false by (intros H; by apply H).
    intros [= <- <-] [= <- <-]. cbn. by rewrite free_context_opens.
  - rewrite bool_decide_true by done.
    intros Hfb. apply software_fallback_run in Hfb.
    cbn [self av calls] in Hfb.
    destruct Hfb as (Hdev & Hfr & Hbuf & Hconf & Hfb).
    change (hwFramesCtx_ (set_codecCtx_ None (self w)))
      with (hwFramesCtx_ (self w)) in Hbuf.
    change (hwDeviceCtx_ (set_codecCtx_ None (self w)))
      with (hwDeviceCtx_ (self w)) in Hbuf.
    assert (Libav.buffers (av w2) = Libav.buffers (released w c)) as Hrel.
    { rewrite Hbuf. unfold released. by apply unref_opt_buffers, unref_opt_buffers. }
    assert (accelerator_refs w c →
            ∀ b, Libav.buffers (av w2) !! b
                 = if decide (b ∈ accelerator_buffers w) then None
                   else Libav.buffers (av w) !! b) as Hgone.
    { intros Hrefs b. rewrite Hrel. by apply released_frees. }
    assert (∀ w0, hwDeviceCtx_ (self w0) = None → hwFramesCtx_ (self w0) = None →
                  fresh_ids (av w0) → set_up P config w0 = (Ok (), w) →
                  Libav.buffers (av w2) = Libav.buffers (av w0)) as Hback.
    { intros w0 Hd0 Hf0 Hfresh0 Hsu.
      destruct (leads_set_up (Libav.buffers (av w0)) config w0 () w)
        as [(id' & c' & Hid' & Hc' & Hrefs) Hothers]; [by repeat split|done|].
      simplify_eq. apply map_eq. intros b. rewrite (Hgone Hrefs b).
      specialize (Hothers b). by case_decide. }
    change (width_ (set_codecCtx_ None (self w))) with (width_ (self w)) in Hfb.
    change (height_ (set_codecCtx_ None (self w))) with (height_ (self w)) in Hfb.
    rewrite free_context_opens, Hopens in Hfb.
    destruct (Libav.info_codec _) as [sw|].
    + destruct Hfb as (Hhw' & ret & Hop & Hres).
      rewrite <- app_assoc in Hop. cbn in Hop.
      destruct (ret <? 0) eqn:Hr.
      * destruct Hres as [-> Hnone]. intros [= <- <-].
        do 5 (split; [done|]). split; [done|].
        exists ret. rewrite Hr. by rewrite Hop.
      * destruct Hres as [-> Hsome]. intros [= <- <-]. cbn.
        do 5 (split; [done|]). split; [done|].
        exists ret. rewrite Hr. by rewrite Hop.
    + destruct Hfb as [-> Hop]. by intros [= <- <-].
Qed.

End NativeFacts.

Lemma open_failure_falls_back_once_witness :
  let P := Scenario.broken_hardware Scenario.software_info false in
  let config := Scenario.vp8 None None None in
  let w := Scenario.after (Native.set_up P config) Native.start in
  Native.codecCtx_ (Native.self w) = Some 0%nat
  ∧ Native.hwType_ (Native.self w) ≠ Libav.HW_None
  ∧ Native.hwPref_of P config ≠ Libav.PreferHardware
  ∧ Native.accelerator_buffers w = [1%nat; 2%nat]
  ∧ (∀ b, b ∈ Native.accelerator_buffers w →
          is_Some (Libav.buffers (Native.av w) !! b)
          ∧ Libav.buffers (Native.av (Native.open_or_fall_back P config w).2) !! b
            = None)
  ∧ Libav.buffers (Native.av (Native.open_or_fall_back P config w).2) = ∅
  ∧ ∃ ret, Libav.opens (Native.av (Native.open_or_fall_back P config w).2)
           = [("vp8_vaapi", false); ("libvpx", negb (ret <? 0))].
Proof.
  intros P config w.
  assert (Native.codecCtx_ (Native.self w) = Some 0%nat) as Hid by (by vm_compute).
  assert (Native.hwType_ (Native.self w) ≠ Libav.HW_None) as Hhw by (by vm_compute).
  assert (∃ c, Libav.contexts (Native.av w) !! 0%nat = Some c
               ∧ Libav.open2_ret P c < 0
               ∧ Libav.name (Libav.codec c) = "vp8_vaapi"
               ∧ Native.accelerator_refs w c)
    as (c & Hc & Hret & Hname & Hrefs).
  { eexists. split; [vm_compute; reflexivity|]. split; [vm_compute; reflexivity|].
    split; [vm_compute; reflexivity|].
    vm_compute. split; [reflexivity|]. split; [discriminate|].
    split; [reflexivity|]. left. split; reflexivity. }
  destruct (Native.open_or_fall_back P config w) as [r w'] eqn:Hrun.
  pose proof (open_failure_falls_back_once P config w 0%nat c r w'
                Hid Hc Hhw Hret Hrun) as H.
  split; [exact Hid|]. split; [exact Hhw|]. split; [vm_compute; discriminate|].
  destruct (decide (Native.hwPref_of P config = Libav.PreferHardware)) as [Hp|_];
    [vm_compute in Hp; discriminate Hp|].
  destruct H as (_ & _ & _ & Hgone & Hback & H).
  specialize (Hgone Hrefs). clear Hrefs.
  assert (Native.accelerator_buffers w = [1%nat; 2%nat]) as Hbufs
    by (vm_compute; reflexivity).
  split; [exact Hbufs|]. split.
  { intros b Hb. cbn [snd]. rewrite (Hgone b), decide_True by exact Hb.
    split; [|reflexivity]. rewrite Hbufs in Hb.
    apply elem_of_cons in Hb as [->|Hb%list_elem_of_singleton]; [|subst b];
      vm_compute; eauto. }
  split.
  { cbn [snd]. apply (Hback Native.start); [reflexivity..| |].
    - intros k _. apply lookup_empty.
    - subst w. unfold Scenario.after.
      destruct (Native.set_up P config Native.start) as [r0 w0] eqn:Hsu.
      assert (r0 = Native.Ok ()) as ->; [|reflexivity].
      change r0 with (r0, w0).1. rewrite <- Hsu. vm_compute. reflexivity. }
  change (Libav.info_codec
            (Libav.selectEncoder P (Native.codec config) Libav.PreferSoftware
               (Native.width_ (Native.self w)) (Native.height_ (Native.self w))))
    with (Some {| Libav.name := "libvpx" |}) in H.
  destruct H as (_ & ret & Hop & _). exists ret. cbn [snd]. rewrite Hop.
  assert (Libav.opens (Native.av w) = []) as -> by (by vm_compute).
  by rewrite Hname.
Defined.

(** The whole of [Configure] on a machine whose VAAPI encoder does not
    open: with a software encoder that opens, the session ends up
    configured on it after two opens; with one that does not open, the
    second failure is thrown after two opens; with "prefer hardware", the
    first failure is thrown after one. *)
Example configure_falls_back_to_software :
  let run := Native.Configure (Scenario.broken_hardware Scenario.software_info true)
               (Some (Scenario.vp8 None None None)) Native.start in
  run.1 = Native.Ok ()
  ∧ Libav.opens (Native.av run.2) = [("vp8_vaapi", false); ("libvpx", true)]
  ∧ Native.hwType_ (Native.self run.2) = Libav.HW_None
  ∧ Libav.buffers (Native.av run.2) = ∅.
Proof. do 3 (split; [vm_compute; reflexivity|]). vm_compute. reflexivity. Qed.

Example configure_second_failure_is_fatal :
  let run := Native.Configure (Scenario.broken_hardware Scenario.software_info false)
               (Some (Scenario.vp8 None None None)) Native.start in
  run.1 = Native.Throw (Native.Error "Failed to open codec: -22")
  ∧ Libav.opens (Native.av run.2) = [("vp8_vaapi", false); ("libvpx", false)]
  ∧ Native.configured_ (Native.self run.2) = false.
Proof. do 2 (split; [vm_compute; reflexivity|]). vm_compute. reflexivity. Qed.

Example configure_prefer_hardware_does_not_retry :
  let run := Native.Configure (Scenario.broken_hardware Scenario.software_info true)
               (Some (Scenario.vp8 (Some "prefer-hardware") None None)) Native.start in
  run.1 = Native.Throw (Native.Error "Failed to open codec: -5")
  ∧ Libav.opens (Native.av run.2) = [("vp8_vaapi", false)].
Proof. split; vm_compute; reflexivity. Qed.

(** C3, the claim as stated, fails where no software encoder exists for the
    codec: the hardware open fails, the preference is not "prefer
    hardware", and [Configure] throws the first failure without a second
    open: the log holds one open, not two. *)
Lemma no_software_encoder_no_retry :
  let P := Scenario.broken_hardware Scenario.no_info true in
  let config := Scenario.vp8 None None None in
  let run := Native.Configure P (Some config) Native.start in
  Native.hwPref_of P config = Libav.NoPreference
  ∧ run.1 = Native.Throw (Native.Error "Failed to open codec: -5")
  ∧ Libav.opens (Native.av run.2) = [("vp8_vaapi", false)]
  ∧ length (Libav.opens (Native.av run.2)) ≠ 2%nat.
Proof.
  do 3 (split; [vm_compute; reflexivity|]). vm_compute. discriminate.
Qed.

(** ** The bitrates of the temporal layers *)

(** The layer targets are computed in [double]: [bitrate_ * 0.6 / 1000],
    truncated to [int].  The facts below follow the rounding of the
    multiplication and of the division through SpecFloat's definitions, and
    show that the result is the integer quotient. *)

Section LayerFacts.

Import Native.

(** *** Binary digits *)

Lemma digits2_pos_bounds (p : positive) :
  2 ^ (Z.pos (digits2_pos p) - 1) ≤ Z.pos p < 2 ^ Z.pos (digits2_pos p).
Proof.
  induction p as [p IH|p IH|]; cbn [digits2_pos].
  - rewrite Pos2Z.inj_succ, (Pos2Z.inj_xI p).
    replace (Z.succ (Z.pos (digits2_pos p)) - 1)
      with (Z.succ (Z.pos (digits2_pos p) - 1)) by lia.
    rewrite !Z.pow_succ_r by lia. revert IH.
    generalize (2 ^ (Z.pos (digits2_pos p) - 1)) (2 ^ Z.pos (digits2_pos p)).
    intros lo hi IH. lia.
  - rewrite Pos2Z.inj_succ, (Pos2Z.inj_xO p).
    replace (Z.succ (Z.pos (digits2_pos p)) - 1)
      with (Z.succ (Z.pos (digits2_pos p) - 1)) by lia.
    rewrite !Z.pow_succ_r by lia. revert IH.
    generalize (2 ^ (Z.pos (digits2_pos p) - 1)) (2 ^ Z.pos (digits2_pos p)).
    intros lo hi IH. lia.
  - cbn. lia.
Qed.

Lemma digits2_pos_unique (p : positive) (k : Z) :
  2 ^ (k - 1) ≤ Z.pos p < 2 ^ k → Z.pos (digits2_pos p) = k.
Proof.
  intros [Hlo Hhi]. pose proof (digits2_pos_bounds p) as [Hlo' Hhi'].
  assert (0 < k).
  { destruct (decide (0 < k)); [done|].
    assert (2 ^ k ≤ 1); [|lia].
    destruct (decide (k = 0)) as [->|]; [done|]. rewrite Z.pow_neg_r by lia. lia. }
  destruct (Z.lt_trichotomy (Z.pos (digits2_pos p)) k) as [Hlt|[Heq|Hgt]]; [|done|].
  - assert (2 ^ Z.pos (digits2_pos p) ≤ 2 ^ (k - 1)) by (apply Z.pow_le_mono_r; lia).
    lia.
  - assert (2 ^ k ≤ 2 ^ (Z.pos (digits2_pos p) - 1)) by (apply Z.pow_le_mono_r; lia).
    lia.
Qed.

Lemma digits_below (b : positive) (k : Z) :
  0 ≤ k → Z.pos b < 2 ^ k → Z.pos (digits2_pos b) ≤ k.
Proof.
  intros Hk Hb. pose proof (digits2_pos_bounds b) as [Hlo _].
  destruct (decide (Z.pos (digits2_pos b) ≤ k)); [done|].
  assert (2 ^ k ≤ 2 ^ (Z.pos (digits2_pos b) - 1)) by (apply Z.pow_le_mono_r; lia).
  lia.
Qed.

Lemma digits_53 (m : positive) :
  2 ^ 52 ≤ Z.pos m < 2 ^ 53 → Z.pos (digits2_pos m) = 53.
Proof. intros. by apply digits2_pos_unique. Qed.

Lemma pos_iter_xO (m p : positive) :
  Z.pos (Pos.iter xO m p) = Z.pos m * 2 ^ Z.pos p.
Proof.
  rewrite <- Z.shiftl_mul_pow2 by lia. cbn [Z.shiftl].
  by apply (Pos.iter_swap_gen _ _ Z.pos xO (Z.mul 2)).
Qed.

(** *** Shifting right with a round bit and a sticky bit *)

Lemma shr_1_spec m r s :
  0 ≤ m →
  shr_1 {| shr_m := m; shr_r := r; shr_s := s |}
  = {| shr_m := m / 2; shr_r := Z.odd m; shr_s := r || s |}.
Proof.
  intros Hm. rewrite <- Z.div2_div.
  destruct m as [|[p|p|]|]; try done; lia.
Qed.

Lemma iter_pos_nat {A} (f : A → A) (n : positive) (x : A) :
  SpecFloat.iter_pos f n x = Nat.iter (Pos.to_nat n) f x.
Proof.
  revert x. induction n as [n IH|n IH|]; intros x; cbn [SpecFloat.iter_pos].
  - rewrite !IH, Pos2Nat.inj_xI, <- Nat.iter_succ_r, <- Nat.iter_add.
    f_equal. lia.
  - rewrite !IH, Pos2Nat.inj_xO, <- Nat.iter_add. f_equal. lia.
  - done.
Qed.

Lemma mod_pow2_succ m j :
  0 ≤ j →
  (m mod 2 ^ (j + 1) =? 0) = negb (Z.odd (m / 2 ^ j)) && (m mod 2 ^ j =? 0).
Proof.
  intros Hj. rewrite Z.pow_add_r, Z.pow_1_r by lia.
  rewrite Z.rem_mul_r by lia.
  pose proof (Z.mod_pos_bound m (2 ^ j) ltac:(lia)).
  pose proof (Z.mod_pos_bound (m / 2 ^ j) 2 ltac:(lia)).
  rewrite (Zmod_odd (m / 2 ^ j)) in *.
  destruct (Z.odd (m / 2 ^ j)); cbn.
  - apply Z.eqb_neq. nia.
  - f_equal. lia.
Qed.

(** After [j + 1] shifts the record holds the quotient by [2 ^ (j + 1)],
    the last bit shifted out, and whether anything below it was set. *)
Lemma shr_iter_spec m r s (j : nat) :
  0 ≤ m →
  Nat.iter (S j) shr_1 {| shr_m := m; shr_r := r; shr_s := s |}
  = {| shr_m := m / 2 ^ Z.of_nat (S j);
       shr_r := Z.odd (m / 2 ^ Z.of_nat j);
       shr_s := negb (m mod 2 ^ Z.of_nat j =? 0) || r || s |}.
Proof.
  intros Hm. induction j as [|j IH].
  - cbn [Nat.iter]. rewrite shr_1_spec by done. cbn.
    by rewrite Z.div_1_r, Z.mod_1_r.
  - rewrite Nat.iter_succ, IH. rewrite shr_1_spec by (apply Z.div_pos; lia).
    f_equal.
    + rewrite Z.div_div by lia. f_equal.
      rewrite (Nat2Z.inj_succ (S j)), Z.pow_succ_r; lia.
    + rewrite (Nat2Z.inj_succ j). unfold Z.succ. rewrite mod_pow2_succ by lia.
      destruct (Z.odd _), (_ =? 0), r, s; done.
Qed.

(** *** Rounding to nearest, ties to even *)

(** Without a shift: the rounded mantissa is within half a unit of the
    exact value [m + R / D]. *)
Lemma round_no_shift m R D :
  0 ≤ R < D →
  let m1 := round_nearest_even m (location_of R D) in
  (m1 = m ∨ m1 = m + 1) ∧ - D ≤ 2 * (m1 * D - (m * D + R)) ≤ D.
Proof.
  intros HR. unfold location_of. destruct (Z.eqb_spec R 0) as [->|HR0]; cbn.
  { split; [by left|lia]. }
  destruct (Z.compare_spec (2 * R) D); cbn.
  - destruct (Z.even m); (split; [by auto|lia]).
  - split; [by left|lia].
  - split; [by right|lia].
Qed.

(** With a shift by [n]: within half of [2 ^ n]. *)
Lemma shr_round_spec m e R D n mrs e1 :
  0 ≤ m → 0 ≤ R < D → 0 ≤ n →
  shr (shr_record_of_loc m (location_of R D)) e n = (mrs, e1) →
  let m1 := round_nearest_even (shr_m mrs) (loc_of_shr_record mrs) in
  e1 = e + n ∧ (m1 = m / 2 ^ n ∨ m1 = m / 2 ^ n + 1)
  ∧ - (2 ^ n * D) ≤ 2 * (m1 * 2 ^ n * D - (m * D + R)) ≤ 2 ^ n * D.
Proof.
  intros Hm HR Hn Hshr. destruct n as [|p|p]; [| |lia].
  - cbn in Hshr. injection Hshr as <- <-. cbn zeta.
    replace (loc_of_shr_record _) with (location_of R D)
      by (by destruct (location_of R D) as [|[]]).
    replace (shr_m _) with m by (by destruct (location_of R D) as [|[]]).
    pose proof (round_no_shift m R D HR) as [Hm1 Hbound]. cbn zeta in *.
    rewrite Z.div_1_r. split; [lia|]. split; [done|]. lia.
  - cbn [shr] in Hshr. rewrite iter_pos_nat in Hshr.
    destruct (Pos2Nat.is_succ p) as [j Hj].
    assert (Z.pos p = Z.of_nat j + 1) as -> by lia.
    rewrite Hj in Hshr.
    assert (∃ r s, shr_record_of_loc m (location_of R D) = Build_shr_record m r s
              ∧ (r = false → s = false → R = 0)) as (r & s & Hrec & Hexact).
    { unfold location_of. destruct (Z.eqb_spec R 0); [by eexists _, _|].
      destruct (2 * R ?= D); by eexists _, _. }
    rewrite Hrec, shr_iter_spec in Hshr by done. injection Hshr as <- <-.
    cbn zeta. cbn [shr_m loc_of_shr_record].
    split; [lia|].
    rewrite Nat2Z.inj_succ. unfold Z.succ.
    assert (0 ≤ Z.of_nat j) as Hj0 by lia. revert Hj0.
    generalize (Z.of_nat j). clear j Hj. intros j Hj.
    rewrite Z.pow_add_r, Z.pow_1_r by lia.
    assert (0 < 2 ^ j) as HT by lia. revert HT.
    rewrite <- Z.div_div by lia.
    pose proof (Z.div_mod m (2 ^ j) ltac:(lia)) as Hdm.
    pose proof (Z.mod_pos_bound m (2 ^ j) ltac:(lia)) as Hb.
    pose proof (Z.div_mod (m / 2 ^ j) 2 ltac:(lia)) as Hdm2.
    rewrite (Zmod_odd (m / 2 ^ j)) in Hdm2.
    revert Hdm Hb Hdm2.
    generalize (m mod 2 ^ j); intros b. generalize (m / 2 ^ j / 2); intros a2.
    generalize (m / 2 ^ j); intros a. generalize (2 ^ j); intros T Hdm Hb Ha HT.
    assert (D ≤ T * D) as HTD by nia.
    assert (0 ≤ b * D ≤ T * D - D) as HbD by nia.
    destruct (Z.odd a); (destruct (Z.eqb_spec b 0) as [->|Hb0]);
      subst m a; destruct r, s; cbn [negb orb round_nearest_even];
      try (split; [by auto|lia]).
    destruct (Z.even a2); (split; [by auto|]); rewrite Hexact by done; lia.
Qed.

(** [binary_round_aux] on a mantissa of [k ≥ 53] digits, in the range of
    the normal numbers: a 53-digit mantissa within half of [2 ^ (k - 53)]
    of the exact value. *)
Lemma binary_round_aux_spec (m : positive) (e R D : Z) :
  let k := Z.pos (digits2_pos m) in
  0 ≤ R < D → 53 ≤ k → -1074 ≤ k + e - 53 → k + e - 52 ≤ 971 →
  ∃ m' e',
    binary_round_aux prec emax false (Z.pos m) e (location_of R D)
    = S754_finite false m' e'
    ∧ 2 ^ 52 ≤ Z.pos m' < 2 ^ 53
    ∧ (e' = e + (k - 53) ∨ e' = e + (k - 52))
    ∧ - (2 ^ (k - 53) * D)
      ≤ 2 * (Z.pos m' * 2 ^ (e' - e) * D - (Z.pos m * D + R))
      ≤ 2 ^ (k - 53) * D.
Proof.
  intros k HR Hk Hlo Hhi.
  unfold binary_round_aux, shr_fexp. cbn [Zdigits2]. fold k.
  assert (fexp prec emax (k + e) - e = k - 53) as ->
    by (unfold fexp, emin, prec, emax; lia).
  destruct (shr _ e (k - 53)) as [mrs e1] eqn:Hshr.
  apply shr_round_spec in Hshr as (-> & Hm1 & Hbound); [|lia..].
  revert Hm1 Hbound.
  generalize (round_nearest_even (shr_m mrs) (loc_of_shr_record mrs)).
  intros m1 Hm1 Hbound.
  pose proof (digits2_pos_bounds m) as [Hdlo Hdhi]. fold k in Hdlo, Hdhi.
  assert (2 ^ 52 ≤ Z.pos m / 2 ^ (k - 53) < 2 ^ 53) as Hq.
  { assert (0 < 2 ^ (k - 53)) by lia. split.
    - apply Z.div_le_lower_bound; [done|]. rewrite <- Z.pow_add_r by lia.
      by replace (k - 53 + 52) with (k - 1) by lia.
    - apply Z.div_lt_upper_bound; [done|]. rewrite <- Z.pow_add_r by lia.
      by replace (k - 53 + 53) with k by lia. }
  destruct (decide (m1 < 2 ^ 53)) as [Hlt|Hge].
  - destruct m1 as [|m1|m1]; [lia| |lia].
    assert (Z.pos (digits2_pos m1) = 53) as Hd by (apply digits2_pos_unique; lia).
    cbn [Zdigits2]. rewrite Hd.
    assert (fexp prec emax (53 + (e + (k - 53))) - (e + (k - 53)) = 0) as ->
      by (unfold fexp, emin, prec, emax; lia).
    cbn [shr shr_record_of_loc shr_m].
    assert ((e + (k - 53) <=? emax - prec) = true) as ->
      by (unfold prec, emax; lia).
    exists m1, (e + (k - 53)). split; [done|]. split; [lia|]. split; [by left|].
    by replace (e + (k - 53) - e) with (k - 53) by lia.
  - assert (m1 = 2 ^ 53) as -> by lia.
    change (Zdigits2 (2 ^ 53)) with 54.
    assert (fexp prec emax (54 + (e + (k - 53))) - (e + (k - 53)) = 1) as ->
      by (unfold fexp, emin, prec, emax; lia).
    cbn [shr shr_record_of_loc SpecFloat.iter_pos].
    change (shr_m (shr_1 _)) with (2 ^ 52).
    change (2 ^ 52) with (Z.pos 4503599627370496) at 1.
    assert ((e + (k - 53) + 1 <=? emax - prec) = true) as ->
      by (unfold prec, emax; lia).
    exists 4503599627370496%positive, (e + (k - 53) + 1).
    split; [done|]. split; [done|]. split; [right; lia|].
    replace (e + (k - 53) + 1 - e) with (k - 53 + 1) by lia.
    rewrite Z.pow_add_r by lia.
    change (Z.pos 4503599627370496 * (2 ^ (k - 53) * 2 ^ 1))
      with (2 ^ 52 * (2 ^ (k - 53) * 2 ^ 1)).
    replace (2 ^ 52 * (2 ^ (k - 53) * 2 ^ 1)) with (2 ^ 53 * 2 ^ (k - 53)) by lia.
    done.
Qed.

(** *** The three operations of the layer arithmetic *)

(** [int64_t] to [double]: exact below [2 ^ 53]. *)
Lemma double_of_int64_spec (b : positive) :
  let d := Z.pos (digits2_pos b) in
  d ≤ 53 →
  ∃ m, Prim2SF (double_of_int64 (Z.pos b)) = S754_finite false m (d - 53)
       ∧ Z.pos m = Z.pos b * 2 ^ (53 - d).
Proof.
  intros d Hd. unfold double_of_int64. cbn [Z.ltb Z.compare].
  rewrite of_uint63_spec, Uint63.of_Z_spec.
  pose proof (digits2_pos_bounds b) as [Hlo Hhi]. fold d in Hlo, Hhi.
  assert (2 ^ d ≤ 2 ^ 53) by (apply Z.pow_le_mono_r; lia).
  rewrite Z.mod_small by (change Uint63.wB with (2 ^ 63); lia).
  cbn [binary_normalize]. unfold binary_round. fold d.
  assert (∃ mz, shl_align b 0 (fexp prec emax (d + 0)) = (mz, d - 53)
                ∧ Z.pos mz = Z.pos b * 2 ^ (53 - d)) as (mz & -> & Hmz).
  { unfold shl_align.
    assert (fexp prec emax (d + 0) - 0 = d - 53) as ->
      by (unfold fexp, emin, prec, emax; lia).
    destruct (d - 53) as [|p|p] eqn:Hp; [|lia|].
    - exists b. assert (d = 53) as -> by lia. split; [|lia].
      unfold fexp, emin, prec, emax. do 2 f_equal.
    - exists (Pos.iter xO b p). rewrite pos_iter_xO.
      assert (fexp prec emax (d + 0) = Z.neg p) as ->
        by (unfold fexp, emin, prec, emax; lia).
      split; [done|]. do 2 f_equal. lia. }
  assert (2 ^ 52 ≤ Z.pos mz < 2 ^ 53) as Hrange.
  { assert (2 ^ 52 = 2 ^ (d - 1) * 2 ^ (53 - d)) as ->
      by (rewrite <- Z.pow_add_r by lia; f_equal; lia).
    assert (2 ^ 53 = 2 ^ d * 2 ^ (53 - d)) as ->
      by (rewrite <- Z.pow_add_r by lia; f_equal; lia).
    rewrite Hmz. assert (0 < 2 ^ (53 - d)) by lia. split.
    - by apply Z.mul_le_mono_nonneg_r; [lia|].
    - by apply Z.mul_lt_mono_pos_r. }
  assert (Z.pos (digits2_pos mz) = 53) as Hk by (apply digits2_pos_unique; lia).
  destruct (binary_round_aux_spec mz (d - 53) 0 1) as (m' & e' & Heq & Hm' & He' & Hb);
    [lia|lia|lia|lia|].
  change (location_of 0 1) with loc_Exact in Heq. rewrite Heq.
  rewrite Hk in He', Hb. change (2 ^ (53 - 53)) with 1 in Hb.
  destruct He' as [->| ->].
  - replace (d - 53 + (53 - 53) - (d - 53)) with 0 in Hb by lia.
    exists m'. split; [do 2 f_equal; lia|]. lia.
  - replace (d - 53 + (53 - 52) - (d - 53)) with 1 in Hb by lia. lia.
Qed.

(** The product of two normal numbers: the exponent and the error of each
    of the four ways the rounding can go (105 or 106 digits, with or
    without a carry into the next binade). *)
Lemma SFmul_round (mx my : positive) (ex ey : Z) :
  2 ^ 52 ≤ Z.pos mx < 2 ^ 53 → 2 ^ 52 ≤ Z.pos my < 2 ^ 53 →
  -1074 ≤ ex + ey + 52 → ex + ey + 54 ≤ 971 →
  ∃ m' e',
    SFmul prec emax (S754_finite false mx ex) (S754_finite false my ey)
    = S754_finite false m' e'
    ∧ 2 ^ 52 ≤ Z.pos m' < 2 ^ 53
    ∧ let P := Z.pos mx * Z.pos my in
      (e' = ex + ey + 52
       ∧ P < 2 ^ 105 ∧ - 2 ^ 52 ≤ 2 * (Z.pos m' * 2 ^ 52 - P) ≤ 2 ^ 52)
      ∨ (e' = ex + ey + 53
         ∧ P < 2 ^ 105 ∧ - 2 ^ 52 ≤ 2 * (Z.pos m' * 2 ^ 53 - P) ≤ 2 ^ 52)
      ∨ (e' = ex + ey + 53
         ∧ 2 ^ 105 ≤ P ∧ - 2 ^ 53 ≤ 2 * (Z.pos m' * 2 ^ 53 - P) ≤ 2 ^ 53)
      ∨ (e' = ex + ey + 54
         ∧ 2 ^ 105 ≤ P ∧ - 2 ^ 53 ≤ 2 * (Z.pos m' * 2 ^ 54 - P) ≤ 2 ^ 53).
Proof.
  intros Hx Hy Hlo Hhi. cbn [SFmul xorb].
  assert (2 ^ 104 ≤ Z.pos (mx * my) < 2 ^ 106) as HP by (rewrite Pos2Z.inj_mul; nia).
  pose proof (binary_round_aux_spec (mx * my) (ex + ey) 0 1) as Hspec.
  change (location_of 0 1) with loc_Exact in Hspec. cbn zeta in Hspec.
  rewrite <- Pos2Z.inj_mul.
  destruct (decide (Z.pos (mx * my) < 2 ^ 105)) as [Hlt|Hge].
  - rewrite (digits2_pos_unique (mx * my) 105) in Hspec by lia.
    destruct Hspec as (m' & e' & -> & Hm' & [-> | ->] & Hb); [lia..| |];
      eexists m', _; (split; [done|]); (split; [done|]); cbn zeta.
    + left. split; [lia|]. split; [lia|].
      replace (ex + ey + (105 - 53) - (ex + ey)) with 52 in Hb by lia.
      change (2 ^ (105 - 53)) with (2 ^ 52) in Hb. lia.
    + right; left. split; [lia|]. split; [lia|].
      replace (ex + ey + (105 - 52) - (ex + ey)) with 53 in Hb by lia.
      change (2 ^ (105 - 53)) with (2 ^ 52) in Hb. lia.
  - rewrite (digits2_pos_unique (mx * my) 106) in Hspec by lia.
    destruct Hspec as (m' & e' & -> & Hm' & [-> | ->] & Hb); [lia..| |];
      eexists m', _; (split; [done|]); (split; [done|]); cbn zeta.
    + right; right; left. split; [lia|]. split; [lia|].
      replace (ex + ey + (106 - 53) - (ex + ey)) with 53 in Hb by lia.
      change (2 ^ (106 - 53)) with (2 ^ 53) in Hb. lia.
    + right; right; right. split; [lia|]. split; [lia|].
      replace (ex + ey + (106 - 52) - (ex + ey)) with 54 in Hb by lia.
      change (2 ^ (106 - 53)) with (2 ^ 53) in Hb. lia.
Qed.

Lemma d1000_finite : Prim2SF d1000 = S754_finite false 8796093022208000 (-43).
Proof. vm_compute. reflexivity. Qed.
Lemma d0_6_finite : Prim2SF d0_6 = S754_finite false 5404319552844595 (-53).
Proof. vm_compute. reflexivity. Qed.
Lemma d0_25_finite : Prim2SF d0_25 = S754_finite false 4503599627370496 (-54).
Proof. vm_compute. reflexivity. Qed.
Lemma d0_5_finite : Prim2SF d0_5 = S754_finite false 4503599627370496 (-53).
Proof. vm_compute. reflexivity. Qed.

(** The quotient of a normal number by [1000.0], likewise (53 or 54
    digits). *)
Lemma SFdiv_1000_round (mx : positive) (ex : Z) :
  2 ^ 52 ≤ Z.pos mx < 2 ^ 53 → -1074 ≤ ex - 10 → ex - 8 ≤ 971 →
  ∃ m' e',
    SFdiv prec emax (S754_finite false mx ex) (Prim2SF d1000)
    = S754_finite false m' e'
    ∧ 2 ^ 52 ≤ Z.pos m' < 2 ^ 53
    ∧ let D := 8796093022208000 in
      let N := Z.pos mx * 2 ^ 53 in
      (e' = ex - 10
       ∧ N < 2 ^ 53 * D ∧ - D ≤ 2 * (Z.pos m' * D - N) ≤ D)
      ∨ (e' = ex - 9
         ∧ N < 2 ^ 53 * D ∧ - D ≤ 2 * (Z.pos m' * 2 * D - N) ≤ D)
      ∨ (e' = ex - 9
         ∧ 2 ^ 53 * D ≤ N ∧ - (2 * D) ≤ 2 * (Z.pos m' * 2 * D - N) ≤ 2 * D)
      ∨ (e' = ex - 8
         ∧ 2 ^ 53 * D ≤ N ∧ - (2 * D) ≤ 2 * (Z.pos m' * 4 * D - N) ≤ 2 * D).
Proof.
  intros Hx Hlo Hhi. rewrite d1000_finite. cbn [SFdiv xorb].
  unfold SFdiv_core_binary. cbn [Zdigits2]. rewrite (digits_53 mx Hx).
  change (Z.pos (digits2_pos 8796093022208000)) with 53.
  assert (Z.min (fexp prec emax (53 + ex - (53 + -43))) (ex - -43) = ex - 10) as ->
    by (unfold fexp, emin, prec, emax; lia).
  assert (ex - -43 - (ex - 10) = 53) as -> by lia.
  rewrite Z.shiftl_mul_pow2 by lia.
  pose proof (Z_div_mod (Z.pos mx * 2 ^ 53) 8796093022208000 ltac:(done)) as Hdiv.
  destruct (Z.div_eucl (Z.pos mx * 2 ^ 53) 8796093022208000) as [Q R].
  destruct Hdiv as [HN HR].
  change (new_location 8796093022208000 R) with (location_of R 8796093022208000).
  assert (2 ^ 52 ≤ Q < 2 ^ 54) as HQ by lia.
  destruct Q as [|q|q]; [lia| |lia].
  pose proof (binary_round_aux_spec q (ex - 10) R 8796093022208000) as Hspec.
  cbn zeta in Hspec.
  replace (Z.pos q * 8796093022208000 + R) with (Z.pos mx * 2 ^ 53) in Hspec by lia.
  destruct (decide (Z.pos q < 2 ^ 53)) as [Hlt|Hge].
  - rewrite (digits2_pos_unique q 53) in Hspec by lia.
    destruct Hspec as (m' & e' & -> & Hm' & [-> | ->] & Hb); [lia..| |];
      eexists m', _; (split; [done|]); (split; [done|]); cbn zeta.
    + left. split; [lia|]. split; [lia|].
      replace (ex - 10 + (53 - 53) - (ex - 10)) with 0 in Hb by lia.
      change (2 ^ (53 - 53)) with 1 in Hb. lia.
    + right; left. split; [lia|]. split; [lia|].
      replace (ex - 10 + (53 - 52) - (ex - 10)) with 1 in Hb by lia.
      change (2 ^ (53 - 53)) with 1 in Hb. lia.
  - rewrite (digits2_pos_unique q 54) in Hspec by lia.
    destruct Hspec as (m' & e' & -> & Hm' & [-> | ->] & Hb); [lia..| |];
      eexists m', _; (split; [done|]); (split; [done|]); cbn zeta.
    + right; right; left. split; [lia|]. split; [lia|].
      replace (ex - 10 + (54 - 53) - (ex - 10)) with 1 in Hb by lia.
      change (2 ^ (54 - 53)) with 2 in Hb. lia.
    + right; right; right. split; [lia|]. split; [lia|].
      replace (ex - 10 + (54 - 52) - (ex - 10)) with 2 in Hb by lia.
      change (2 ^ (54 - 53)) with 2 in Hb. lia.
Qed.

(** [static_cast<int>] of a positive number below one unit of its last
    place: the quotient of the mantissa. *)
Lemma int_of_finite (m : positive) (e : Z) (n : Z) :
  e < 0 → n * 2 ^ (- e) ≤ Z.pos m < (n + 1) * 2 ^ (- e) →
  (let v := if 0 <=? e then Z.shiftl (Z.pos m) e else Z.shiftr (Z.pos m) (- e) in
   if false then - v else v) = n.
Proof.
  intros He Hn. cbn zeta. rewrite (proj2 (Z.leb_gt 0 e)) by done.
  rewrite Z.shiftr_div_pow2 by lia. symmetry.
  apply Z.div_unique with (Z.pos m - n * 2 ^ (- e)); lia.
Qed.

(** *** One binade of the bitrate at a time *)

(** Evaluate the closed exponents of the powers of two in sight. *)
Ltac eval_exponents :=
  repeat match goal with
  | H : context [2 ^ ?t] |- _ =>
      lazymatch t with Z.pos _ => fail | Z0 => fail | _ => idtac end;
      let v := eval vm_compute in t in change t with v in H
  | |- context [2 ^ ?t] =>
      lazymatch t with Z.pos _ => fail | Z0 => fail | _ => idtac end;
      let v := eval vm_compute in t in change t with v
  end.

Ltac alternatives H :=
  cbn zeta in H;
  destruct H as [(-> & ? & H)|[(-> & ? & H)|[(-> & ? & H)|(-> & ? & H)]]].

(** With the number of digits of the bitrate known, every exponent is a
    numeral, and each way the two roundings can go leaves a linear problem
    over the mantissas. *)
Ltac layer_case b mB target :=
  eval_exponents;
  let mx := fresh "mx" in let ex := fresh "ex" in
  let Hmx := fresh "Hmx" in let Hx := fresh "Hx" in
  let my := fresh "my" in let ey := fresh "ey" in
  let Hmy := fresh "Hmy" in let Hy := fresh "Hy" in
  lazymatch goal with
  | |- context [SFmul prec emax (S754_finite false mB ?eB) (S754_finite false ?mf ?ef)] =>
      destruct (SFmul_round mB mf eB ef) as (mx & ex & -> & Hmx & Hx);
      [lia|done|lia|lia|]
  end;
  alternatives Hx;
  (lazymatch goal with
   | |- context [SFdiv prec emax (S754_finite false mx ?e) _] =>
       destruct (SFdiv_1000_round mx e) as (my & ey & -> & Hmy & Hy);
       [done|lia|lia|]
   end;
   alternatives Hy;
   (cbn match; apply int_of_finite; [lia|];
    lazymatch goal with
    | |- context [- ?e] => let v := eval vm_compute in (- e) in change (- e) with v
    end;
    pose proof (Z.div_mod target.1 target.2 ltac:(done));
    pose proof (Z.mod_pos_bound target.1 target.2 ltac:(done));
    cbn [fst snd] in *;
    lia)).

Ltac each_digit d Hlo Hhi n k tac :=
  lazymatch n with
  | O => exfalso; clear - Hlo Hhi; lia
  | S ?n' =>
      let H := fresh in
      let Hlo' := fresh in
      destruct (decide (d = k)) as [->|H];
      [ clear Hlo Hhi; tac
      | let k' := eval vm_compute in (k + 1) in
        assert (k' ≤ d) as Hlo' by (clear - H Hlo; lia);
        clear H Hlo; each_digit d Hlo' Hhi n' k' tac ]
  end.

Ltac layer_proof b Hb finite target :=
  let Hd := fresh "Hd" in let Hd1 := fresh "Hd1" in
  let Hbounds := fresh "Hbounds" in let Hspec := fresh "Hspec" in
  let mB := fresh "mB" in let HB := fresh "HB" in let HmB := fresh "HmB" in
  let d := fresh "d" in
  pose proof (digits_below b 41 ltac:(done) Hb) as Hd;
  pose proof (digits2_pos_bounds b) as Hbounds;
  pose proof (double_of_int64_spec b) as Hspec; cbn zeta in Hspec;
  destruct Hspec as (mB & HB & HmB); [clear - Hd; lia|];
  unfold layer_kbps, int_of_double;
  rewrite div_spec, mul_spec, HB, finite; unfold SF64div, SF64mul;
  assert (1 ≤ Z.pos (digits2_pos b)) as Hd1 by lia;
  revert Hd Hd1 Hbounds HmB; generalize (Z.pos (digits2_pos b)); clear HB;
  intros d Hd Hd1 Hbounds HmB;
  each_digit d Hd1 Hd 41%nat 1 ltac:(layer_case b mB target).

Lemma layer_kbps_0_6 (b : positive) :
  Z.pos b < 2 ^ 41 → layer_kbps (Z.pos b) d0_6 = 6 * Z.pos b / 10000.
Proof. intros Hb. layer_proof b Hb d0_6_finite (6 * Z.pos b, 10000). Qed.

Lemma layer_kbps_0_25 (b : positive) :
  Z.pos b < 2 ^ 41 → layer_kbps (Z.pos b) d0_25 = Z.pos b / 4000.
Proof. intros Hb. layer_proof b Hb d0_25_finite (Z.pos b, 4000). Qed.

Lemma layer_kbps_0_5 (b : positive) :
  Z.pos b < 2 ^ 41 → layer_kbps (Z.pos b) d0_5 = Z.pos b / 2000.
Proof. intros Hb. layer_proof b Hb d0_5_finite (Z.pos b, 2000). Qed.

(** The lower layers get the whole kilobits per second of their share. *)
Lemma layer_kbps_floor (B : Z) :
  0 ≤ B < 2147483648000 →
  layer_kbps B d0_6 = 6 * B / 10000 ∧ layer_kbps B d0_25 = B / 4000
  ∧ layer_kbps B d0_5 = B / 2000.
Proof.
  intros HB. destruct B as [|b|b]; [by vm_compute| |lia].
  assert (Z.pos b < 2 ^ 41) by lia.
  auto using layer_kbps_0_6, layer_kbps_0_25, layer_kbps_0_5.
Qed.

(** The top layer gets the whole kilobits per second of the bitrate. *)
Lemma top_kbps_floor (B : Z) : 0 ≤ B < 2147483648000 → top_kbps B = B / 1000.
Proof.
  intros HB. unfold top_kbps, to_int32. rewrite Z.quot_div_nonneg by lia.
  pose proof (Z.div_mod B 1000 ltac:(done)).
  pose proof (Z.mod_pos_bound B 1000 ltac:(done)).
  rewrite Z.mod_small; lia.
Qed.

(** C7, as the code has it: for a bitrate [B] whose kilobits per second fit
    an [int], the two-layer parameters give the layers 60% and 100% of [B]
    and the three-layer parameters 25%, 50% and 100% of [B], each rounded
    down to whole kilobits per second, the unit of libvpx's
    [ts_target_bitrate], with decimators 2,1 and 4,2,1. *)
Theorem layer_targets_are_whole_kbps (B : Z) :
  0 ≤ B < 2147483648000 →
  tsParams 2 B
  = "ts_number_layers=2:ts_target_bitrate=" +:+ pretty (6 * B / 10000)
      +:+ "," +:+ pretty (B / 1000)
      +:+ ":ts_rate_decimator=2,1:ts_periodicity=2:ts_layer_id=0,1"
  ∧ tsParams 3 B
    = "ts_number_layers=3:ts_target_bitrate=" +:+ pretty (B / 4000)
        +:+ "," +:+ pretty (B / 2000)
        +:+ "," +:+ pretty (B / 1000)
        +:+ ":ts_rate_decimator=4,2,1:ts_periodicity=4:ts_layer_id=0,2,1,2".
Proof.
  intros HB. destruct (layer_kbps_floor B HB) as (H06 & H025 & H05).
  unfold tsParams. cbn [Z.eqb Pos.eqb].
  by rewrite H06, H025, H05, top_kbps_floor.
Qed.

End LayerFacts.

Lemma layer_targets_are_whole_kbps_witness :
  0 ≤ 1000000 < 2147483648000
  ∧ Native.tsParams 2 1000000
    = "ts_number_layers=2:ts_target_bitrate=" +:+ pretty (6 * 1000000 / 10000)
        +:+ "," +:+ pretty (1000000 / 1000)
        +:+ ":ts_rate_decimator=2,1:ts_periodicity=2:ts_layer_id=0,1"
  ∧ Native.tsParams 3 1000000
    = "ts_number_layers=3:ts_target_bitrate=" +:+ pretty (1000000 / 4000)
        +:+ "," +:+ pretty (1000000 / 2000)
        +:+ "," +:+ pretty (1000000 / 1000)
        +:+ ":ts_rate_decimator=4,2,1:ts_periodicity=4:ts_layer_id=0,2,1,2".
Proof.
  split; [lia|]. apply (layer_targets_are_whole_kbps 1000000). lia.
Defined.

(** At one megabit per second the layers get 600 and 1000 kbit/s, or 250,
    500 and 1000 kbit/s; and [Configure] hands the string to libvpx. *)
Example ts_parameters_three_layers :
  Native.tsParams 3 1000000 =
  "ts_number_layers=3:ts_target_bitrate=250,500,1000:ts_rate_decimator=4,2,1:ts_periodicity=4:ts_layer_id=0,2,1,2".
Proof. vm_compute. reflexivity. Qed.

Example configure_sets_ts_parameters :
  let w := Scenario.after
             (Native.Configure Scenario.software
                (Some (Scenario.vp8 None (Some "L1T2") (Some 1000000))))
             Native.start in
  (Libav.contexts (Native.av w) !! 0%nat) ≫= Libav.get_opt "ts-parameters"
  = Some (Libav.OStr "ts_number_layers=2:ts_target_bitrate=600,1000:ts_rate_decimator=2,1:ts_periodicity=2:ts_layer_id=0,1").
Proof. vm_compute. reflexivity. Qed.

(** C7, the claim as stated, fails at a bitrate that is not a multiple of
    5000: at 1500 bit/s the two layers get 0 and 1 kbit/s, that is 0 and
    1000 bit/s, where 60% and 100% of the bitrate are 900 and 1500. *)
Lemma layer_targets_lose_the_remainder :
  Native.tsParams 2 1500 =
  "ts_number_layers=2:ts_target_bitrate=0,1:ts_rate_decimator=2,1:ts_periodicity=2:ts_layer_id=0,1"
  ∧ 1000 * Native.layer_kbps 1500 Native.d0_6 ≠ 60 * 1500 / 100
  ∧ 1000 * Native.top_kbps 1500 ≠ 1500.
Proof.
  split; [vm_compute; reflexivity|]. split; vm_compute; discriminate.
Qed.
